(** * DiffGrad: a shallow embedding of [optimizer/DiffGrad.py]

    The optimizer object, the model variable it updates and the tensors it
    owns are embedded as Rocq records and lists; every method of the class
    becomes a computation in a state-and-exception monad, so that a Python
    [raise] and the in-place mutation of [self] and of [tf.Variable]s are
    explicit.

    Conventions of the embedding:
    - tensors are rank-1 ([list R]); a "row" is one entry.  The dtype is
      idealised as the real numbers, so every statement below is about exact
      arithmetic.  Where the arithmetic of a step leaves the real numbers (a
      division by zero or the square root of a negative number, for which
      TensorFlow stores [nan] or [inf] without raising), the embedded step
      ends with [NotANumber] and stores no value;
    - element-wise binary operators follow TensorFlow's broadcasting rule for
      rank-1 shapes (equal lengths, or one operand of length one);
    - a [tf.Variable] is a record of its identity, its name and its
      contents; [variable in list] is Python's membership test, by identity
      and then by TensorFlow's entry-wise [==];
    - [re.search] belongs to Python's library and is a parameter of the
      development; the patterns are taken to be valid regular expressions. *)

From Stdlib Require Import Reals Lra String.
From stdpp Require Import base option list gmap strings.

Local Open Scope R_scope.

(** ** Python values, exceptions and the monad of method calls *)

(** The values a caller may pass for the [weight_decay] keyword. *)
Inductive pyval : Type :=
  | PyNone : pyval
  | PyFloat : R -> pyval
  | PyStr : string -> pyval.

(** The exceptions of Python and TensorFlow that the methods can raise.
    [NotANumber] is not one of them: it ends a step whose result is not a
    tensor of real numbers, which the code completes with [nan] or [inf]. *)
Inductive exc : Type :=
  | ValueError
  | KeyError
  | IndexError
  | AttributeError
  | TypeError
  | InvalidArgumentError
  | NotANumber.

Inductive result (A : Type) : Type :=
  | Ok : A -> result A
  | Raise : exc -> result A.
Arguments Ok {A} _.
Arguments Raise {A} _.

(** A method call on mutable state [S]: it returns or raises, and in both
    cases leaves a state behind (what was mutated before a [raise] stays
    mutated). *)
Definition M (S A : Type) : Type := S -> result A * S.

Definition M_ret {S A} (a : A) : M S A := fun s => (Ok a, s).

Definition M_bind {S A B} (k : A -> M S B) (c : M S A) : M S B :=
  fun s => match c s with
           | (Ok a, s') => k a s'
           | (Raise e, s') => (Raise e, s')
           end.

#[global] Instance M_mret {S} : MRet (M S) := @M_ret S.
#[global] Instance M_mbind {S} : MBind (M S) := @M_bind S.

Definition raise {S A} (e : exc) : M S A := fun s => (Raise e, s).
Definition get {S} : M S S := fun s => (Ok s, s).
Definition gets {S A} (f : S -> A) : M S A := fun s => (Ok (f s), s).
Definition modify {S} (f : S -> S) : M S unit := fun s => (Ok tt, f s).

(** A pure computation that may raise, run inside a method. *)
Definition lift {S A} (r : result A) : M S A := fun s => (r, s).

(** [for x in xs: body x] *)
Fixpoint for_ {S A} (xs : list A) (body : A -> M S unit) : M S unit :=
  match xs with
  | [] => mret tt
  | x :: xs' => body x ;; for_ xs' body
  end.

(** ** Tensors *)

(** Comparisons of real numbers, as the conditions of the embedding use
    them. *)
#[global] Instance R_eq_dec : EqDecision R := Req_EM_T.
#[global] Instance Rle_rel_dec : RelDecision Rle := Rle_dec.
#[global] Instance Rlt_rel_dec : RelDecision Rlt := Rlt_dec.

(** A rank-1 tensor of the variable's dtype. *)
Abbreviation tensor := (list R) (only parsing).

(** Element-wise binary operator with rank-1 broadcasting. *)
Definition broadcast (f : R -> R -> R) (a b : tensor) : result tensor :=
  if decide (length a = length b) then Ok (zip_with f a b)
  else match a, b with
       | [x], _ => Ok (f x <$> b)
       | _, [y] => Ok ((fun x => f x y) <$> a)
       | _, _ => Raise InvalidArgumentError
       end.

(** [tf.IndexedSlices(values, indices)] scattered into [t], one slice after
    the other: [f old new] is what is stored at the index.  The number of
    values must be the number of indices and every index must be a row of
    [t]. *)
Fixpoint scatter (f : R -> R -> R) (t : tensor) (values : tensor)
    (indices : list nat) : result tensor :=
  match values, indices with
  | [], [] => Ok t
  | x :: values', i :: indices' =>
      match t !! i with
      | Some y => scatter f (<[i := f y x]> t) values' indices'
      | None => Raise InvalidArgumentError
      end
  | _, _ => Raise InvalidArgumentError
  end.

Definition zeros_like (t : tensor) : tensor := (fun _ => 0) <$> t.

(** A gradient as the host hands it over: a dense tensor, or
    [tf.IndexedSlices] with the values of the touched rows. *)
Inductive Gradient : Type :=
  | Dense (gradient : tensor)
  | IndexedSlices (values : tensor) (indices : list nat).

(** ** The objects *)

(** A model variable: identity ([_var_key]), name and current contents. *)
Record TfVariable : Type := mkVariable {
  var_key : nat;
  name : string;
  value : tensor
}.

Definition assign_value (variable : TfVariable) (t : tensor) : TfVariable :=
  {| var_key := var_key variable; name := name variable; value := t |}.

(** The attributes of a [DiffGrad] instance.  An attribute that the code
    tests with [hasattr]/[getattr] is an [option]: [None] is "not set". *)
Record DiffGrad : Type := mkDiffGrad {
  learning_rate : R;
  weight_decay : pyval;
  beta_1 : R;
  beta_2 : R;
  epsilon : R;
  amsgrad : bool;
  iterations : nat;
  _built : option bool;
  _index_dict : gmap nat nat;
  _momentums : list tensor;
  _velocities : list tensor;
  _prev_gradients : list tensor;
  _velocity_hats : option (list tensor);
  _exclude_from_weight_decay : option (list TfVariable);
  _exclude_from_weight_decay_names : option (list string)
}.

Definition set_built (b : bool) (o : DiffGrad) : DiffGrad :=
  {| learning_rate := learning_rate o; weight_decay := weight_decay o;
     beta_1 := beta_1 o; beta_2 := beta_2 o; epsilon := epsilon o;
     amsgrad := amsgrad o; iterations := iterations o;
     _built := Some b;
     _index_dict := _index_dict o;
     _momentums := _momentums o; _velocities := _velocities o;
     _prev_gradients := _prev_gradients o;
     _velocity_hats := _velocity_hats o;
     _exclude_from_weight_decay := _exclude_from_weight_decay o;
     _exclude_from_weight_decay_names := _exclude_from_weight_decay_names o |}.

Definition set_index_dict (d : gmap nat nat) (o : DiffGrad) : DiffGrad :=
  {| learning_rate := learning_rate o; weight_decay := weight_decay o;
     beta_1 := beta_1 o; beta_2 := beta_2 o; epsilon := epsilon o;
     amsgrad := amsgrad o; iterations := iterations o;
     _built := _built o;
     _index_dict := d;
     _momentums := _momentums o; _velocities := _velocities o;
     _prev_gradients := _prev_gradients o;
     _velocity_hats := _velocity_hats o;
     _exclude_from_weight_decay := _exclude_from_weight_decay o;
     _exclude_from_weight_decay_names := _exclude_from_weight_decay_names o |}.

Definition set_momentums (l : list tensor) (o : DiffGrad) : DiffGrad :=
  {| learning_rate := learning_rate o; weight_decay := weight_decay o;
     beta_1 := beta_1 o; beta_2 := beta_2 o; epsilon := epsilon o;
     amsgrad := amsgrad o; iterations := iterations o;
     _built := _built o;
     _index_dict := _index_dict o;
     _momentums := l; _velocities := _velocities o;
     _prev_gradients := _prev_gradients o;
     _velocity_hats := _velocity_hats o;
     _exclude_from_weight_decay := _exclude_from_weight_decay o;
     _exclude_from_weight_decay_names := _exclude_from_weight_decay_names o |}.

Definition set_velocities (l : list tensor) (o : DiffGrad) : DiffGrad :=
  {| learning_rate := learning_rate o; weight_decay := weight_decay o;
     beta_1 := beta_1 o; beta_2 := beta_2 o; epsilon := epsilon o;
     amsgrad := amsgrad o; iterations := iterations o;
     _built := _built o;
     _index_dict := _index_dict o;
     _momentums := _momentums o; _velocities := l;
     _prev_gradients := _prev_gradients o;
     _velocity_hats := _velocity_hats o;
     _exclude_from_weight_decay := _exclude_from_weight_decay o;
     _exclude_from_weight_decay_names := _exclude_from_weight_decay_names o |}.

Definition set_prev_gradients (l : list tensor) (o : DiffGrad) : DiffGrad :=
  {| learning_rate := learning_rate o; weight_decay := weight_decay o;
     beta_1 := beta_1 o; beta_2 := beta_2 o; epsilon := epsilon o;
     amsgrad := amsgrad o; iterations := iterations o;
     _built := _built o;
     _index_dict := _index_dict o;
     _momentums := _momentums o; _velocities := _velocities o;
     _prev_gradients := l;
     _velocity_hats := _velocity_hats o;
     _exclude_from_weight_decay := _exclude_from_weight_decay o;
     _exclude_from_weight_decay_names := _exclude_from_weight_decay_names o |}.

Definition set_velocity_hats (l : list tensor) (o : DiffGrad) : DiffGrad :=
  {| learning_rate := learning_rate o; weight_decay := weight_decay o;
     beta_1 := beta_1 o; beta_2 := beta_2 o; epsilon := epsilon o;
     amsgrad := amsgrad o; iterations := iterations o;
     _built := _built o;
     _index_dict := _index_dict o;
     _momentums := _momentums o; _velocities := _velocities o;
     _prev_gradients := _prev_gradients o;
     _velocity_hats := Some l;
     _exclude_from_weight_decay := _exclude_from_weight_decay o;
     _exclude_from_weight_decay_names := _exclude_from_weight_decay_names o |}.

Definition set_exclude_from_weight_decay (vs : list TfVariable)
    (o : DiffGrad) : DiffGrad :=
  {| learning_rate := learning_rate o; weight_decay := weight_decay o;
     beta_1 := beta_1 o; beta_2 := beta_2 o; epsilon := epsilon o;
     amsgrad := amsgrad o; iterations := iterations o;
     _built := _built o;
     _index_dict := _index_dict o;
     _momentums := _momentums o; _velocities := _velocities o;
     _prev_gradients := _prev_gradients o;
     _velocity_hats := _velocity_hats o;
     _exclude_from_weight_decay := Some vs;
     _exclude_from_weight_decay_names := _exclude_from_weight_decay_names o |}.

Definition set_exclude_from_weight_decay_names (ns : list string)
    (o : DiffGrad) : DiffGrad :=
  {| learning_rate := learning_rate o; weight_decay := weight_decay o;
     beta_1 := beta_1 o; beta_2 := beta_2 o; epsilon := epsilon o;
     amsgrad := amsgrad o; iterations := iterations o;
     _built := _built o;
     _index_dict := _index_dict o;
     _momentums := _momentums o; _velocities := _velocities o;
     _prev_gradients := _prev_gradients o;
     _velocity_hats := _velocity_hats o;
     _exclude_from_weight_decay := _exclude_from_weight_decay o;
     _exclude_from_weight_decay_names := Some ns |}.

Definition set_iterations (n : nat) (o : DiffGrad) : DiffGrad :=
  {| learning_rate := learning_rate o; weight_decay := weight_decay o;
     beta_1 := beta_1 o; beta_2 := beta_2 o; epsilon := epsilon o;
     amsgrad := amsgrad o; iterations := n;
     _built := _built o;
     _index_dict := _index_dict o;
     _momentums := _momentums o; _velocities := _velocities o;
     _prev_gradients := _prev_gradients o;
     _velocity_hats := _velocity_hats o;
     _exclude_from_weight_decay := _exclude_from_weight_decay o;
     _exclude_from_weight_decay_names := _exclude_from_weight_decay_names o |}.

(** [hasattr(self, "_built") and self._built] *)
Definition is_built (o : DiffGrad) : bool :=
  match _built o with
  | Some b => b
  | None => false
  end.

(** ** [__init__] *)

(** The keyword arguments of the constructor that the class itself reads;
    [None] is an argument the caller left out. *)
Record init_kwargs : Type := mkKwargs {
  kw_learning_rate : option R;
  kw_weight_decay : option pyval;
  kw_beta_1 : option R;
  kw_beta_2 : option R;
  kw_epsilon : option R;
  kw_amsgrad : option bool
}.

Definition no_kwargs : init_kwargs :=
  {| kw_learning_rate := None; kw_weight_decay := None; kw_beta_1 := None;
     kw_beta_2 := None; kw_epsilon := None; kw_amsgrad := None |}.

(** The inherited options ([clipnorm], [use_ema], [jit_compile], ...) go to
    the base class unchanged and play no part below.  The attributes are
    assigned first, the check of [weight_decay] comes last. *)
Definition __init__ (kw : init_kwargs) : result DiffGrad :=
  let self :=
    {| learning_rate := default 0.001 (kw_learning_rate kw);
       weight_decay := default (PyFloat 0.004) (kw_weight_decay kw);
       beta_1 := default 0.9 (kw_beta_1 kw);
       beta_2 := default 0.999 (kw_beta_2 kw);
       epsilon := default 1e-16 (kw_epsilon kw);
       amsgrad := default false (kw_amsgrad kw);
       iterations := 0%nat;
       _built := None;
       _index_dict := ∅;
       _momentums := []; _velocities := []; _prev_gradients := [];
       _velocity_hats := None;
       _exclude_from_weight_decay := None;
       _exclude_from_weight_decay_names := None |} in
  match weight_decay self with
  | PyNone => Raise ValueError
  | _ => Ok self
  end.

(** ** [build] *)

Fixpoint build_index_dict (var_list : list TfVariable) (i : nat)
    (d : gmap nat nat) : gmap nat nat :=
  match var_list with
  | [] => d
  | var :: var_list' => build_index_dict var_list' (S i) (<[var_key var := i]> d)
  end.

(** Modelled from the spec: [super().build] of the host's optimizer base
    class, which is not part of this repository.  Guarded by the built flag,
    it records the mapping from a parameter's identity to its state slot. *)
Definition base_build (var_list : list TfVariable) : M DiffGrad unit :=
  self ← get;
  if is_built self then mret tt
  else modify (set_index_dict (build_index_dict var_list 0 ∅)).

(** Modelled from the spec: [add_variable_from_reference] of the same base
    class, which creates a zero tensor of the model variable's shape. *)
Definition add_variable_from_reference (model_variable : TfVariable)
    : tensor :=
  zeros_like (value model_variable).

Definition build (var_list : list TfVariable) : M DiffGrad unit :=
  base_build var_list;;
  self ← get;
  if is_built self then mret tt
  else
    modify (set_built true);;
    modify (set_momentums []);;
    modify (set_velocities []);;
    modify (set_prev_gradients []);;
    for_ var_list (fun var =>
      modify (fun o =>
        set_momentums (_momentums o ++ [add_variable_from_reference var]) o);;
      modify (fun o =>
        set_velocities (_velocities o ++ [add_variable_from_reference var]) o);;
      modify (fun o =>
        set_prev_gradients
          (_prev_gradients o ++ [add_variable_from_reference var]) o));;
    if amsgrad self then
      modify (set_velocity_hats []);;
      for_ var_list (fun var =>
        modify (fun o =>
          set_velocity_hats
            (default [] (_velocity_hats o)
               ++ [add_variable_from_reference var]) o))
    else mret tt.

(** ** [exclude_from_weight_decay] *)

(** [var_list or []]: [None] and the empty list both give the empty list. *)
Definition or_empty {A} (l : option (list A)) : list A := default [] l.

(** The attribute holds the list of variables that was passed.  A record of
    the list stands for the variable object: its identity, its name and the
    contents the object has at the start of the step that reads the list
    (the host's loop keeps them current, see [refresh]). *)
Definition exclude_from_weight_decay (var_list : option (list TfVariable))
    (var_names : option (list string)) : M DiffGrad unit :=
  self ← get;
  if is_built self then raise ValueError
  else
    modify (set_exclude_from_weight_decay (or_empty var_list));;
    modify (set_exclude_from_weight_decay_names (or_empty var_names)).

(** ** Mutable tensors reachable from [update_step] *)

(** What [update_step] mutates: the optimizer and the model variable. *)
Definition St : Type := (DiffGrad * TfVariable)%type.

(** A reference to a [tf.Variable]: the model variable, or a slot of one of
    the optimizer's lists. *)
Inductive ref : Type :=
  | VarRef
  | SlotM (index : nat)
  | SlotV (index : nat)
  | SlotP (index : nat)
  | SlotVhat (index : nat).

Definition deref (r : ref) (s : St) : option tensor :=
  match r with
  | VarRef => Some (value s.2)
  | SlotM i => _momentums s.1 !! i
  | SlotV i => _velocities s.1 !! i
  | SlotP i => _prev_gradients s.1 !! i
  | SlotVhat i => _velocity_hats s.1 ≫= fun l => l !! i
  end.

Definition write (r : ref) (t : tensor) (s : St) : St :=
  match r with
  | VarRef => (s.1, assign_value s.2 t)
  | SlotM i => (set_momentums (<[i := t]> (_momentums s.1)) s.1, s.2)
  | SlotV i => (set_velocities (<[i := t]> (_velocities s.1)) s.1, s.2)
  | SlotP i => (set_prev_gradients (<[i := t]> (_prev_gradients s.1)) s.1, s.2)
  | SlotVhat i =>
      match _velocity_hats s.1 with
      | Some l => (set_velocity_hats (<[i := t]> l) s.1, s.2)
      | None => s
      end
  end.

(** [self._momentums[index]] and its siblings: the reference, if the slot
    exists. *)
Definition getitem (r : ref) : M St ref :=
  fun s => match deref r s with
           | Some _ => (Ok r, s)
           | None => (Raise IndexError, s)
           end.

(** [self._index_dict[key]] *)
Definition getitem_index_dict (key : nat) : M St nat :=
  fun s => match _index_dict s.1 !! key with
           | Some index => (Ok index, s)
           | None => (Raise KeyError, s)
           end.

Definition read (r : ref) : M St tensor :=
  fun s => match deref r s with
           | Some t => (Ok t, s)
           | None => (Raise IndexError, s)
           end.

(** [r.assign(x)], [r.assign_add(x)], [r.assign_sub(x)]: the shape of [x]
    must be the shape of the variable. *)
Definition assign (r : ref) (x : tensor) : M St unit :=
  t ← read r;
  if decide (length x = length t) then modify (write r x)
  else raise ValueError.

Definition assign_add (r : ref) (x : tensor) : M St unit :=
  t ← read r;
  if decide (length x = length t) then modify (write r (zip_with Rplus t x))
  else raise InvalidArgumentError.

Definition assign_sub (r : ref) (x : tensor) : M St unit :=
  t ← read r;
  if decide (length x = length t) then modify (write r (zip_with Rminus t x))
  else raise InvalidArgumentError.

(** [r.scatter_add(tf.IndexedSlices(values, indices))] *)
Definition scatter_add (r : ref) (values : tensor) (indices : list nat)
    : M St unit :=
  t ← read r;
  t' ← lift (scatter Rplus t values indices);
  modify (write r t').

(** [r.scatter_update(tf.IndexedSlices(values, indices))] *)
Definition scatter_update (r : ref) (values : tensor) (indices : list nat)
    : M St unit :=
  t ← read r;
  t' ← lift (scatter (fun _ x => x) t values indices);
  modify (write r t').

(** [tf.cast(self.weight_decay, variable.dtype)] *)
Definition cast_float (x : pyval) : M St R :=
  match x with
  | PyFloat w => mret w
  | _ => raise TypeError
  end.

(** [1. + tf.exp(-tf.abs(d))] on one entry. *)
Definition friction (d : R) : R := 1 + exp (- Rabs d).

(** The friction coefficient as [update_step] computes it on the sparse
    path: [1. + tf.exp(-tf.abs(p - gradient.values))], the whole of [p]
    against the values, by broadcasting. *)
Definition sparse_dfc (p values : tensor) : result tensor :=
  match broadcast Rminus p values with
  | Ok d => Ok (friction <$> d)
  | Raise e => Raise e
  end.

(** The same on the dense path: [1. + tf.exp(-tf.abs(p - gradient))]. *)
Definition dense_dfc (p gradient : tensor) : result tensor :=
  match broadcast Rminus p gradient with
  | Ok d => Ok (friction <$> d)
  | Raise e => Raise e
  end.

(** [(m * alpha) / (dfc * tf.sqrt(v))] is a tensor of real numbers exactly
    when the velocity under the square root is positive in every entry (the
    friction coefficient is above 1, so the divisor is zero exactly where the
    velocity is) and, unless the tensor has no entry at all, the two bias
    corrections give a real [alpha]. *)
Definition real_update (beta_1_power beta_2_power : R) (v : tensor)
    : result unit :=
  if decide (Forall (Rlt 0) v /\
             (v = [] \/ (1 - beta_1_power <> 0 /\ 0 <= 1 - beta_2_power)))
  then Ok tt
  else Raise NotANumber.

(** ** Membership of a variable in a list of variables *)

(** The number of entries of [a == b] for tensors of [n] and [m] entries,
    when the two shapes can be broadcast. *)
Definition broadcast_length (n m : nat) : option nat :=
  if decide (n = m) then Some n
  else if decide (n = 1%nat) then Some m
  else if decide (m = 1%nat) then Some n
  else None.

(** [bool(a == b)] for the contents of two [tf.Variable]s.  [==] compares
    entry by entry with broadcasting, and is [False] when the shapes cannot
    be broadcast; the truth value of the result is that of its only entry,
    [False] when it has none, and [ValueError] when it has more than one. *)
Definition truth_of_equal (a b : tensor) : result bool :=
  match broadcast_length (length a) (length b) with
  | None => Ok false
  | Some 0%nat => Ok false
  | Some 1%nat => Ok (bool_decide (a = b))
  | Some _ => Raise ValueError
  end.

(** [variable in l]: Python compares the elements of the list with
    [variable] in order, by identity first and by [==] otherwise, and stops
    at the first element for which the comparison is true. *)
Fixpoint variable_in (variable : TfVariable) (l : list TfVariable)
    : result bool :=
  match l with
  | [] => Ok false
  | e :: l' =>
      if decide (var_key e = var_key variable) then Ok true
      else match truth_of_equal (value e) (value variable) with
           | Ok true => Ok true
           | Ok false => variable_in variable l'
           | Raise err => Raise err
           end
  end.

Section WithRegexSearch.

(** [re_search pattern s] is [re.search(pattern, s) is not None]. *)
Variable re_search : string -> string -> bool.

(** ** [_use_weight_decay] *)

Definition _use_weight_decay (self : DiffGrad) (variable : TfVariable)
    : result bool :=
  let exclude_from_weight_decay :=
    default [] (_exclude_from_weight_decay self) in
  let exclude_from_weight_decay_names :=
    default [] (_exclude_from_weight_decay_names self) in
  match variable_in variable exclude_from_weight_decay with
  | Raise err => Raise err
  | Ok true => Ok false
  | Ok false =>
      if existsb (fun pat => re_search pat (name variable))
           exclude_from_weight_decay_names
      then Ok false
      else Ok true
  end.

(** ** [update_step] *)

Definition update_step (gradient : Gradient) : M St unit :=
  self ← gets fst;
  variable ← gets snd;
  let lr := learning_rate self in
  let local_step := S (iterations self) in
  let beta_1_power := beta_1 self ^ local_step in
  let beta_2_power := beta_2 self ^ local_step in
  index ← getitem_index_dict (var_key variable);
  m ← getitem (SlotM index);
  v ← getitem (SlotV index);
  p ← getitem (SlotP index);
  let alpha := lr * sqrt (1 - beta_2_power) / (1 - beta_1_power) in
  (* Apply step weight decay *)
  use_weight_decay ← lift (_use_weight_decay self variable);
  (if use_weight_decay : bool then
     wd ← cast_float (weight_decay self);
     x ← read VarRef;
     assign_sub VarRef ((fun xi => xi * wd * lr) <$> x)
   else mret tt);;
  dfc ← match gradient with
        | IndexedSlices values indices =>
            (* Sparse gradients. *)
            mt ← read m;
            assign_add m ((fun mi => - mi * (1 - beta_1 self)) <$> mt);;
            scatter_add m ((fun gi => gi * (1 - beta_1 self)) <$> values)
              indices;;
            vt ← read v;
            assign_add v ((fun vi => - vi * (1 - beta_2 self)) <$> vt);;
            scatter_add v
              ((fun gi => gi * gi * (1 - beta_2 self) + epsilon self)
                 <$> values)
              indices;;
            pt ← read p;
            dfc ← lift (sparse_dfc pt values);
            scatter_update p values indices;;
            mret dfc
        | Dense gradient =>
            (* Dense gradients. *)
            mt ← read m;
            gm ← lift (broadcast Rminus gradient mt);
            assign_add m ((fun d => d * (1 - beta_1 self)) <$> gm);;
            vt ← read v;
            gv ← lift (broadcast Rminus ((fun gi => gi * gi) <$> gradient) vt);
            assign_add v
              ((fun d => d * (1 - beta_2 self) + epsilon self) <$> gv);;
            pt ← read p;
            dfc ← lift (dense_dfc pt gradient);
            assign p gradient;;
            mret dfc
        end;
  v ← (if amsgrad self then
         v_hat ← getitem (SlotVhat index);
         vh ← read v_hat;
         vt ← read v;
         mx ← lift (broadcast Rmax vh vt);
         assign v_hat mx;;
         mret v_hat
       else mret v);
  mt ← read m;
  vt ← read v;
  den ← lift (broadcast Rmult dfc (sqrt <$> vt));
  upd ← lift (broadcast Rdiv ((fun mi => mi * alpha) <$> mt) den);
  lift (real_update beta_1_power beta_2_power vt);;
  assign_sub VarRef upd.

(** ** The host's training loop *)

(** The exclusion list holds the variable objects themselves, so it sees
    what a step assigns to a variable of the list: the records of the
    identity of [variable] take its contents. *)
Definition refresh (variable : TfVariable) (o : DiffGrad) : DiffGrad :=
  match _exclude_from_weight_decay o with
  | Some l =>
      set_exclude_from_weight_decay
        ((fun e => if decide (var_key e = var_key variable)
                   then variable else e) <$> l) o
  | None => o
  end.

(** One [update_step] as the optimizer sees it: the model variable belongs to
    the host, which hands it over with the gradient. *)
Definition step_on (gv : Gradient * TfVariable) : M DiffGrad unit :=
  fun o => let '(r, s) := update_step gv.1 (o, gv.2) in (r, refresh s.2 s.1).

(** Modelled from the spec: the host's optimizer invocation, which is not part
    of this repository.  It calls [update_step] once per parameter and then
    increments the global step counter once. *)
Definition apply_gradients (grads_and_vars : list (Gradient * TfVariable))
    : M DiffGrad unit :=
  for_ grads_and_vars step_on;;
  modify (fun o => set_iterations (S (iterations o)) o).

Definition train (batches : list (list (Gradient * TfVariable)))
    : M DiffGrad unit :=
  for_ batches apply_gradients.

End WithRegexSearch.

(** ** Vocabulary of the statements *)

(** The variable [x] is registered at slot [index], where the optimizer holds
    the tensors [m], [v] and [p] of the variable's shape (what [build]
    establishes). *)
Definition registered (o : DiffGrad) (x : TfVariable) (index : nat)
    (m v p : tensor) : Prop :=
  _index_dict o !! var_key x = Some index /\
  _momentums o !! index = Some m /\
  _velocities o !! index = Some v /\
  _prev_gradients o !! index = Some p /\
  length m = length (value x) /\
  length v = length (value x) /\
  length p = length (value x).

(** The slot also holds [vh] in [_velocity_hats]. *)
Definition registered_hat (o : DiffGrad) (x : TfVariable) (index : nat)
    (vh : tensor) : Prop :=
  (_velocity_hats o ≫= fun l => l !! index) = Some vh /\
  length vh = length (value x).

(** Entry [j] of the tensor behind a reference. *)
Definition entry (r : ref) (j : nat) (s : St) : option R :=
  deref r s ≫= fun t => t !! j.

(** The step scale of [update_step] at iteration [t]. *)
Definition alpha_at (o : DiffGrad) : R :=
  learning_rate o * sqrt (1 - beta_2 o ^ S (iterations o))
    / (1 - beta_1 o ^ S (iterations o)).

(** Every [velocity_hat] tensor of [o'] has the shape it has in [o] and is
    entry by entry at least as large. *)
Definition vhat_le (o o' : DiffGrad) : Prop :=
  option_Forall2 (Forall2 (Forall2 Rle))
    (_velocity_hats o) (_velocity_hats o').

(** The friction coefficient as the specification words it on the sparse
    path: over the touched rows only, the stale [p] of each touched row
    against the value that arrives for that row. *)
Fixpoint touched_dfc (p values : tensor) (indices : list nat)
    : option tensor :=
  match values, indices with
  | [], [] => Some []
  | g :: values', i :: indices' =>
      match p !! i, touched_dfc p values' indices' with
      | Some pi, Some rest => Some (friction (pi - g) :: rest)
      | _, _ => None
      end
  | _, _ => None
  end.

(** The dense gradient that a sparse gradient stands for: row [i] carries the
    value paired with index [i], the other rows carry zero. *)
Fixpoint densify (n : nat) (values : tensor) (indices : list nat) : tensor :=
  match values, indices with
  | g :: values', i :: indices' => <[i := g]> (densify n values' indices')
  | _, _ => replicate n 0
  end.

(** [re.search] for a pattern without metacharacters: the pattern occurs
    somewhere in the string. *)
Fixpoint literal_search (pat s : string) : bool :=
  String.prefix pat s ||
  match s with
  | EmptyString => false
  | String _ s' => literal_search pat s'
  end.

(** ** Concrete objects used in the examples *)

Definition kernel : TfVariable :=
  {| var_key := 0; name := "dense/kernel:0"; value := [1; 1] |}.

Definition bias : TfVariable :=
  {| var_key := 1; name := "dense/bias:0"; value := [1; 1] |}.

(** The engine built by [DiffGrad()] with every argument left out. *)
Definition default_engine : DiffGrad :=
  {| learning_rate := 0.001; weight_decay := PyFloat 0.004;
     beta_1 := 0.9; beta_2 := 0.999; epsilon := 1e-16; amsgrad := false;
     iterations := 0%nat; _built := None; _index_dict := ∅;
     _momentums := []; _velocities := []; _prev_gradients := [];
     _velocity_hats := None;
     _exclude_from_weight_decay := None;
     _exclude_from_weight_decay_names := None |}.

(** [DiffGrad(amsgrad=True)] *)
Definition amsgrad_engine : DiffGrad :=
  {| learning_rate := 0.001; weight_decay := PyFloat 0.004;
     beta_1 := 0.9; beta_2 := 0.999; epsilon := 1e-16; amsgrad := true;
     iterations := 0%nat; _built := None; _index_dict := ∅;
     _momentums := []; _velocities := []; _prev_gradients := [];
     _velocity_hats := None;
     _exclude_from_weight_decay := None;
     _exclude_from_weight_decay_names := None |}.

(** The keyword arguments of [DiffGrad(amsgrad=True)]. *)
Definition amsgrad_kwargs : init_kwargs :=
  {| kw_learning_rate := None; kw_weight_decay := None; kw_beta_1 := None;
     kw_beta_2 := None; kw_epsilon := None; kw_amsgrad := Some true |}.

(** The keyword arguments of [DiffGrad(weight_decay=w)]. *)
Definition with_weight_decay (w : pyval) : init_kwargs :=
  {| kw_learning_rate := None; kw_weight_decay := Some w; kw_beta_1 := None;
     kw_beta_2 := None; kw_epsilon := None; kw_amsgrad := None |}.

(** The state [build [kernel; bias]] leaves behind. *)
Definition built_engine (o : DiffGrad) : DiffGrad :=
  (build [kernel; bias] o).2.

(** A parameter of three rows, as an embedding table has them. *)
Definition table : TfVariable :=
  {| var_key := 2; name := "embedding/table:0"; value := [1; 1; 1] |}.

Definition table_engine : DiffGrad := (build [table] default_engine).2.

(** The default engine one dense step with gradient [[0; 1]] on [kernel]
    after [build [kernel; bias]]: the momentum, velocity and prev_gradient of
    [kernel] hold what that step stores, the step counter is 1. *)
Definition warm_engine : DiffGrad :=
  set_iterations 1
    (set_prev_gradients [[0; 1]; [0; 0]]
       (set_velocities [[1e-16; 0.001 + 1e-16]; [0; 0]]
          (set_momentums [[0; 0.1]; [0; 0]] (built_engine default_engine)))).

(** [DiffGrad(amsgrad=True)] one dense step with gradient [[0; 1]] on
    [kernel] after [build [kernel; bias]]: velocity_hat holds the velocity of
    that step. *)
Definition warm_amsgrad_engine : DiffGrad :=
  set_iterations 1
    (set_velocity_hats [[1e-16; 0.001 + 1e-16]; [0; 0]]
       (set_prev_gradients [[0; 1]; [0; 0]]
          (set_velocities [[1e-16; 0.001 + 1e-16]; [0; 0]]
             (set_momentums [[0; 0.1]; [0; 0]]
                (built_engine amsgrad_engine))))).

(** The default engine one dense step with gradient [[1; 1; 1]] on [table]
    after [build [table]]: every row has a positive velocity. *)
Definition warm_table_engine : DiffGrad :=
  set_iterations 1
    (set_prev_gradients [[1; 1; 1]]
       (set_velocities
          [[0.001 + 1e-16; 0.001 + 1e-16; 0.001 + 1e-16]]
          (set_momentums [[0.1; 0.1; 0.1]] table_engine))).

(** [exclude_from_weight_decay(var_names=["bias"])] before the build. *)
Definition bias_excluded_engine : DiffGrad :=
  built_engine
    (exclude_from_weight_decay None (Some ["bias"%string]) default_engine).2.

(** [exclude_from_weight_decay(var_list=[kernel])] before the build.  [bias]
    is a second variable of the shape and contents of [kernel]. *)
Definition kernel_excluded_engine : DiffGrad :=
  built_engine
    (exclude_from_weight_decay (Some [kernel]) None default_engine).2.

(** Two variables of one entry each, with equal contents. *)
Definition gain : TfVariable :=
  {| var_key := 3; name := "norm/gain:0"; value := [1] |}.

Definition offset : TfVariable :=
  {| var_key := 4; name := "norm/offset:0"; value := [1] |}.

(** [exclude_from_weight_decay(var_list=[gain])], then
    [build([gain, offset])]. *)
Definition gain_excluded_engine : DiffGrad :=
  (build [gain; offset]
     (exclude_from_weight_decay (Some [gain]) None default_engine).2).2.

(** The membership test passes over the element [e] of the list: [e] is
    another object than [x], and [e == x] is false without raising. *)
Definition passed_over (x e : TfVariable) : Prop :=
  var_key e <> var_key x /\ truth_of_equal (value e) (value x) = Ok false.

(** A variable is excluded from weight decay, in the specification's words:
    its identity is in the exclusion list, or some exclusion pattern is found
    in its name. *)
Definition excluded (re_search : string -> string -> bool) (o : DiffGrad)
    (x : TfVariable) : Prop :=
  var_key x ∈ (var_key <$> default [] (_exclude_from_weight_decay o)) \/
  exists pat, pat ∈ default [] (_exclude_from_weight_decay_names o) /\
              re_search pat (name x) = true.

(** The hyperparameters for which the arithmetic of a step stays within the
    real numbers at every iteration: both bias corrections are defined, and a
    velocity that is not negative becomes positive. *)
Definition hyperparameters_in_range (o : DiffGrad) : Prop :=
  0 <= beta_1 o < 1 /\ 0 <= beta_2 o <= 1 /\ 0 < epsilon o.

(** A reference denotes a tensor in the state. *)
Definition valid (r : ref) (s : St) : Prop := is_Some (deref r s).

(** A computation keeps the relation [R] between the state it starts from
    and the state it leaves, whether it returns or raises. *)
Definition keeps (R : St -> St -> Prop) {A} (c : M St A) : Prop :=
  forall s, R s (c s).2.

Definition is_hat (r : ref) : bool :=
  match r with
  | SlotVhat _ => true
  | _ => false
  end.

Definition is_prev_gradient (r : ref) : bool :=
  match r with
  | SlotP _ => true
  | _ => false
  end.

(** [vhat_le] on the states of [update_step]. *)
Definition hats_grow (s s' : St) : Prop := vhat_le s.1 s'.1.

(** Outside the rows listed in [indices], every prev_gradient tensor is the
    same in [s'] as in [s]. *)
Definition untouched_rows_kept (indices : list nat) (s s' : St) : Prop :=
  forall i j, j ∉ indices -> entry (SlotP i) j s' = entry (SlotP i) j s.

(** ** Vocabulary of the further properties *)

(** The attributes of the engine that are not state tensors are the same in
    [o'] as in [o]. *)
Definition same_settings (o o' : DiffGrad) : Prop :=
  learning_rate o' = learning_rate o /\
  weight_decay o' = weight_decay o /\
  beta_1 o' = beta_1 o /\
  beta_2 o' = beta_2 o /\
  epsilon o' = epsilon o /\
  amsgrad o' = amsgrad o /\
  iterations o' = iterations o /\
  _built o' = _built o /\
  _index_dict o' = _index_dict o /\
  _exclude_from_weight_decay o' = _exclude_from_weight_decay o /\
  _exclude_from_weight_decay_names o' = _exclude_from_weight_decay_names o.

(** The state tensors of slot [j]. *)
Definition slot_tensors (j : nat) (o : DiffGrad)
    : option (list R) * option (list R) * option (list R) * option (list R) :=
  (_momentums o !! j, _velocities o !! j, _prev_gradients o !! j,
   _velocity_hats o ≫= fun l => l !! j).

(** From [s] to [s'] nothing changed but the tensors of slot [index] and the
    contents of the model variable. *)
Definition only_slot_changed (index : nat) (s s' : St) : Prop :=
  same_settings s.1 s'.1 /\
  var_key s'.2 = var_key s.2 /\
  name s'.2 = name s.2 /\
  forall j, j <> index -> slot_tensors j s'.1 = slot_tensors j s.1.

(** A reference that [update_step] may write when it works on slot
    [index]. *)
Definition in_slot (index : nat) (r : ref) : bool :=
  match r with
  | VarRef => true
  | SlotM j | SlotV j | SlotP j | SlotVhat j => bool_decide (j = index)
  end.

#[global] Instance ref_eq_dec : EqDecision ref.
Proof. solve_decision. Defined.

(** Every tensor reachable from the state has in [s'] the shape it has in
    [s]. *)
Definition shapes_kept (s s' : St) : Prop :=
  forall r, length <$> deref r s' = length <$> deref r s.

(** [DiffGrad(weight_decay=0)] built on [kernel] and [bias]. *)
Definition no_decay_engine : DiffGrad :=
  (build [kernel; bias]
     {| learning_rate := 0.001; weight_decay := PyFloat 0;
        beta_1 := 0.9; beta_2 := 0.999; epsilon := 1e-16; amsgrad := false;
        iterations := 0%nat; _built := None; _index_dict := ∅;
        _momentums := []; _velocities := []; _prev_gradients := [];
        _velocity_hats := None;
        _exclude_from_weight_decay := None;
        _exclude_from_weight_decay_names := None |}).2.

(** ** [get_config] *)

(** A value of the configuration dictionary: what [pyval] holds, or a
    Boolean. *)
Inductive config_value : Type :=
  | ConfigValue (v : pyval)
  | ConfigBool (b : bool).

(** [super_config] is the dictionary [super().get_config()] returns.  The
    learning rate is a constant in this embedding, which
    [_serialize_hyperparameter] serializes as its value.  [config.update]
    assigns the six entries in the order of the literal. *)
Definition get_config (super_config : gmap string config_value)
    (self : DiffGrad) : gmap string config_value :=
  <["amsgrad" := ConfigBool (amsgrad self)]>
    (<["epsilon" := ConfigValue (PyFloat (epsilon self))]>
       (<["beta_2" := ConfigValue (PyFloat (beta_2 self))]>
          (<["beta_1" := ConfigValue (PyFloat (beta_1 self))]>
             (<["weight_decay" := ConfigValue (weight_decay self)]>
                (<["learning_rate" :=
                     ConfigValue (PyFloat (learning_rate self))]>
                   super_config))))).

(** The keys [get_config] writes. *)
Definition own_keys : list string :=
  ["learning_rate"; "weight_decay"; "beta_1"; "beta_2"; "epsilon";
   "amsgrad"]%string.

(** * Properties *)

(** ** Running monadic code *)

Lemma run_bind {S A B} (c : M S A) (k : A -> M S B) s a s' :
  c s = (Ok a, s') -> (c ≫= k) s = k a s'.
Proof. intros H. unfold mbind, M_mbind, M_bind. now rewrite H. Qed.

Lemma run_bind_raise {S A B} (c : M S A) (k : A -> M S B) s e s' :
  c s = (Raise e, s') -> (c ≫= k) s = (Raise e, s').
Proof. intros H. unfold mbind, M_mbind, M_bind. now rewrite H. Qed.

Lemma run_bind_lift_raise {S A B} (e : exc) (k : A -> M S B) s :
  (lift (Raise e) ≫= k) s = (Raise e, s).
Proof. reflexivity. Qed.

Lemma run_bind_assoc {S A B C} (c : M S A) (f : A -> M S B)
    (g : B -> M S C) s :
  ((c ≫= f) ≫= g) s = (c ≫= (fun a => f a ≫= g)) s.
Proof.
  unfold mbind, M_mbind, M_bind. destruct (c s) as [[a|e] s']; reflexivity.
Qed.

(** ** References: reading after writing *)

Lemma is_Some_lookup_insert {A} (l : list A) (i j : nat) (x : A) :
  is_Some (l !! i) -> is_Some (<[j := x]> l !! i).
Proof. rewrite !lookup_lt_is_Some, length_insert. done. Qed.

Lemma valid_write r r' t s : valid r s -> valid r (write r' t s).
Proof.
  unfold valid.
  destruct r'; simpl; try destruct (_velocity_hats s.1) as [l|] eqn:E;
    destruct r; simpl; rewrite ?E; simpl; auto using is_Some_lookup_insert.
Qed.

Lemma deref_write_eq r t s : valid r s -> deref r (write r t s) = Some t.
Proof.
  unfold valid. destruct r; simpl; try done.
  1-3: intros H; apply list_lookup_insert_eq, lookup_lt_is_Some; done.
  destruct (_velocity_hats s.1) as [l|] eqn:E; simpl.
  - intros H; apply list_lookup_insert_eq, lookup_lt_is_Some; done.
  - intros [? ?]; done.
Qed.

Lemma deref_write_ne r r' t s :
  r <> r' -> deref r' (write r t s) = deref r' s.
Proof.
  intros Hne.
  destruct r; simpl; try destruct (_velocity_hats s.1) as [l|] eqn:E;
    destruct r'; simpl; rewrite ?E; simpl; try done;
    apply list_lookup_insert_ne; congruence.
Qed.

(** ** The primitives, when they return *)

Lemma read_ok r s t : deref r s = Some t -> read r s = (Ok t, s).
Proof. intros H. unfold read. now rewrite H. Qed.

Lemma getitem_ok r s : valid r s -> getitem r s = (Ok r, s).
Proof. intros [t H]. unfold getitem. now rewrite H. Qed.

Lemma getitem_index_dict_ok key s index :
  _index_dict s.1 !! key = Some index ->
  getitem_index_dict key s = (Ok index, s).
Proof. intros H. unfold getitem_index_dict. now rewrite H. Qed.

Lemma assign_ok r x s t :
  deref r s = Some t -> length x = length t ->
  assign r x s = (Ok tt, write r x s).
Proof.
  intros H L. unfold assign. rewrite (run_bind _ _ _ _ _ (read_ok _ _ _ H)).
  rewrite decide_True by done. reflexivity.
Qed.

Lemma assign_add_ok r x s t :
  deref r s = Some t -> length x = length t ->
  assign_add r x s = (Ok tt, write r (zip_with Rplus t x) s).
Proof.
  intros H L. unfold assign_add.
  rewrite (run_bind _ _ _ _ _ (read_ok _ _ _ H)).
  rewrite decide_True by done. reflexivity.
Qed.

Lemma assign_sub_ok r x s t :
  deref r s = Some t -> length x = length t ->
  assign_sub r x s = (Ok tt, write r (zip_with Rminus t x) s).
Proof.
  intros H L. unfold assign_sub.
  rewrite (run_bind _ _ _ _ _ (read_ok _ _ _ H)).
  rewrite decide_True by done. reflexivity.
Qed.

Lemma scatter_add_ok r values indices s t t' :
  deref r s = Some t -> scatter Rplus t values indices = Ok t' ->
  scatter_add r values indices s = (Ok tt, write r t' s).
Proof.
  intros H E. unfold scatter_add.
  rewrite (run_bind _ _ _ _ _ (read_ok _ _ _ H)).
  unfold mbind, M_mbind, M_bind, lift. now rewrite E.
Qed.

Lemma scatter_update_ok r values indices s t t' :
  deref r s = Some t -> scatter (fun _ x => x) t values indices = Ok t' ->
  scatter_update r values indices s = (Ok tt, write r t' s).
Proof.
  intros H E. unfold scatter_update.
  rewrite (run_bind _ _ _ _ _ (read_ok _ _ _ H)).
  unfold mbind, M_mbind, M_bind, lift. now rewrite E.
Qed.

Lemma broadcast_same f a b :
  length a = length b -> broadcast f a b = Ok (zip_with f a b).
Proof. intros H. unfold broadcast. now rewrite decide_True. Qed.

(** ** Steps whose arithmetic stays within the real numbers *)

Lemma pow_below_one (b : R) (n : nat) : 0 <= b < 1 -> b ^ S n < 1.
Proof.
  intros [H0 H1]. induction n as [| n IH].
  - simpl. lra.
  - change (b ^ S (S n)) with (b * b ^ S n).
    assert (0 <= b ^ S n) by (apply pow_le; exact H0). nra.
Qed.

Lemma pow_at_most_one (b : R) (n : nat) : 0 <= b <= 1 -> b ^ n <= 1.
Proof.
  intros [H0 H1]. induction n as [| n IH].
  - simpl. lra.
  - change (b ^ S n) with (b * b ^ n).
    assert (0 <= b ^ n) by (apply pow_le; exact H0). nra.
Qed.

Lemma bias_corrections_defined o :
  hyperparameters_in_range o ->
  1 - beta_1 o ^ S (iterations o) <> 0 /\
  0 <= 1 - beta_2 o ^ S (iterations o).
Proof.
  intros (H1 & H2 & _).
  pose proof (pow_below_one (beta_1 o) (iterations o) H1).
  pose proof (pow_at_most_one (beta_2 o) (S (iterations o)) H2).
  split; lra.
Qed.

Lemma real_update_ok (b1p b2p : R) (v : list R) :
  1 - b1p <> 0 -> 0 <= 1 - b2p -> Forall (Rlt 0) v ->
  real_update b1p b2p v = Ok tt.
Proof.
  intros H1 H2 Hv. unfold real_update.
  rewrite decide_True; [reflexivity |].
  split; [exact Hv | right; split; assumption].
Qed.

Lemma real_update_zero (b1p b2p : R) (v : list R) (j : nat) (vj : R) :
  v !! j = Some vj -> vj <= 0 -> real_update b1p b2p v = Raise NotANumber.
Proof.
  intros Hj Hle. unfold real_update. rewrite decide_False; [reflexivity |].
  intros (Hv & _). pose proof (Forall_lookup_1 _ _ _ _ Hv Hj). lra.
Qed.

Lemma new_velocity_ge_epsilon (vj gj b2 eps : R) :
  0 <= vj -> 0 <= b2 <= 1 -> eps <= vj + ((gj * gj - vj) * (1 - b2) + eps).
Proof. intros Hv [H0 H1]. nra. Qed.

(** The velocity a dense step stores is positive when the old one is not
    negative. *)
Lemma dense_velocity_positive (b2 eps : R) (v g : list R) :
  0 <= b2 <= 1 -> 0 < eps -> Forall (Rle 0) v ->
  Forall (Rlt 0)
    (zip_with Rplus v
       ((fun d => d * (1 - b2) + eps)
          <$> zip_with Rminus ((fun gi => gi * gi) <$> g) v)).
Proof.
  intros Hb He Hv. apply Forall_lookup. intros j y Hy.
  rewrite lookup_zip_with, list_lookup_fmap, lookup_zip_with,
    list_lookup_fmap in Hy.
  destruct (v !! j) as [vj |] eqn:Evj; [| discriminate].
  destruct (g !! j) as [gj |]; [| discriminate].
  simpl in Hy. injection Hy as <-.
  pose proof (Forall_lookup_1 _ _ _ _ Hv Evj) as H0. simpl in H0.
  assert (0 <= gj * gj) by nra. nra.
Qed.

Lemma maximum_positive (vh t : list R) :
  Forall (Rlt 0) t -> Forall (Rlt 0) (zip_with Rmax vh t).
Proof.
  intros Ht. apply Forall_lookup. intros j y Hy.
  rewrite lookup_zip_with in Hy.
  destruct (vh !! j) as [a |]; [| discriminate].
  destruct (t !! j) as [b |] eqn:Eb; [| discriminate].
  simpl in Hy. injection Hy as <-.
  pose proof (Forall_lookup_1 _ _ _ _ Ht Eb) as H0. simpl in H0.
  pose proof (Rmax_r a b). lra.
Qed.

(** ** Symbolic execution of [update_step] *)

Ltac len :=
  cbn [fst snd];
  repeat first [ rewrite length_zip_with | rewrite length_fmap
               | rewrite length_insert ];
  lia.

Ltac solve_valid := repeat apply valid_write; eassumption.

Ltac push_deref :=
  repeat first [ rewrite deref_write_eq by solve_valid
               | rewrite deref_write_ne by discriminate ].

Ltac solve_deref := push_deref; first [ eassumption | reflexivity ].

Ltac run_prim :=
  lazymatch goal with
  | |- gets _ _ = _ => reflexivity
  | |- mret _ _ = _ => reflexivity
  | |- cast_float _ _ = _ => reflexivity
  | |- getitem_index_dict _ _ = _ => apply getitem_index_dict_ok; eassumption
  | |- getitem _ _ = _ => apply getitem_ok; solve_valid
  | |- read _ _ = _ => apply read_ok; solve_deref
  | |- assign_add _ _ _ = _ => eapply assign_add_ok; [solve_deref | len]
  | |- assign_sub _ _ _ = _ => eapply assign_sub_ok; [solve_deref | len]
  | |- assign _ _ _ = _ => eapply assign_ok; [solve_deref | len]
  | |- lift (broadcast _ _ _) _ = _ =>
      rewrite broadcast_same by len; reflexivity
  | |- lift (dense_dfc _ _) _ = _ =>
      unfold dense_dfc; rewrite broadcast_same by len; reflexivity
  | |- lift (_use_weight_decay _ _ _) _ = _ =>
      match goal with
      | H : _use_weight_decay _ _ _ = Ok _ |- _ => rewrite H; reflexivity
      end
  | |- lift (real_update _ _ _) _ = _ =>
      rewrite real_update_ok by eassumption; reflexivity
  end.

Ltac step := rewrite ?run_bind_assoc; erewrite run_bind by run_prim; cbv beta.

Ltac look :=
  repeat first [ rewrite lookup_zip_with | rewrite list_lookup_fmap ];
  repeat match goal with
         | H : ?l !! ?j = Some _ |- context [?l !! ?j] => rewrite H
         end;
  cbn [mbind option_bind fmap option_fmap option_map].

Ltac finish_entries :=
  eexists; split; [eapply assign_sub_ok; [solve_deref | len] |];
  intros j mj vj pj gj xj vhj Hmj Hvj Hpj Hgj Hxj Hvhj;
  unfold entry, alpha_at; cbn [fst snd];
  repeat split; intros; try discriminate;
  try specialize (Hvhj eq_refl);
  push_deref;
  repeat match goal with
         | H : deref ?r ?s = Some _ |- context [deref ?r ?s] => rewrite H
         end;
  cbn [mbind option_bind]; look; cbn [fst snd]; look; reflexivity.

Section DenseStep.

Variable re_search : string -> string -> bool.

(** The dense branch on a registered variable, when the membership test of
    the weight-decay stage returns [use] and the arithmetic stays within the
    real numbers: the step returns, and every entry of the slot and of the
    variable is the one the arithmetic of the branch yields, written with the
    bracketing of the code. *)
Lemma update_step_dense_entries o x g index m v p w vh use :
  registered o x index m v p ->
  (amsgrad o = true -> registered_hat o x index vh) ->
  length g = length (value x) ->
  weight_decay o = PyFloat w ->
  _use_weight_decay re_search o x = Ok use ->
  hyperparameters_in_range o ->
  Forall (Rle 0) v ->
  exists s', update_step re_search (Dense g) (o, x) = (Ok tt, s') /\
    forall j mj vj pj gj xj vhj,
      m !! j = Some mj -> v !! j = Some vj -> p !! j = Some pj ->
      g !! j = Some gj -> value x !! j = Some xj ->
      (amsgrad o = true -> vh !! j = Some vhj) ->
      let m' := mj + (gj - mj) * (1 - beta_1 o) in
      let v' := vj + ((gj * gj - vj) * (1 - beta_2 o) + epsilon o) in
      let v_used := if amsgrad o then Rmax vhj v' else v' in
      let x_wd := if use then xj - xj * w * learning_rate o else xj in
      entry (SlotM index) j s' = Some m' /\
      entry (SlotV index) j s' = Some v' /\
      entry (SlotP index) j s' = Some gj /\
      (amsgrad o = true -> entry (SlotVhat index) j s' = Some v_used) /\
      entry VarRef j s' =
        Some (x_wd - m' * alpha_at o / (friction (pj - gj) * sqrt v_used)).
Proof.
  intros (Hi & Hm & Hv & Hp & Lm & Lv & Lp) Hh Lg Hw Hu Hrange Hv0.
  change (deref (SlotM index) (o, x) = Some m) in Hm.
  change (deref (SlotV index) (o, x) = Some v) in Hv.
  change (deref (SlotP index) (o, x) = Some p) in Hp.
  assert (Vm : valid (SlotM index) (o, x)) by (eexists; eauto).
  assert (Vv : valid (SlotV index) (o, x)) by (eexists; eauto).
  assert (Vp : valid (SlotP index) (o, x)) by (eexists; eauto).
  assert (Hx : deref VarRef (o, x) = Some (value x)) by reflexivity.
  assert (Vx : valid VarRef (o, x)) by (eexists; eauto).
  destruct (bias_corrections_defined o Hrange) as [Hb1 Hb2].
  destruct Hrange as (_ & Hr2 & Heps).
  pose proof (dense_velocity_positive (beta_2 o) (epsilon o) v g Hr2 Heps Hv0)
    as Hpos.
  pose proof (maximum_positive vh _ Hpos) as Hpos'.
  unfold update_step.
  do 2 step. cbn [fst snd]. do 5 step.
  destruct (amsgrad o) eqn:Ea.
  - destruct (Hh eq_refl) as [Hvh Lvh].
    change (deref (SlotVhat index) (o, x) = Some vh) in Hvh.
    assert (Vvh : valid (SlotVhat index) (o, x)) by (eexists; eauto).
    destruct use.
    + rewrite Hw. repeat step. finish_entries.
    + repeat step. finish_entries.
  - destruct use.
    + rewrite Hw. repeat step. finish_entries.
    + repeat step. finish_entries.
Qed.

End DenseStep.

(** ** The example objects *)

Lemma init_default : __init__ no_kwargs = Ok default_engine.
Proof. reflexivity. Qed.

Lemma init_amsgrad : __init__ amsgrad_kwargs = Ok amsgrad_engine.
Proof. reflexivity. Qed.

Lemma built_default_registered :
  registered (built_engine default_engine) kernel 0 [0; 0] [0; 0] [0; 0].
Proof. repeat split; reflexivity. Qed.

Lemma built_amsgrad_registered :
  registered (built_engine amsgrad_engine) kernel 0 [0; 0] [0; 0] [0; 0].
Proof. repeat split; reflexivity. Qed.

Lemma built_amsgrad_registered_hat :
  registered_hat (built_engine amsgrad_engine) kernel 0 [0; 0].
Proof. repeat split; reflexivity. Qed.

Lemma bias_excluded_registered :
  registered bias_excluded_engine bias 1 [0; 0] [0; 0] [0; 0].
Proof. repeat split; reflexivity. Qed.

Lemma default_hyperparameters_in_range o :
  beta_1 o = 0.9 -> beta_2 o = 0.999 -> epsilon o = 1e-16 ->
  hyperparameters_in_range o.
Proof. intros E1 E2 E3. unfold hyperparameters_in_range. lra. Qed.

Lemma built_default_in_range :
  hyperparameters_in_range (built_engine default_engine).
Proof. apply default_hyperparameters_in_range; reflexivity. Qed.

Lemma built_amsgrad_in_range :
  hyperparameters_in_range (built_engine amsgrad_engine).
Proof. apply default_hyperparameters_in_range; reflexivity. Qed.

(** ** The dense update rule *)

(** C2. For a dense gradient [g] at iteration [t], on a variable registered
    with state [m], [v], [p] (and [vh] under AMSGrad), [update_step] returns
    and, entry by entry: momentum becomes [m + (g - m) * (1 - beta_1)];
    velocity becomes [v + (g^2 - v) * (1 - beta_2) + epsilon]; prev_gradient
    becomes [g]; and the parameter, after the weight-decay stage, is
    decremented by [new_momentum * alpha / (dfc * sqrt velocity_used)] with
    [alpha = learning_rate * sqrt (1 - beta_2^(t+1)) / (1 - beta_1^(t+1))] and
    [dfc = 1 + exp (- |p - g|)] taken from the [p] held before the step.
    This holds of every step that gets past the membership test of the
    weight-decay stage ([use] is what the test returns) and whose arithmetic
    is defined: [beta_1] in [[0, 1)], [beta_2] in [[0, 1]], [epsilon > 0] and
    no negative entry in the velocity.  Arithmetic is exact (real
    numbers). *)
Theorem update_step_dense_formulas (re_search : string -> string -> bool)
    o x g index m v p w vh use :
  registered o x index m v p ->
  (amsgrad o = true -> registered_hat o x index vh) ->
  length g = length (value x) ->
  weight_decay o = PyFloat w ->
  _use_weight_decay re_search o x = Ok use ->
  hyperparameters_in_range o ->
  Forall (Rle 0) v ->
  exists s', update_step re_search (Dense g) (o, x) = (Ok tt, s') /\
    forall j mj vj pj gj xj vhj,
      m !! j = Some mj -> v !! j = Some vj -> p !! j = Some pj ->
      g !! j = Some gj -> value x !! j = Some xj ->
      (amsgrad o = true -> vh !! j = Some vhj) ->
      let t := iterations o in
      let alpha :=
        learning_rate o * sqrt (1 - beta_2 o ^ (t + 1))
          / (1 - beta_1 o ^ (t + 1)) in
      let new_momentum := mj + (gj - mj) * (1 - beta_1 o) in
      let new_velocity := vj + (gj ^ 2 - vj) * (1 - beta_2 o) + epsilon o in
      let velocity_used :=
        if amsgrad o then Rmax vhj new_velocity else new_velocity in
      let dfc := 1 + exp (- Rabs (pj - gj)) in
      let decayed := if use then xj - xj * w * learning_rate o else xj in
      entry (SlotM index) j s' = Some new_momentum /\
      entry (SlotV index) j s' = Some new_velocity /\
      entry (SlotP index) j s' = Some gj /\
      0 < dfc * sqrt velocity_used /\
      entry VarRef j s' =
        Some (decayed - new_momentum * alpha / (dfc * sqrt velocity_used)).
Proof.
  intros Hreg Hhat Lg Hw Hu Hrange Hv0.
  destruct (update_step_dense_entries re_search o x g index m v p w vh use
              Hreg Hhat Lg Hw Hu Hrange Hv0) as (s' & Hrun & Hent).
  exists s'. split; [exact Hrun |].
  intros j mj vj pj gj xj vhj Hmj Hvj Hpj Hgj Hxj Hvhj.
  destruct (Hent j mj vj pj gj xj vhj Hmj Hvj Hpj Hgj Hxj Hvhj)
    as (Em & Ev & Ep & _ & Ex).
  cbv zeta.
  replace (iterations o + 1)%nat with (S (iterations o)) by lia.
  replace (vj + (gj ^ 2 - vj) * (1 - beta_2 o) + epsilon o)
    with (vj + ((gj * gj - vj) * (1 - beta_2 o) + epsilon o)) by ring.
  repeat (split; [assumption |]). split; [| exact Ex].
  destruct Hrange as (_ & Hr2 & Heps).
  pose proof (Forall_lookup_1 _ _ _ _ Hv0 Hvj) as H0. simpl in H0.
  pose proof (new_velocity_ge_epsilon vj gj (beta_2 o) (epsilon o) H0 Hr2)
    as Hge.
  apply Rmult_lt_0_compat.
  - pose proof (exp_pos (- Rabs (pj - gj))). lra.
  - apply sqrt_lt_R0. destruct (amsgrad o); [| lra].
    pose proof (Rmax_r vhj
                  (vj + ((gj * gj - vj) * (1 - beta_2 o) + epsilon o))).
    lra.
Qed.

Lemma update_step_dense_formulas_witness :
  exists s',
    update_step literal_search (Dense [0.1; 0.2])
      (built_engine default_engine, kernel) = (Ok tt, s') /\
    forall j mj vj pj gj xj vhj,
      [0; 0] !! j = Some mj -> [0; 0] !! j = Some vj ->
      [0; 0] !! j = Some pj ->
      [0.1; 0.2] !! j = Some gj -> value kernel !! j = Some xj ->
      (amsgrad (built_engine default_engine) = true ->
       @nil R !! j = Some vhj) ->
      let o := built_engine default_engine in
      let t := iterations o in
      let alpha :=
        learning_rate o * sqrt (1 - beta_2 o ^ (t + 1))
          / (1 - beta_1 o ^ (t + 1)) in
      let new_momentum := mj + (gj - mj) * (1 - beta_1 o) in
      let new_velocity := vj + (gj ^ 2 - vj) * (1 - beta_2 o) + epsilon o in
      let velocity_used :=
        if amsgrad o then Rmax vhj new_velocity else new_velocity in
      let dfc := 1 + exp (- Rabs (pj - gj)) in
      let decayed := if true then xj - xj * 0.004 * learning_rate o else xj in
      entry (SlotM 0) j s' = Some new_momentum /\
      entry (SlotV 0) j s' = Some new_velocity /\
      entry (SlotP 0) j s' = Some gj /\
      0 < dfc * sqrt velocity_used /\
      entry VarRef j s' =
        Some (decayed - new_momentum * alpha / (dfc * sqrt velocity_used)).
Proof.
  apply (update_step_dense_formulas literal_search
           (built_engine default_engine) kernel [0.1; 0.2] 0
           [0; 0] [0; 0] [0; 0] 0.004 [] true).
  - exact built_default_registered.
  - intros H. discriminate H.
  - reflexivity.
  - reflexivity.
  - reflexivity.
  - exact built_default_in_range.
  - repeat constructor; lra.
Defined.

(** ** The friction coefficient *)

Lemma friction_zero : friction 0 = 2.
Proof. unfold friction. rewrite Rabs_R0, Ropp_0, exp_0. lra. Qed.

Lemma friction_gt_1 d : 1 < friction d.
Proof. unfold friction. pose proof (exp_pos (- Rabs d)). lra. Qed.

Lemma friction_le_2 d : friction d <= 2.
Proof.
  unfold friction. pose proof (Rabs_pos d) as Hd.
  destruct (Req_dec (Rabs d) 0) as [E | N].
  - rewrite E, Ropp_0, exp_0. lra.
  - assert (exp (- Rabs d) < exp 0) by (apply exp_increasing; lra).
    rewrite exp_0 in *. lra.
Qed.

Lemma friction_lt_2 d : d <> 0 -> friction d < 2.
Proof.
  intros N. unfold friction. pose proof (Rabs_pos_lt d N) as Hd.
  assert (exp (- Rabs d) < exp 0) by (apply exp_increasing; lra).
  rewrite exp_0 in *. lra.
Qed.

Lemma friction_decreasing d d' :
  Rabs d < Rabs d' -> friction d' < friction d.
Proof.
  intros H. unfold friction.
  assert (exp (- Rabs d') < exp (- Rabs d)) by (apply exp_increasing; lra).
  lra.
Qed.

(** C3, counterexample.  At a gradient difference of zero (the gradient of
    this step equals the previous one) the friction coefficient is exactly 2,
    so it is not below 2. *)
Lemma friction_not_below_two :
  friction (0 - 0) = 2 /\ ~ (1 <= friction (0 - 0) < 2).
Proof.
  replace (0 - 0) with 0 by lra. rewrite friction_zero.
  split; [reflexivity | lra].
Qed.

(** C3, amended.  For every real gradient difference [d], the friction
    coefficient [1 + exp (- |d|)] lies in the range from 1 to 2 with 2
    included: it is above 1 and at most 2, it is 2 exactly at [d = 0], it
    decreases as [|d|] grows, it comes as close to 1 as wanted for [|d|]
    large and as close to 2 as wanted for [|d|] small. *)
Theorem friction_range :
  (forall d, 1 <= friction d <= 2) /\
  (forall d, 1 < friction d) /\
  (forall d, friction d = 2 <-> d = 0) /\
  (forall d d', Rabs d < Rabs d' -> friction d' < friction d) /\
  (forall eps, 0 < eps ->
     exists D, forall d, D < Rabs d -> friction d < 1 + eps) /\
  (forall eps, 0 < eps ->
     exists delta, 0 < delta /\
       forall d, Rabs d < delta -> 2 - eps < friction d).
Proof.
  repeat split.
  - pose proof (friction_gt_1 d). lra.
  - apply friction_le_2.
  - apply friction_gt_1.
  - intros E. destruct (Req_dec d 0) as [Z | N]; [exact Z |].
    pose proof (friction_lt_2 d N). lra.
  - intros ->. apply friction_zero.
  - apply friction_decreasing.
  - intros eps Heps. exists (- ln eps). intros d Hd. unfold friction.
    assert (exp (- Rabs d) < exp (ln eps)) by (apply exp_increasing; lra).
    rewrite exp_ln in * by assumption. lra.
  - intros eps Heps. exists eps. split; [assumption |].
    intros d Hd. unfold friction.
    pose proof (exp_ineq1_le (- Rabs d)). lra.
Qed.

(** ** Construction *)

(** C4, counterexample.  Constructing the engine with the [weight_decay]
    argument left out is not an error: the signature's default 0.004 is
    used.  A value that is not a number is accepted as well. *)
Lemma init_without_weight_decay_succeeds :
  __init__ no_kwargs = Ok default_engine /\
  weight_decay default_engine = PyFloat 0.004 /\
  exists o, __init__ (with_weight_decay (PyStr "none")) = Ok o /\
            weight_decay o = PyStr "none".
Proof. repeat split. eexists. split; reflexivity. Qed.

(** C4, amended.  Constructing the engine with [weight_decay] given as null
    ([None]) is a fatal configuration error ([ValueError]) raised by the
    constructor itself, before any build; it is the only error the
    constructor raises.  An argument that is left out is replaced by the
    default 0.004, and any value other than null is accepted as it is; the
    constructed engine is not built. *)
Theorem init_raises_iff_weight_decay_null (kw : init_kwargs) :
  (__init__ kw = Raise ValueError <-> kw_weight_decay kw = Some PyNone) /\
  (forall e, __init__ kw = Raise e -> e = ValueError) /\
  (kw_weight_decay kw = None ->
   exists o, __init__ kw = Ok o /\ weight_decay o = PyFloat 0.004) /\
  (forall w, kw_weight_decay kw = Some w -> w <> PyNone ->
   exists o, __init__ kw = Ok o /\ weight_decay o = w) /\
  (forall o, __init__ kw = Ok o ->
   is_built o = false /\ _momentums o = [] /\ _velocities o = [] /\
   _prev_gradients o = [] /\ _velocity_hats o = None).
Proof.
  unfold __init__. destruct kw as [lr w b1 b2 eps ams].
  destruct w as [[| r | str] |];
    cbn [kw_weight_decay default from_option Datatypes.id weight_decay];
    repeat match goal with
           | |- _ /\ _ => split
           | |- _ <-> _ => split
           | |- forall _, _ => intro
           end;
    try congruence;
    try (eexists; split; [reflexivity | cbn [weight_decay]; congruence]);
    try match goal with
        | H : Ok _ = Ok _ |- _ => injection H as <-; reflexivity
        end.
Qed.

Lemma init_raises_iff_weight_decay_null_witness :
  __init__ (with_weight_decay PyNone) = Raise ValueError.
Proof.
  apply (proj1 (init_raises_iff_weight_decay_null (with_weight_decay PyNone))).
  reflexivity.
Defined.

(** ** [build] *)

Lemma build_when_built vl o : is_built o = true -> build vl o = (Ok tt, o).
Proof.
  intros H. unfold build, base_build.
  unfold mbind, M_mbind, M_bind, get. rewrite H. cbn. rewrite H.
  reflexivity.
Qed.

Lemma build_slots_loop vl o :
  for_ vl (fun var =>
    modify (fun o =>
      set_momentums (_momentums o ++ [add_variable_from_reference var]) o);;
    modify (fun o =>
      set_velocities (_velocities o ++ [add_variable_from_reference var]) o);;
    modify (fun o =>
      set_prev_gradients
        (_prev_gradients o ++ [add_variable_from_reference var]) o)) o
  = (Ok tt,
     set_prev_gradients
       (_prev_gradients o ++ (add_variable_from_reference <$> vl))
       (set_velocities
          (_velocities o ++ (add_variable_from_reference <$> vl))
          (set_momentums
             (_momentums o ++ (add_variable_from_reference <$> vl)) o))).
Proof.
  revert o. induction vl as [| var vl IH]; intros o.
  - destruct o. cbn. rewrite !app_nil_r. reflexivity.
  - cbn [for_]. unfold mbind at 1, M_mbind at 1, M_bind at 1.
    unfold mbind, M_mbind, M_bind, modify. rewrite IH.
    destruct o. cbn. rewrite <- !app_assoc. reflexivity.
Qed.

Lemma build_hats_loop_from vl o acc :
  for_ vl (fun var =>
    modify (fun o =>
      set_velocity_hats
        (default [] (_velocity_hats o) ++ [add_variable_from_reference var])
        o)) (set_velocity_hats acc o)
  = (Ok tt,
     set_velocity_hats (acc ++ (add_variable_from_reference <$> vl)) o).
Proof.
  revert o acc. induction vl as [| var vl IH]; intros o acc.
  - destruct o. cbn. rewrite app_nil_r. reflexivity.
  - cbn [for_]. unfold mbind at 1, M_mbind at 1, M_bind at 1.
    unfold modify at 1.
    replace (set_velocity_hats _ (set_velocity_hats acc o))
      with (set_velocity_hats (acc ++ [add_variable_from_reference var]) o)
      by (destruct o; reflexivity).
    rewrite IH. rewrite <- app_assoc. reflexivity.
Qed.

Lemma build_hats_loop vl o :
  for_ vl (fun var =>
    modify (fun o =>
      set_velocity_hats
        (default [] (_velocity_hats o) ++ [add_variable_from_reference var])
        o)) (set_velocity_hats [] o)
  = (Ok tt, set_velocity_hats (add_variable_from_reference <$> vl) o).
Proof. exact (build_hats_loop_from vl o []). Qed.

(** What the first [build] leaves behind: the index of every variable and,
    per variable, zero tensors of its shape. *)
Lemma build_fresh vl o :
  is_built o = false ->
  build vl o =
    (Ok tt,
     let zs := add_variable_from_reference <$> vl in
     let o1 :=
       set_prev_gradients zs
         (set_velocities zs
            (set_momentums zs
               (set_built true
                  (set_index_dict (build_index_dict vl 0 ∅) o)))) in
     if amsgrad o then set_velocity_hats zs o1 else o1).
Proof.
  intros H.
  assert (Hb : base_build vl o
               = (Ok tt, set_index_dict (build_index_dict vl 0 ∅) o)).
  { unfold base_build. erewrite run_bind by reflexivity. now rewrite H. }
  unfold build. rewrite (run_bind _ _ _ _ _ Hb).
  erewrite run_bind by reflexivity. cbv beta.
  replace (is_built (set_index_dict (build_index_dict vl 0 ∅) o))
    with false by (symmetry; exact H).
  do 4 (erewrite run_bind by reflexivity).
  erewrite run_bind by apply build_slots_loop.
  replace (amsgrad (set_index_dict (build_index_dict vl 0 ∅) o))
    with (amsgrad o) by reflexivity.
  destruct (amsgrad o) eqn:Ea.
  - erewrite run_bind by reflexivity.
    rewrite build_hats_loop. destruct o; reflexivity.
  - destruct o; reflexivity.
Qed.

Lemma build_returns_built vl o :
  (build vl o).1 = Ok tt /\ is_built (build vl o).2 = true.
Proof.
  destruct (is_built o) eqn:H.
  - rewrite (build_when_built vl o H). split; [reflexivity | exact H].
  - rewrite (build_fresh vl o H). cbv zeta.
    destruct (amsgrad o); split; reflexivity.
Qed.

Lemma builds_when_built vls o :
  is_built o = true -> for_ vls build o = (Ok tt, o).
Proof.
  intros H. induction vls as [| vl vls IH]; [reflexivity |].
  cbn [for_]. rewrite (run_bind _ _ _ _ _ (build_when_built vl o H)).
  exact IH.
Qed.

(** C7. [build] is idempotent: the first call returns, and a second call and
    any number of later calls, with the same or any other parameter lists,
    return without an error and leave the whole state of the engine, hence
    every momentum, velocity, prev_gradient and velocity_hat tensor, as the
    first call left it. *)
Theorem build_idempotent (vl vl' : list TfVariable)
    (vls : list (list TfVariable)) (o : DiffGrad) :
  (build vl o).1 = Ok tt /\
  build vl (build vl o).2 = (Ok tt, (build vl o).2) /\
  build vl' (build vl o).2 = (Ok tt, (build vl o).2) /\
  for_ vls build (build vl o).2 = (Ok tt, (build vl o).2).
Proof.
  destruct (build_returns_built vl o) as [Hr Hb].
  repeat split.
  - exact Hr.
  - exact (build_when_built vl _ Hb).
  - exact (build_when_built vl' _ Hb).
  - exact (builds_when_built vls _ Hb).
Qed.

(** ** [exclude_from_weight_decay] *)

Lemma exclude_when_built vl vn o :
  is_built o = true ->
  exclude_from_weight_decay vl vn o = (Raise ValueError, o).
Proof.
  intros H. unfold exclude_from_weight_decay.
  unfold mbind, M_mbind, M_bind, get. now rewrite H.
Qed.

Lemma exclude_when_not_built vl vn o :
  is_built o = false ->
  exclude_from_weight_decay vl vn o =
    (Ok tt,
     set_exclude_from_weight_decay_names (or_empty vn)
       (set_exclude_from_weight_decay (or_empty vl) o)).
Proof.
  intros H. unfold exclude_from_weight_decay.
  unfold mbind, M_mbind, M_bind, get. now rewrite H.
Qed.

(** C8. Calling [exclude_from_weight_decay] after [build] has run raises
    [ValueError] and leaves the engine, in particular both exclusion sets,
    as it was; the same holds in every state whose built flag is set. *)
Theorem exclude_after_build_raises (vl0 : list TfVariable) (o : DiffGrad)
    (var_list : option (list TfVariable)) (var_names : option (list string)) :
  exclude_from_weight_decay var_list var_names (build vl0 o).2
    = (Raise ValueError, (build vl0 o).2) /\
  (forall o', is_built o' = true ->
     exclude_from_weight_decay var_list var_names o'
       = (Raise ValueError, o')).
Proof.
  split.
  - apply exclude_when_built, build_returns_built.
  - intros o' H. exact (exclude_when_built _ _ _ H).
Qed.

Lemma exclude_after_build_raises_witness :
  exclude_from_weight_decay (Some [kernel]) (Some ["bias"%string])
    (built_engine default_engine)
  = (Raise ValueError, built_engine default_engine).
Proof.
  apply (proj2 (exclude_after_build_raises [] default_engine
                  (Some [kernel]) (Some ["bias"%string]))).
  reflexivity.
Defined.

(** C10. Before [build], every call to [exclude_from_weight_decay] returns
    and sets the list of variables and the name-pattern set to the arguments
    of that call, an argument that is left out or [None] giving the empty set:
    a second call replaces what the first configured, so the state after two
    calls is the state after the second alone. *)
Theorem exclude_replaces (o : DiffGrad)
    (vl1 vl2 : option (list TfVariable)) (vn1 vn2 : option (list string)) :
  is_built o = false ->
  let o1 := (exclude_from_weight_decay vl1 vn1 o).2 in
  let o2 := (exclude_from_weight_decay vl2 vn2 o1).2 in
  (exclude_from_weight_decay vl1 vn1 o).1 = Ok tt /\
  (exclude_from_weight_decay vl2 vn2 o1).1 = Ok tt /\
  _exclude_from_weight_decay o1 = Some (default [] vl1) /\
  _exclude_from_weight_decay_names o1 = Some (default [] vn1) /\
  _exclude_from_weight_decay o2 = Some (default [] vl2) /\
  _exclude_from_weight_decay_names o2 = Some (default [] vn2) /\
  o2 = (exclude_from_weight_decay vl2 vn2 o).2.
Proof.
  intros H. cbv zeta.
  rewrite (exclude_when_not_built vl1 vn1 o H). cbn [fst snd].
  rewrite (exclude_when_not_built vl2 vn2 o H).
  rewrite exclude_when_not_built by exact H.
  destruct o; repeat split.
Qed.

Lemma exclude_replaces_witness :
  let o1 :=
    (exclude_from_weight_decay (Some [kernel]) None default_engine).2 in
  let o2 :=
    (exclude_from_weight_decay None (Some ["bias"%string]) o1).2 in
  (exclude_from_weight_decay (Some [kernel]) None default_engine).1 = Ok tt /\
  (exclude_from_weight_decay None (Some ["bias"%string]) o1).1 = Ok tt /\
  _exclude_from_weight_decay o1 = Some (default [] (Some [kernel])) /\
  _exclude_from_weight_decay_names o1 = Some (default [] None) /\
  _exclude_from_weight_decay o2 = Some (default [] None) /\
  _exclude_from_weight_decay_names o2
    = Some (default [] (Some ["bias"%string])) /\
  o2 = (exclude_from_weight_decay None (Some ["bias"%string])
          default_engine).2.
Proof.
  apply (exclude_replaces default_engine (Some [kernel]) None None
           (Some ["bias"%string])).
  reflexivity.
Defined.

(** ** Weight decay and its exclusions *)

Lemma truth_of_equal_same_shape (a b : list R) :
  length a = length b -> (2 <= length a)%nat ->
  truth_of_equal a b = Raise ValueError.
Proof.
  intros L H. unfold truth_of_equal, broadcast_length.
  rewrite decide_True by exact L.
  destruct (length a) as [| [| n]]; [lia | lia | reflexivity].
Qed.

Lemma truth_of_equal_incompatible (a b : list R) :
  length a <> length b -> length a <> 1%nat -> length b <> 1%nat ->
  truth_of_equal a b = Ok false.
Proof.
  intros N Na Nb. unfold truth_of_equal, broadcast_length.
  rewrite !decide_False by assumption. reflexivity.
Qed.

Lemma truth_of_equal_single (a b : R) :
  truth_of_equal [a] [b] = Ok (bool_decide (a = b)).
Proof.
  unfold truth_of_equal, broadcast_length. simpl.
  f_equal. apply bool_decide_ext. split; congruence.
Qed.

Lemma variable_in_false_iff x l :
  variable_in x l = Ok false <-> Forall (passed_over x) l.
Proof.
  induction l as [| e l IH]; simpl.
  - split; [constructor | reflexivity].
  - destruct (decide (var_key e = var_key x)) as [E | N].
    + split; [discriminate |].
      intros H. inversion H as [| ? ? [Hn _] _]; subst. contradiction.
    + destruct (truth_of_equal (value e) (value x)) as [[|] | err] eqn:Et.
      * split; [discriminate |].
        intros H. inversion H as [| ? ? [_ Hf] _]; subst. congruence.
      * rewrite IH. split.
        -- intros H. constructor; [split; assumption | exact H].
        -- intros H. inversion H; subst. assumption.
      * split; [discriminate |].
        intros H. inversion H as [| ? ? [_ Hf] _]; subst. congruence.
Qed.

Lemma variable_in_passes x pre l :
  Forall (passed_over x) pre -> variable_in x (pre ++ l) = variable_in x l.
Proof.
  induction 1 as [| e pre [Hn Hf] _ IH]; [reflexivity |].
  simpl. rewrite decide_False by exact Hn. rewrite Hf. exact IH.
Qed.

(** The variable itself is found by identity, once the test has passed over
    the elements before it. *)
Lemma variable_in_found x pre post :
  Forall (passed_over x) pre -> variable_in x (pre ++ x :: post) = Ok true.
Proof.
  intros H. rewrite (variable_in_passes x pre _ H). simpl.
  rewrite decide_True by reflexivity. reflexivity.
Qed.

(** Another variable of the same shape with more than one entry makes the
    test raise. *)
Lemma variable_in_raises x pre e post :
  Forall (passed_over x) pre -> var_key e <> var_key x ->
  length (value e) = length (value x) -> (2 <= length (value x))%nat ->
  variable_in x (pre ++ e :: post) = Raise ValueError.
Proof.
  intros H Hn L H2. rewrite (variable_in_passes x pre _ H). simpl.
  rewrite decide_False by exact Hn.
  rewrite truth_of_equal_same_shape by lia. reflexivity.
Qed.

Section UseWeightDecay.

Variable re_search : string -> string -> bool.

Lemma use_weight_decay_ext o o' x :
  _exclude_from_weight_decay o' = _exclude_from_weight_decay o ->
  _exclude_from_weight_decay_names o' = _exclude_from_weight_decay_names o ->
  _use_weight_decay re_search o' x = _use_weight_decay re_search o x.
Proof. intros E1 E2. unfold _use_weight_decay. now rewrite E1, E2. Qed.

Lemma use_weight_decay_listed o x pre post :
  default [] (_exclude_from_weight_decay o) = pre ++ x :: post ->
  Forall (passed_over x) pre ->
  _use_weight_decay re_search o x = Ok false.
Proof.
  intros E H. unfold _use_weight_decay. cbv zeta.
  rewrite E, (variable_in_found x pre post H). reflexivity.
Qed.

Lemma use_weight_decay_raises o x pre e post :
  default [] (_exclude_from_weight_decay o) = pre ++ e :: post ->
  Forall (passed_over x) pre -> var_key e <> var_key x ->
  length (value e) = length (value x) -> (2 <= length (value x))%nat ->
  _use_weight_decay re_search o x = Raise ValueError.
Proof.
  intros E H Hn L H2. unfold _use_weight_decay. cbv zeta.
  rewrite E, (variable_in_raises x pre e post H Hn L H2). reflexivity.
Qed.

(** When the test has passed over the whole list, the name patterns
    decide. *)
Lemma use_weight_decay_by_name o x :
  Forall (passed_over x) (default [] (_exclude_from_weight_decay o)) ->
  _use_weight_decay re_search o x
  = Ok (negb (existsb (fun pat => re_search pat (name x))
                (default [] (_exclude_from_weight_decay_names o)))).
Proof.
  intros H. apply variable_in_false_iff in H.
  unfold _use_weight_decay. cbv zeta. rewrite H.
  destruct (existsb _ _); reflexivity.
Qed.

(** When the membership test raises, the step raises with it, before
    anything is written. *)
Lemma update_step_membership_raises g o x index m v p err :
  registered o x index m v p ->
  _use_weight_decay re_search o x = Raise err ->
  update_step re_search g (o, x) = (Raise err, (o, x)).
Proof.
  intros (Hi & Hm & Hv & Hp & _) Hu.
  assert (Vm : valid (SlotM index) (o, x)) by (eexists; exact Hm).
  assert (Vv : valid (SlotV index) (o, x)) by (eexists; exact Hv).
  assert (Vp : valid (SlotP index) (o, x)) by (eexists; exact Hp).
  unfold update_step. do 2 step. cbn [fst snd]. do 4 step.
  rewrite ?run_bind_assoc, Hu. reflexivity.
Qed.

End UseWeightDecay.

Lemma bias_name_is_searched :
  literal_search "bias" (name bias) = true /\
  literal_search "bias" (name kernel) = false /\
  String.eqb "bias" (name bias) = false.
Proof. repeat split. Qed.

Lemma kernel_excluded_registered :
  registered kernel_excluded_engine bias 1 [0; 0] [0; 0] [0; 0].
Proof. repeat split; reflexivity. Qed.

Lemma gain_excluded_registered :
  registered gain_excluded_engine offset 1 [0] [0] [0].
Proof. repeat split; reflexivity. Qed.

Lemma offset_is_taken_for_gain :
  _use_weight_decay literal_search gain_excluded_engine offset = Ok false.
Proof.
  unfold _use_weight_decay. cbv zeta.
  change (default [] (_exclude_from_weight_decay gain_excluded_engine))
    with [gain].
  cbn [variable_in]. rewrite decide_False by discriminate.
  change (value gain) with [1]. change (value offset) with [1].
  rewrite truth_of_equal_single.
  rewrite bool_decide_eq_true_2 by reflexivity. reflexivity.
Qed.

(** C9 (the code departs from the claim).  The name patterns work as the
    claim says: with the pattern ["bias"], [bias] skips the decay and
    [kernel] does not, and a zero-gradient step leaves [bias] as it is.  The
    list of variables does not: [variable in list] compares by [==], which
    TensorFlow evaluates entry by entry.  With [kernel] alone in the list, a
    step on [bias], which is not in the list and has the shape of [kernel],
    raises [ValueError] before anything is written; and with the one-entry
    variable [gain] in the list, the variable [offset], which is not in the
    list and holds the same number, skips the decay: a zero-gradient step
    leaves it at 1 where the decay gives [1 - 1 * 0.004 * 0.001]. *)
Theorem exclusion_list_compares_by_equality :
  (_use_weight_decay literal_search bias_excluded_engine bias = Ok false /\
   _use_weight_decay literal_search bias_excluded_engine kernel = Ok true /\
   exists s',
     update_step literal_search (Dense [0; 0]) (bias_excluded_engine, bias)
       = (Ok tt, s') /\
     entry VarRef 0 s' = Some 1 /\ entry VarRef 1 s' = Some 1) /\
  (_use_weight_decay literal_search kernel_excluded_engine kernel = Ok false /\
   (excluded literal_search kernel_excluded_engine bias -> False) /\
   _use_weight_decay literal_search kernel_excluded_engine bias
     = Raise ValueError /\
   update_step literal_search (Dense [0; 0]) (kernel_excluded_engine, bias)
     = (Raise ValueError, (kernel_excluded_engine, bias))) /\
  ((excluded literal_search gain_excluded_engine offset -> False) /\
   _use_weight_decay literal_search gain_excluded_engine offset = Ok false /\
   exists s',
     update_step literal_search (Dense [0]) (gain_excluded_engine, offset)
       = (Ok tt, s') /\
     entry VarRef 0 s' = Some 1 /\
     1 - 1 * 0.004 * learning_rate gain_excluded_engine < 1).
Proof.
  split; [| split].
  - split; [reflexivity |]. split; [reflexivity |].
    destruct (update_step_dense_entries literal_search bias_excluded_engine
                bias [0; 0] 1 [0; 0] [0; 0] [0; 0] 0.004 [] false)
      as (s' & Hrun & Hent).
    + exact bias_excluded_registered.
    + intros H. discriminate H.
    + reflexivity.
    + reflexivity.
    + reflexivity.
    + apply default_hyperparameters_in_range; reflexivity.
    + repeat constructor; lra.
    + exists s'. split; [exact Hrun |].
      destruct (Hent 0%nat 0 0 0 0 1 0) as (_ & _ & _ & _ & E0);
        try reflexivity; try (intros H; discriminate H).
      destruct (Hent 1%nat 0 0 0 0 1 0) as (_ & _ & _ & _ & E1);
        try reflexivity; try (intros H; discriminate H).
      cbv zeta in *. rewrite E0, E1.
      split; f_equal; unfold Rdiv; ring.
  - split; [reflexivity |]. split.
    { intros [Hk | (pat & Hin & _)].
      - change (var_key <$> default []
                  (_exclude_from_weight_decay kernel_excluded_engine))
          with [0%nat] in Hk.
        apply list_elem_of_singleton in Hk. discriminate Hk.
      - change (default []
                  (_exclude_from_weight_decay_names kernel_excluded_engine))
          with (@nil string) in Hin.
        apply not_elem_of_nil in Hin. exact Hin. }
    split; [reflexivity |].
    apply (update_step_membership_raises literal_search (Dense [0; 0])
             kernel_excluded_engine bias 1 [0; 0] [0; 0] [0; 0]).
    + exact kernel_excluded_registered.
    + reflexivity.
  - split.
    { intros [Hk | (pat & Hin & _)].
      - change (var_key <$> default []
                  (_exclude_from_weight_decay gain_excluded_engine))
          with [3%nat] in Hk.
        apply list_elem_of_singleton in Hk. discriminate Hk.
      - change (default []
                  (_exclude_from_weight_decay_names gain_excluded_engine))
          with (@nil string) in Hin.
        apply not_elem_of_nil in Hin. exact Hin. }
    split; [exact offset_is_taken_for_gain |].
    destruct (update_step_dense_entries literal_search gain_excluded_engine
                offset [0] 1 [0] [0] [0] 0.004 [] false)
      as (s' & Hrun & Hent).
    + exact gain_excluded_registered.
    + intros H. discriminate H.
    + reflexivity.
    + reflexivity.
    + exact offset_is_taken_for_gain.
    + apply default_hyperparameters_in_range; reflexivity.
    + repeat constructor; lra.
    + exists s'. split; [exact Hrun |].
      destruct (Hent 0%nat 0 0 0 0 1 0) as (_ & _ & _ & _ & E0);
        try reflexivity; try (intros H; discriminate H).
      cbv zeta in *. rewrite E0.
      split; [f_equal; unfold Rdiv; ring |].
      change (learning_rate gain_excluded_engine) with 0.001. lra.
Qed.

(** ** Relations kept by every step of a computation *)

Section Frame.

Variable R : St -> St -> Prop.
Variable safe : ref -> bool.
Hypothesis R_refl : forall s, R s s.
Hypothesis R_trans : forall s1 s2 s3, R s1 s2 -> R s2 s3 -> R s1 s3.
Hypothesis R_write : forall r t s, safe r = true -> R s (write r t s).

Lemma keeps_bind {A B} (c : M St A) (k : A -> M St B) :
  keeps R c -> (forall a, keeps R (k a)) -> keeps R (c ≫= k).
Proof.
  intros Hc Hk s. unfold mbind, M_mbind, M_bind.
  specialize (Hc s). destruct (c s) as [[a | e] s1]; simpl in *.
  - eapply R_trans; [exact Hc | apply Hk].
  - exact Hc.
Qed.

Lemma keeps_getitem_bind {B} r (k : ref -> M St B) :
  keeps R (k r) -> keeps R (getitem r ≫= k).
Proof.
  intros Hk s. unfold mbind, M_mbind, M_bind, getitem.
  destruct (deref r s); simpl; [apply Hk | apply R_refl].
Qed.

Lemma keeps_gets {A} (f : St -> A) : keeps R (gets f).
Proof. intros s. apply R_refl. Qed.

Lemma keeps_mret {A} (a : A) : keeps R (mret a : M St A).
Proof. intros s. apply R_refl. Qed.

Lemma keeps_lift {A} (r : result A) : keeps R (lift r : M St A).
Proof. intros s. apply R_refl. Qed.

Lemma keeps_raise {A} e : keeps R (raise e : M St A).
Proof. intros s. apply R_refl. Qed.

Lemma keeps_cast_float x : keeps R (cast_float x).
Proof. destruct x as [| w | str]; intros s; apply R_refl. Qed.

Lemma keeps_getitem_index_dict key : keeps R (getitem_index_dict key).
Proof.
  intros s. unfold getitem_index_dict.
  destruct (_index_dict s.1 !! key); apply R_refl.
Qed.

Lemma keeps_read r : keeps R (read r).
Proof. intros s. unfold read. destruct (deref r s); apply R_refl. Qed.

Lemma keeps_modify_write r t : safe r = true -> keeps R (modify (write r t)).
Proof. intros H s. apply R_write, H. Qed.

Lemma keeps_assign r x : safe r = true -> keeps R (assign r x).
Proof.
  intros H. unfold assign. apply keeps_bind; [apply keeps_read | intros t].
  destruct (decide _); [apply keeps_modify_write, H | apply keeps_raise].
Qed.

Lemma keeps_assign_add r x : safe r = true -> keeps R (assign_add r x).
Proof.
  intros H. unfold assign_add.
  apply keeps_bind; [apply keeps_read | intros t].
  destruct (decide _); [apply keeps_modify_write, H | apply keeps_raise].
Qed.

Lemma keeps_assign_sub r x : safe r = true -> keeps R (assign_sub r x).
Proof.
  intros H. unfold assign_sub.
  apply keeps_bind; [apply keeps_read | intros t].
  destruct (decide _); [apply keeps_modify_write, H | apply keeps_raise].
Qed.

Lemma keeps_scatter_add r values indices :
  safe r = true -> keeps R (scatter_add r values indices).
Proof.
  intros H. unfold scatter_add.
  apply keeps_bind; [apply keeps_read | intros t].
  apply keeps_bind; [apply keeps_lift | intros t'].
  apply keeps_modify_write, H.
Qed.

Lemma keeps_scatter_update r values indices :
  safe r = true -> keeps R (scatter_update r values indices).
Proof.
  intros H. unfold scatter_update.
  apply keeps_bind; [apply keeps_read | intros t].
  apply keeps_bind; [apply keeps_lift | intros t'].
  apply keeps_modify_write, H.
Qed.

End Frame.

(** [keeps_with] walks through a computation; [special] closes the goals
    for the writes that are not safe. *)
Ltac keeps_with Hrefl Htrans Hwrite special :=
  repeat first
    [ special
    | apply (keeps_getitem_bind _ Hrefl)
    | apply (keeps_gets _ Hrefl)
    | apply (keeps_mret _ Hrefl)
    | apply (keeps_lift _ Hrefl)
    | apply (keeps_raise _ Hrefl)
    | apply (keeps_cast_float _ Hrefl)
    | apply (keeps_getitem_index_dict _ Hrefl)
    | apply (keeps_read _ Hrefl)
    | apply (keeps_assign _ _ Hrefl Htrans Hwrite); reflexivity
    | apply (keeps_assign_add _ _ Hrefl Htrans Hwrite); reflexivity
    | apply (keeps_assign_sub _ _ Hrefl Htrans Hwrite); reflexivity
    | apply (keeps_scatter_add _ _ Hrefl Htrans Hwrite); reflexivity
    | apply (keeps_scatter_update _ _ Hrefl Htrans Hwrite); reflexivity
    | apply (keeps_bind _ Htrans); [| intros ?]
    | match goal with
      | |- keeps _ (if ?b then _ else _) => destruct b
      | |- keeps _ (match ?g with
                    | Dense _ => _
                    | IndexedSlices _ _ => _
                    end) => destruct g
      end ].

(** ** AMSGrad: [velocity_hat] never decreases *)

Lemma tensor_le_refl (t : list R) : Forall2 Rle t t.
Proof. induction t; constructor; [lra | assumption]. Qed.

Lemma tensors_le_refl (l : list (list R)) : Forall2 (Forall2 Rle) l l.
Proof. induction l; constructor; [apply tensor_le_refl | assumption]. Qed.

Lemma tensor_le_trans (a b c : list R) :
  Forall2 Rle a b -> Forall2 Rle b c -> Forall2 Rle a c.
Proof.
  intros H. revert c. induction H; intros c Hc; inversion Hc; subst;
    constructor; [lra | auto].
Qed.

Lemma tensors_le_trans (a b c : list (list R)) :
  Forall2 (Forall2 Rle) a b -> Forall2 (Forall2 Rle) b c ->
  Forall2 (Forall2 Rle) a c.
Proof.
  intros H. revert c. induction H; intros c Hc; inversion Hc; subst;
    constructor; [eapply tensor_le_trans; eassumption | auto].
Qed.

Lemma vhat_le_refl o : vhat_le o o.
Proof.
  unfold vhat_le. destruct (_velocity_hats o); constructor.
  apply tensors_le_refl.
Qed.

Lemma vhat_le_trans o1 o2 o3 :
  vhat_le o1 o2 -> vhat_le o2 o3 -> vhat_le o1 o3.
Proof.
  unfold vhat_le. intros H12 H23.
  destruct H12; inversion H23; subst; constructor.
  eapply tensors_le_trans; eassumption.
Qed.

Lemma tensors_le_insert (l : list (list R)) i (t t' : list R) :
  l !! i = Some t -> Forall2 Rle t t' ->
  Forall2 (Forall2 Rle) l (<[i := t']> l).
Proof.
  revert i. induction l as [| a l IH]; intros [| i] Hl Ht; simpl in *;
    try discriminate.
  - injection Hl as ->. constructor; [assumption | apply tensors_le_refl].
  - constructor; [apply tensor_le_refl | eauto].
Qed.

Lemma hats_grow_refl s : hats_grow s s.
Proof. apply vhat_le_refl. Qed.

Lemma hats_grow_trans s1 s2 s3 :
  hats_grow s1 s2 -> hats_grow s2 s3 -> hats_grow s1 s3.
Proof. apply vhat_le_trans. Qed.

Lemma hats_grow_write r t s :
  negb (is_hat r) = true -> hats_grow s (write r t s).
Proof.
  destruct r; try discriminate; intros _; unfold hats_grow, vhat_le; simpl;
    apply (vhat_le_refl s.1).
Qed.

Lemma hats_grow_write_hat i t vh s :
  deref (SlotVhat i) s = Some vh -> Forall2 Rle vh t ->
  hats_grow s (write (SlotVhat i) t s).
Proof.
  unfold hats_grow, vhat_le, deref, write.
  destruct (_velocity_hats s.1) as [l|]; simpl.
  - intros Hl Ht. constructor. eapply tensors_le_insert; eassumption.
  - discriminate.
Qed.

(** [tf.maximum(v_hat, v)], when it has the shape of [v_hat], is entry by
    entry at least [v_hat]. *)
Lemma maximum_ge (vh vt mx : list R) :
  broadcast Rmax vh vt = Ok mx -> length mx = length vh -> Forall2 Rle vh mx.
Proof.
  unfold broadcast. destruct (decide (length vh = length vt)) as [E | N].
  - intros H _. injection H as <-. revert vt E.
    induction vh as [| a vh IH]; intros [| b vt] E; simpl in *;
      try discriminate; constructor; [apply Rmax_l | auto].
  - assert (Hmap : forall y (l : list R),
              Forall2 Rle l ((fun x => Rmax x y) <$> l)).
    { intros y l.
      induction l; simpl; constructor; [apply Rmax_l | assumption]. }
    destruct vh as [| a [| a' vh]]; destruct vt as [| b [| b' vt]];
      simpl in *; intros H L; try discriminate; try lia;
      injection H as <-; try (simpl in L; lia); apply (Hmap b).
Qed.

(** The AMSGrad block of [update_step]. *)
Lemma keeps_amsgrad_block index v :
  keeps hats_grow
    (v_hat ← getitem (SlotVhat index);
     vh ← read v_hat;
     vt ← read v;
     mx ← lift (broadcast Rmax vh vt);
     assign v_hat mx;;
     mret v_hat).
Proof.
  intros s. unfold mbind, M_mbind, M_bind, getitem, read, lift, assign.
  destruct (deref (SlotVhat index) s) as [vh |] eqn:Eh;
    [| apply hats_grow_refl].
  rewrite Eh.
  destruct (deref v s) as [vt |]; [| apply hats_grow_refl].
  destruct (broadcast Rmax vh vt) as [mx | e] eqn:Eb;
    [| apply hats_grow_refl].
  unfold mbind, M_mbind, M_bind, read. rewrite Eh.
  destruct (decide (length mx = length vh)) as [L | L];
    [| apply hats_grow_refl].
  unfold modify. cbn [fst snd mret M_mret M_ret].
  eapply hats_grow_write_hat; [exact Eh |].
  eapply maximum_ge; eassumption.
Qed.

Section Monotone.

Variable re_search : string -> string -> bool.

Lemma update_step_hats_grow g : keeps hats_grow (update_step re_search g).
Proof.
  unfold update_step.
  keeps_with hats_grow_refl hats_grow_trans hats_grow_write
    ltac:(apply keeps_amsgrad_block).
Qed.

Lemma refresh_velocity_hats x o :
  _velocity_hats (refresh x o) = _velocity_hats o.
Proof. unfold refresh. destruct (_exclude_from_weight_decay o); reflexivity. Qed.

Lemma step_on_hats_grow gv o : vhat_le o (step_on re_search gv o).2.
Proof.
  unfold step_on.
  pose proof (update_step_hats_grow gv.1 (o, gv.2)) as H.
  destruct (update_step re_search gv.1 (o, gv.2)) as [r s].
  unfold vhat_le. cbn [snd]. rewrite refresh_velocity_hats. exact H.
Qed.

Lemma for_hats_grow {A} (xs : list A) (body : A -> M DiffGrad unit) :
  (forall x o, vhat_le o (body x o).2) ->
  forall o, vhat_le o (for_ xs body o).2.
Proof.
  intros Hb. induction xs as [| x xs IH]; intros o.
  - apply vhat_le_refl.
  - cbn [for_]. unfold mbind, M_mbind, M_bind.
    specialize (Hb x o). destruct (body x o) as [[[] | e] o1]; simpl in *.
    + eapply vhat_le_trans; [exact Hb | apply IH].
    + exact Hb.
Qed.

Lemma apply_gradients_hats_grow gvs o :
  vhat_le o (apply_gradients re_search gvs o).2.
Proof.
  unfold apply_gradients, mbind, M_mbind, M_bind.
  pose proof (for_hats_grow gvs (step_on re_search) step_on_hats_grow o) as H.
  destruct (for_ gvs (step_on re_search) o) as [[[] | e] o1]; simpl in *.
  - eapply vhat_le_trans; [exact H |].
    unfold vhat_le. simpl. apply (vhat_le_refl o1).
  - exact H.
Qed.

Lemma train_hats_grow batches o :
  vhat_le o (train re_search batches o).2.
Proof. apply for_hats_grow, apply_gradients_hats_grow. Qed.

End Monotone.

(** ** Sparse gradients *)

Lemma scatter_length f t values indices t' :
  scatter f t values indices = Ok t' -> length t' = length t.
Proof.
  revert t indices. induction values as [| x values IH];
    intros t [| i indices] H; simpl in H; try discriminate.
  - injection H as <-. reflexivity.
  - destruct (t !! i) as [y |]; [| discriminate].
    apply IH in H. rewrite length_insert in H. exact H.
Qed.

Lemma scatter_total f t values indices :
  length values = length indices ->
  Forall (fun i => (i < length t)%nat) indices ->
  exists t', scatter f t values indices = Ok t' /\ length t' = length t.
Proof.
  revert t indices. induction values as [| x values IH];
    intros t [| i indices] L Hin; simpl in L; try discriminate.
  - exists t. split; reflexivity.
  - inversion Hin as [| ? ? Hi Hrest]; subst. simpl.
    destruct (lookup_lt_is_Some_2 t i Hi) as [y Hy]. rewrite Hy.
    destruct (IH (<[i := f y x]> t) indices) as (t' & Ht & Lt).
    + lia.
    + rewrite length_insert. exact Hrest.
    + exists t'. split; [exact Ht |]. rewrite Lt. apply length_insert.
Qed.

(** A row that is not among the indices keeps its contents. *)
Lemma scatter_untouched f t values indices t' j :
  scatter f t values indices = Ok t' -> j ∉ indices -> t' !! j = t !! j.
Proof.
  revert t indices. induction values as [| x values IH];
    intros t [| i indices] H Hj; simpl in H; try discriminate.
  - injection H as <-. reflexivity.
  - destruct (t !! i) as [y |]; [| discriminate].
    apply not_elem_of_cons in Hj as [Hji Hj].
    rewrite (IH _ _ H Hj). apply list_lookup_insert_ne. congruence.
Qed.

Lemma broadcast_mismatch f (a b : list R) :
  length a <> length b -> length a <> 1%nat -> length b <> 1%nat ->
  broadcast f a b = Raise InvalidArgumentError.
Proof.
  intros N Na Nb. unfold broadcast. rewrite decide_False by exact N.
  destruct a as [| x [| x' a]]; destruct b as [| y [| y' b]];
    simpl in *; try reflexivity; lia.
Qed.

Lemma untouched_refl indices s : untouched_rows_kept indices s s.
Proof. intros i j _. reflexivity. Qed.

Lemma untouched_trans indices s1 s2 s3 :
  untouched_rows_kept indices s1 s2 -> untouched_rows_kept indices s2 s3 ->
  untouched_rows_kept indices s1 s3.
Proof. intros H12 H23 i j Hj. rewrite (H23 i j Hj). apply H12, Hj. Qed.

Lemma untouched_write indices r t s :
  negb (is_prev_gradient r) = true ->
  untouched_rows_kept indices s (write r t s).
Proof.
  intros Hr i j _. unfold entry.
  rewrite deref_write_ne; [reflexivity |].
  destruct r; try discriminate; congruence.
Qed.

Lemma keeps_scatter_update_p index values indices :
  keeps (untouched_rows_kept indices)
    (scatter_update (SlotP index) values indices).
Proof.
  intros s. unfold scatter_update, mbind, M_mbind, M_bind, read, lift.
  destruct (deref (SlotP index) s) as [t |] eqn:Et;
    [| apply untouched_refl].
  destruct (scatter (fun _ x => x) t values indices) as [t' | e] eqn:Es;
    [| apply untouched_refl].
  unfold modify. cbn [snd]. intros i j Hj. unfold entry.
  destruct (decide (i = index)) as [-> | Ni].
  - rewrite deref_write_eq by (eexists; exact Et). rewrite Et. simpl.
    eapply scatter_untouched; eassumption.
  - rewrite deref_write_ne by congruence. reflexivity.
Qed.

(** On the sparse path, whether the step returns or raises, the rows of
    prev_gradient that are not among the indices are unchanged. *)
Lemma update_step_sparse_untouched (re_search : string -> string -> bool)
    values indices :
  keeps (untouched_rows_kept indices)
    (update_step re_search (IndexedSlices values indices)).
Proof.
  unfold update_step. cbv beta iota.
  keeps_with (untouched_refl indices) (untouched_trans indices)
    (untouched_write indices)
    ltac:(apply keeps_scatter_update_p).
Qed.

Ltac len_eval := first [ len | simpl; lia ].

Ltac list_eval :=
  cbn [scatter lookup list_lookup insert list_insert zip_with fmap list_fmap
       length].

Ltac run_sparse_prim :=
  lazymatch goal with
  | |- scatter_add _ _ _ _ = _ =>
      eapply scatter_add_ok;
      [solve_deref | first [eassumption | list_eval; reflexivity]]
  | |- scatter_update _ _ _ _ = _ =>
      eapply scatter_update_ok;
      [solve_deref | first [eassumption | list_eval; reflexivity]]
  | |- lift (sparse_dfc _ _) _ = _ =>
      unfold sparse_dfc; rewrite broadcast_same by len_eval; reflexivity
  | |- assign_add _ _ _ = _ => eapply assign_add_ok; [solve_deref | len_eval]
  | |- assign_sub _ _ _ = _ => eapply assign_sub_ok; [solve_deref | len_eval]
  | |- lift (broadcast _ _ _) _ = _ =>
      rewrite broadcast_same by len_eval; reflexivity
  | |- _ => run_prim
  end.

Ltac sparse_step :=
  rewrite ?run_bind_assoc; erewrite run_bind by run_sparse_prim; cbv beta.

Section SparseStep.

Variable re_search : string -> string -> bool.

(** A sparse gradient whose number of values is neither the number of rows
    nor one, on a parameter of more than one row: [p - gradient.values]
    cannot be broadcast, the step raises after momentum and velocity were
    updated, and prev_gradient is left as it was. *)
Lemma update_step_sparse_mismatch o x values indices index m v p w use :
  registered o x index m v p ->
  weight_decay o = PyFloat w ->
  _use_weight_decay re_search o x = Ok use ->
  length values = length indices ->
  Forall (fun i => (i < length (value x))%nat) indices ->
  length values <> length (value x) ->
  length values <> 1%nat ->
  length (value x) <> 1%nat ->
  exists s',
    update_step re_search (IndexedSlices values indices) (o, x)
      = (Raise InvalidArgumentError, s') /\
    deref (SlotP index) s' = Some p.
Proof.
  intros (Hi & Hm & Hv & Hp & Lm & Lv & Lp) Hw Hu Lvi Hin N1 N2 N3.
  change (deref (SlotM index) (o, x) = Some m) in Hm.
  change (deref (SlotV index) (o, x) = Some v) in Hv.
  change (deref (SlotP index) (o, x) = Some p) in Hp.
  assert (Vm : valid (SlotM index) (o, x)) by (eexists; eauto).
  assert (Vv : valid (SlotV index) (o, x)) by (eexists; eauto).
  assert (Vp : valid (SlotP index) (o, x)) by (eexists; eauto).
  assert (Hx : deref VarRef (o, x) = Some (value x)) by reflexivity.
  assert (Vx : valid VarRef (o, x)) by (eexists; eauto).
  destruct (scatter_total Rplus
              (zip_with Rplus m ((fun mi => - mi * (1 - beta_1 o)) <$> m))
              ((fun gi => gi * (1 - beta_1 o)) <$> values) indices)
    as (m' & Em & Lm').
  { rewrite length_fmap. exact Lvi. }
  { rewrite length_zip_with, length_fmap, Nat.min_id, Lm. exact Hin. }
  destruct (scatter_total Rplus
              (zip_with Rplus v ((fun vi => - vi * (1 - beta_2 o)) <$> v))
              ((fun gi => gi * gi * (1 - beta_2 o) + epsilon o) <$> values)
              indices)
    as (v' & Ev & Lv').
  { rewrite length_fmap. exact Lvi. }
  { rewrite length_zip_with, length_fmap, Nat.min_id, Lv. exact Hin. }
  rewrite length_zip_with, length_fmap, Nat.min_id in Lm', Lv'.
  assert (Ed : sparse_dfc p values = Raise InvalidArgumentError).
  { unfold sparse_dfc. rewrite broadcast_mismatch; [reflexivity | lia..]. }
  unfold update_step.
  do 2 sparse_step. cbn [fst snd]. do 5 sparse_step.
  destruct use.
  - rewrite Hw. do 10 sparse_step.
    rewrite ?run_bind_assoc, Ed, run_bind_lift_raise.
    eexists. split; [reflexivity | solve_deref].
  - do 8 sparse_step.
    rewrite ?run_bind_assoc, Ed, run_bind_lift_raise.
    eexists. split; [reflexivity | solve_deref].
Qed.

(** A sparse gradient over both rows of a two-row parameter, listing row 1
    before row 0: value [a] arrives for row 1 and value [b] for row 0.
    Momentum, velocity and prev_gradient receive each value at its row, but
    the friction coefficient of row 0 is taken from [a] and that of row 1
    from [b]. *)
Lemma update_step_sparse_swapped o x index m0 m1 v0 v1 p0 p1 x0 x1 a b w
    use :
  registered o x index [m0; m1] [v0; v1] [p0; p1] ->
  value x = [x0; x1] ->
  amsgrad o = false ->
  weight_decay o = PyFloat w ->
  _use_weight_decay re_search o x = Ok use ->
  hyperparameters_in_range o ->
  0 <= v0 -> 0 <= v1 ->
  let m0' := m0 + - m0 * (1 - beta_1 o) + b * (1 - beta_1 o) in
  let m1' := m1 + - m1 * (1 - beta_1 o) + a * (1 - beta_1 o) in
  let v0' := v0 + - v0 * (1 - beta_2 o)
             + (b * b * (1 - beta_2 o) + epsilon o) in
  let v1' := v1 + - v1 * (1 - beta_2 o)
             + (a * a * (1 - beta_2 o) + epsilon o) in
  let decayed xj := if use then xj - xj * w * learning_rate o else xj in
  exists s',
    update_step re_search (IndexedSlices [a; b] [1%nat; 0%nat]) (o, x)
      = (Ok tt, s') /\
    deref (SlotM index) s' = Some [m0'; m1'] /\
    deref (SlotV index) s' = Some [v0'; v1'] /\
    deref (SlotP index) s' = Some [b; a] /\
    deref VarRef s' =
      Some [decayed x0 - m0' * alpha_at o / (friction (p0 - a) * sqrt v0');
            decayed x1 - m1' * alpha_at o / (friction (p1 - b) * sqrt v1')].
Proof.
  intros (Hi & Hm & Hv & Hp & Lm & Lv & Lp) Hx Ha Hw Hu Hrange H0 H1.
  cbv zeta.
  destruct (bias_corrections_defined o Hrange) as [Hb1 Hb2].
  assert (Hpos : Forall (Rlt 0)
            [v0 + - v0 * (1 - beta_2 o) + (b * b * (1 - beta_2 o) + epsilon o);
             v1 + - v1 * (1 - beta_2 o)
             + (a * a * (1 - beta_2 o) + epsilon o)]).
  { destruct Hrange as (_ & Hr2 & Heps).
    assert (0 <= a * a) by nra. assert (0 <= b * b) by nra.
    repeat constructor; nra. }
  change (deref (SlotM index) (o, x) = Some [m0; m1]) in Hm.
  change (deref (SlotV index) (o, x) = Some [v0; v1]) in Hv.
  change (deref (SlotP index) (o, x) = Some [p0; p1]) in Hp.
  assert (Vm : valid (SlotM index) (o, x)) by (eexists; eauto).
  assert (Vv : valid (SlotV index) (o, x)) by (eexists; eauto).
  assert (Vp : valid (SlotP index) (o, x)) by (eexists; eauto).
  assert (Hx' : deref VarRef (o, x) = Some [x0; x1])
    by (cbn [deref snd]; now rewrite Hx).
  assert (Vx : valid VarRef (o, x)) by (eexists; eauto).
  unfold update_step.
  do 2 sparse_step. cbn [fst snd]. do 5 sparse_step. rewrite Ha.
  destruct use.
  - rewrite Hw. repeat sparse_step.
    eexists; split; [eapply assign_sub_ok; [solve_deref | len_eval] |].
    unfold alpha_at. repeat split; push_deref; reflexivity.
  - repeat sparse_step.
    eexists; split; [eapply assign_sub_ok; [solve_deref | len_eval] |].
    unfold alpha_at. repeat split; push_deref; rewrite ?Hx'; reflexivity.
Qed.

End SparseStep.

(** ** Sparse gradients in ascending row order *)

Lemma scatter_seq_from f (pre t values : list R) :
  length values = length t ->
  scatter f (pre ++ t) values (seq (length pre) (length t))
  = Ok (pre ++ zip_with f t values).
Proof.
  revert pre values. induction t as [| y t IH]; intros pre [| x values] L;
    simpl in L; try discriminate.
  - reflexivity.
  - cbn [length seq scatter zip_with].
    rewrite list_lookup_middle by reflexivity.
    rewrite (insert_app_r_alt pre (y :: t) (length pre)) by lia.
    rewrite Nat.sub_diag. cbn [insert list_insert].
    replace (pre ++ f y x :: t) with ((pre ++ [f y x]) ++ t)
      by (rewrite <- app_assoc; reflexivity).
    replace (S (length pre)) with (length (pre ++ [f y x]))
      by (rewrite length_app; simpl; lia).
    rewrite IH by lia. rewrite <- app_assoc. reflexivity.
Qed.

Lemma scatter_seq f (t values : list R) :
  length values = length t ->
  scatter f t values (seq 0 (length t)) = Ok (zip_with f t values).
Proof. intros L. exact (scatter_seq_from f [] t values L). Qed.

Lemma ema_sparse (a x c : R) : a + - a * c + x * c = a + (x - a) * c.
Proof. ring. Qed.

Lemma ema_sparse_eps (a y c e : R) :
  a + - a * c + (y * c + e) = a + ((y - a) * c + e).
Proof. ring. Qed.

Ltac finish_sparse_entries :=
  eexists; split; [eapply assign_sub_ok; [solve_deref | len] |];
  intros j mj vj pj gj xj vhj Hmj Hvj Hpj Hgj Hxj Hvhj;
  unfold entry, alpha_at; cbn [fst snd];
  repeat split; intros; try discriminate;
  try specialize (Hvhj eq_refl);
  push_deref;
  repeat match goal with
         | H : deref ?r ?s = Some _ |- context [deref ?r ?s] => rewrite H
         end;
  cbn [mbind option_bind]; look; cbn [fst snd]; look;
  rewrite ?ema_sparse, ?ema_sparse_eps; reflexivity.

(** The velocity a sparse step stores when every row receives a value is
    positive when the old one is not negative. *)
Lemma sparse_velocity_positive (b2 eps : R) (v g : list R) :
  0 <= b2 <= 1 -> 0 < eps -> Forall (Rle 0) v ->
  Forall (Rlt 0)
    (zip_with Rplus
       (zip_with Rplus v ((fun vi => - vi * (1 - b2)) <$> v))
       ((fun gi => gi * gi * (1 - b2) + eps) <$> g)).
Proof.
  intros Hb He Hv. apply Forall_lookup. intros j y Hy.
  rewrite !lookup_zip_with, !list_lookup_fmap in Hy.
  destruct (v !! j) as [vj |] eqn:Evj; [| discriminate].
  destruct (g !! j) as [gj |]; [| discriminate].
  simpl in Hy. injection Hy as <-.
  pose proof (Forall_lookup_1 _ _ _ _ Hv Evj) as H0. simpl in H0.
  assert (0 <= gj * gj) by nra. nra.
Qed.

Section SparseInOrder.

Variable re_search : string -> string -> bool.

(** A sparse gradient that lists every row once, in ascending order: the
    step returns and stores, entry by entry, what the dense branch stores for
    the same values. *)
Lemma update_step_sparse_in_order_entries o x g index m v p w vh use :
  registered o x index m v p ->
  (amsgrad o = true -> registered_hat o x index vh) ->
  length g = length (value x) ->
  weight_decay o = PyFloat w ->
  _use_weight_decay re_search o x = Ok use ->
  hyperparameters_in_range o ->
  Forall (Rle 0) v ->
  exists s',
    update_step re_search (IndexedSlices g (seq 0 (length g))) (o, x)
      = (Ok tt, s') /\
    forall j mj vj pj gj xj vhj,
      m !! j = Some mj -> v !! j = Some vj -> p !! j = Some pj ->
      g !! j = Some gj -> value x !! j = Some xj ->
      (amsgrad o = true -> vh !! j = Some vhj) ->
      let m' := mj + (gj - mj) * (1 - beta_1 o) in
      let v' := vj + ((gj * gj - vj) * (1 - beta_2 o) + epsilon o) in
      let v_used := if amsgrad o then Rmax vhj v' else v' in
      let x_wd := if use then xj - xj * w * learning_rate o else xj in
      entry (SlotM index) j s' = Some m' /\
      entry (SlotV index) j s' = Some v' /\
      entry (SlotP index) j s' = Some gj /\
      (amsgrad o = true -> entry (SlotVhat index) j s' = Some v_used) /\
      entry VarRef j s' =
        Some (x_wd - m' * alpha_at o / (friction (pj - gj) * sqrt v_used)).
Proof.
  intros (Hi & Hm & Hv & Hp & Lm & Lv & Lp) Hh Lg Hw Hu Hrange Hv0.
  change (deref (SlotM index) (o, x) = Some m) in Hm.
  change (deref (SlotV index) (o, x) = Some v) in Hv.
  change (deref (SlotP index) (o, x) = Some p) in Hp.
  assert (Vm : valid (SlotM index) (o, x)) by (eexists; eauto).
  assert (Vv : valid (SlotV index) (o, x)) by (eexists; eauto).
  assert (Vp : valid (SlotP index) (o, x)) by (eexists; eauto).
  assert (Hx : deref VarRef (o, x) = Some (value x)) by reflexivity.
  assert (Vx : valid VarRef (o, x)) by (eexists; eauto).
  destruct (bias_corrections_defined o Hrange) as [Hb1 Hb2].
  destruct Hrange as (_ & Hr2 & Heps).
  pose proof (sparse_velocity_positive (beta_2 o) (epsilon o) v g
                Hr2 Heps Hv0) as Hpos.
  pose proof (maximum_positive vh _ Hpos) as Hpos'.
  pose proof (scatter_seq Rplus
                (zip_with Rplus m ((fun mi => - mi * (1 - beta_1 o)) <$> m))
                ((fun gi => gi * (1 - beta_1 o)) <$> g)) as Em.
  pose proof (scatter_seq Rplus
                (zip_with Rplus v ((fun vi => - vi * (1 - beta_2 o)) <$> v))
                ((fun gi => gi * gi * (1 - beta_2 o) + epsilon o) <$> g))
    as Ev.
  pose proof (scatter_seq (fun _ xi => xi) p g) as Ep.
  rewrite !length_zip_with, !length_fmap, !Nat.min_id in Em, Ev.
  replace (length m) with (length g) in Em by lia.
  replace (length v) with (length g) in Ev by lia.
  replace (length p) with (length g) in Ep by lia.
  specialize (Em eq_refl). specialize (Ev eq_refl).
  specialize (Ep eq_refl).
  unfold update_step.
  do 2 sparse_step. cbn [fst snd]. do 5 sparse_step.
  destruct (amsgrad o) eqn:Ea.
  - destruct (Hh eq_refl) as [Hvh Lvh].
    change (deref (SlotVhat index) (o, x) = Some vh) in Hvh.
    assert (Vvh : valid (SlotVhat index) (o, x)) by (eexists; eauto).
    destruct use.
    + rewrite Hw. repeat sparse_step. finish_sparse_entries.
    + repeat sparse_step. finish_sparse_entries.
  - destruct use.
    + rewrite Hw. repeat sparse_step. finish_sparse_entries.
    + repeat sparse_step. finish_sparse_entries.
Qed.

(** With the rows listed in ascending order the sparse and the dense path
    agree on momentum, velocity, prev_gradient and parameter. *)
Lemma sparse_in_order_matches_dense o x g index m v p w vh use :
  registered o x index m v p ->
  (amsgrad o = true -> registered_hat o x index vh) ->
  length g = length (value x) ->
  weight_decay o = PyFloat w ->
  _use_weight_decay re_search o x = Ok use ->
  hyperparameters_in_range o ->
  Forall (Rle 0) v ->
  exists sd ss,
    update_step re_search (Dense g) (o, x) = (Ok tt, sd) /\
    update_step re_search (IndexedSlices g (seq 0 (length g))) (o, x)
      = (Ok tt, ss) /\
    forall j, (j < length g)%nat ->
      entry (SlotM index) j ss = entry (SlotM index) j sd /\
      entry (SlotV index) j ss = entry (SlotV index) j sd /\
      entry (SlotP index) j ss = entry (SlotP index) j sd /\
      entry VarRef j ss = entry VarRef j sd.
Proof.
  intros Hreg Hhat Lg Hw Hu Hrange Hv0.
  destruct (update_step_dense_entries re_search o x g index m v p w vh use
              Hreg Hhat Lg Hw Hu Hrange Hv0) as (sd & Hd & Hde).
  destruct (update_step_sparse_in_order_entries o x g index m v p w vh use
              Hreg Hhat Lg Hw Hu Hrange Hv0) as (ss & Hs & Hse).
  exists sd, ss. split; [exact Hd |]. split; [exact Hs |].
  intros j Hj.
  destruct Hreg as (_ & _ & _ & _ & Lm & Lv & Lp).
  destruct (lookup_lt_is_Some_2 m j) as [mj Hmj]; [lia |].
  destruct (lookup_lt_is_Some_2 v j) as [vj Hvj]; [lia |].
  destruct (lookup_lt_is_Some_2 p j) as [pj Hpj]; [lia |].
  destruct (lookup_lt_is_Some_2 g j) as [gj Hgj]; [lia |].
  destruct (lookup_lt_is_Some_2 (value x) j) as [xj Hxj]; [lia |].
  assert (Hvh : exists vhj, amsgrad o = true -> vh !! j = Some vhj).
  { destruct (amsgrad o) eqn:Ea.
    - destruct (Hhat eq_refl) as [_ Lvh].
      destruct (lookup_lt_is_Some_2 vh j) as [vhj Hvhj]; [lia |].
      exists vhj. intros _. exact Hvhj.
    - exists 0. intros H. discriminate H. }
  destruct Hvh as [vhj Hvhj].
  destruct (Hde j mj vj pj gj xj vhj Hmj Hvj Hpj Hgj Hxj Hvhj)
    as (Dm & Dv & Dp & _ & Dx).
  destruct (Hse j mj vj pj gj xj vhj Hmj Hvj Hpj Hgj Hxj Hvhj)
    as (Sm & Sv & Sp & _ & Sx).
  cbv zeta in *. rewrite Dm, Dv, Dp, Dx, Sm, Sv, Sp, Sx. repeat split.
Qed.

End SparseInOrder.

(** ** The sparse path on concrete inputs *)

Lemma table_registered :
  registered table_engine table 0 [0; 0; 0] [0; 0; 0] [0; 0; 0].
Proof. repeat split; reflexivity. Qed.

Lemma warm_registered :
  registered warm_engine kernel 0
    [0; 0.1] [1e-16; 0.001 + 1e-16] [0; 1].
Proof. repeat split; reflexivity. Qed.

(** [warm_engine] holds, for [kernel], what a dense step with gradient
    [[0; 1]] stores in the freshly built default engine. *)
Lemma warm_engine_reached :
  exists s',
    update_step literal_search (Dense [0; 1])
      (built_engine default_engine, kernel) = (Ok tt, s') /\
    forall j mj vj pj,
      [0; 0.1] !! j = Some mj ->
      [1e-16; 0.001 + 1e-16] !! j = Some vj ->
      [0; 1] !! j = Some pj ->
      entry (SlotM 0) j s' = Some mj /\
      entry (SlotV 0) j s' = Some vj /\
      entry (SlotP 0) j s' = Some pj.
Proof.
  destruct (update_step_dense_entries literal_search
              (built_engine default_engine) kernel [0; 1] 0
              [0; 0] [0; 0] [0; 0] 0.004 [] true)
    as (s' & Hrun & Hent).
  - exact built_default_registered.
  - intros H; discriminate H.
  - reflexivity.
  - reflexivity.
  - reflexivity.
  - exact built_default_in_range.
  - repeat constructor; lra.
  - exists s'. split; [exact Hrun |].
    intros [| [| j]] mj vj pj Hm Hv Hp; try discriminate Hm;
      injection Hm as <-; injection Hv as <-; injection Hp as <-.
    + destruct (Hent 0%nat 0 0 0 0 1 0) as (Em & Ev & Ep & _);
        try reflexivity; try (intros H; discriminate H).
      cbv zeta in *. rewrite Em, Ev, Ep.
      change (beta_1 (built_engine default_engine)) with 0.9.
      change (beta_2 (built_engine default_engine)) with 0.999.
      change (epsilon (built_engine default_engine)) with 1e-16.
      repeat split; f_equal; lra.
    + destruct (Hent 1%nat 0 0 0 1 1 0) as (Em & Ev & Ep & _);
        try reflexivity; try (intros H; discriminate H).
      cbv zeta in *. rewrite Em, Ev, Ep.
      change (beta_1 (built_engine default_engine)) with 0.9.
      change (beta_2 (built_engine default_engine)) with 0.999.
      change (epsilon (built_engine default_engine)) with 1e-16.
      repeat split; f_equal; lra.
Qed.

(** C1 (the code departs from the claim).  A sparse step on a three-row
    parameter with two touched rows raises at [p - gradient.values], so no
    friction coefficient is computed and prev_gradient is not overwritten at
    the touched rows.  When the values cover both rows of a two-row parameter
    in the order row 1, row 0, the friction coefficient is taken row by
    position: row 1 receives the value 1 in its momentum, velocity and
    prev_gradient, but its stale prev_gradient is compared with the value 0
    that arrives for row 0. *)
Theorem sparse_friction_ignores_indices :
  (exists s',
     update_step literal_search (IndexedSlices [0.5; 0.5] [0%nat; 2%nat])
       (table_engine, table) = (Raise InvalidArgumentError, s') /\
     deref (SlotP 0) s' = Some [0; 0; 0]) /\
  touched_dfc [0; 0; 0] [0.5; 0.5] [0%nat; 2%nat]
    = Some [friction (0 - 0.5); friction (0 - 0.5)] /\
  sparse_dfc [0; 1] [1; 0] = Ok [friction (0 - 1); friction (1 - 0)] /\
  touched_dfc [0; 1] [1; 0] [1%nat; 0%nat]
    = Some [friction (1 - 1); friction (0 - 0)] /\
  friction (0 - 1) < friction (1 - 1) /\
  friction (1 - 0) < friction (0 - 0) /\
  exists s',
    update_step literal_search (IndexedSlices [1; 0] [1%nat; 0%nat])
      (warm_engine, kernel) = (Ok tt, s') /\
    deref (SlotP 0) s' = Some [0; 1] /\
    let o := warm_engine in
    let m1' := 0.1 + - (0.1) * (1 - beta_1 o) + 1 * (1 - beta_1 o) in
    let v1' := 0.001 + 1e-16 + - (0.001 + 1e-16) * (1 - beta_2 o)
               + (1 * 1 * (1 - beta_2 o) + epsilon o) in
    let decayed := 1 - 1 * 0.004 * learning_rate o in
    _use_weight_decay literal_search o kernel = Ok true /\
    entry VarRef 1 s' =
      Some (decayed - m1' * alpha_at o / (friction (1 - 0) * sqrt v1')).
Proof.
  split.
  { apply (update_step_sparse_mismatch literal_search table_engine table
             [0.5; 0.5] [0%nat; 2%nat] 0 [0; 0; 0] [0; 0; 0] [0; 0; 0] 0.004
             true).
    - exact table_registered.
    - reflexivity.
    - reflexivity.
    - reflexivity.
    - repeat constructor; simpl; lia.
    - simpl; lia.
    - simpl; lia.
    - simpl; lia. }
  split; [reflexivity |].
  split; [reflexivity |].
  split; [reflexivity |].
  split.
  { apply friction_decreasing.
    replace (1 - 1) with 0 by lra. replace (0 - 1) with (- (1)) by lra.
    rewrite Rabs_R0, Rabs_Ropp, Rabs_R1. lra. }
  split.
  { apply friction_decreasing.
    replace (0 - 0) with 0 by lra. replace (1 - 0) with 1 by lra.
    rewrite Rabs_R0, Rabs_R1. lra. }
  destruct (update_step_sparse_swapped literal_search warm_engine kernel 0
              0 0.1 1e-16 (0.001 + 1e-16) 0 1 1 1 1 0 0.004 true)
    as (s' & Hrun & _ & _ & Hp & Hx).
  - exact warm_registered.
  - reflexivity.
  - reflexivity.
  - reflexivity.
  - reflexivity.
  - apply default_hyperparameters_in_range; reflexivity.
  - lra.
  - lra.
  - exists s'. split; [exact Hrun |]. split; [exact Hp |].
    cbv zeta in *. split; [reflexivity |].
    unfold entry. rewrite Hx. reflexivity.
Qed.

(** ** Sparse against dense *)

Lemma exp_minus_one_le_half : exp (- (1)) <= 1 / 2.
Proof.
  rewrite exp_Ropp. pose proof (exp_ineq1_le 1) as H.
  assert (H2 : 2 <= exp 1) by lra.
  assert (Hi : / exp 1 <= / 2) by (apply Rinv_le_contravar; lra).
  lra.
Qed.

Lemma friction_minus_one : 1 < friction (0 - 1) <= 3 / 2.
Proof.
  split; [apply friction_gt_1 |].
  unfold friction. replace (0 - 1) with (- (1)) by lra.
  rewrite Rabs_Ropp, Rabs_R1. pose proof exp_minus_one_le_half. lra.
Qed.

(** Two updates with the same numerator and velocity, one with a friction
    coefficient of at most 3/2 and one with 2, differ by more than 1e-4 as
    soon as the undamped update is at least 9e-4. *)
Lemma friction_gap (X N S dd : R) :
  0 < S -> 9 / 10000 * S <= N -> 1 < dd -> dd <= 3 / 2 ->
  X - N / (dd * S) + 1 / 10000 < X - N / (2 * S).
Proof.
  intros HS HN Hd1 Hd2.
  assert (HT : 9 / 10000 <= N / S).
  { apply (Rmult_le_reg_r S); [exact HS |].
    replace (N / S * S) with N by (field; lra). exact HN. }
  assert (Hu : 2 / 3 <= / dd).
  { replace (2 / 3) with (/ (3 / 2)) by lra.
    apply Rinv_le_contravar; lra. }
  replace (N / (dd * S)) with (N / S * / dd) by (field; lra).
  replace (N / (2 * S)) with (N / S * / 2) by (field; lra).
  nra.
Qed.

Lemma default_first_step_scale :
  9 / 10000 * sqrt (0.001 + 1e-16)
  <= 0.1 * (0.001 * sqrt 0.001 / 0.1).
Proof.
  assert (H9 : sqrt (0.9 * 0.9) = 0.9) by (apply sqrt_square; lra).
  assert (Hm : sqrt (0.9 * 0.9 * (0.001 + 1e-16))
               = 0.9 * sqrt (0.001 + 1e-16)).
  { rewrite sqrt_mult by lra. rewrite H9. reflexivity. }
  assert (Hle : sqrt (0.9 * 0.9 * (0.001 + 1e-16)) <= sqrt 0.001)
    by (apply sqrt_le_1_alt; lra).
  replace (0.1 * (0.001 * sqrt 0.001 / 0.1)) with (0.001 * sqrt 0.001)
    by (field; lra).
  lra.
Qed.

(** C5 (the code departs from the claim).  On a freshly built default engine
    and the two-row parameter [kernel], the sparse gradient with values
    [[1; 0]] at indices [[1; 0]] covers both rows and stands for the dense
    gradient [[0; 1]].  Both steps return and store the same prev_gradient,
    but the parameter's row 1 after the dense step is more than 1e-4 below
    its value after the sparse step: the sparse path takes the friction
    coefficient of row 1 from the value of row 0. *)
Theorem sparse_full_cover_differs_from_dense :
  densify 2 [1; 0] [1%nat; 0%nat] = [0; 1] /\
  exists sd ss,
    update_step literal_search (Dense [0; 1])
      (built_engine default_engine, kernel) = (Ok tt, sd) /\
    update_step literal_search (IndexedSlices [1; 0] [1%nat; 0%nat])
      (built_engine default_engine, kernel) = (Ok tt, ss) /\
    entry (SlotP 0) 0 sd = Some 0 /\ entry (SlotP 0) 0 ss = Some 0 /\
    entry (SlotP 0) 1 sd = Some 1 /\ entry (SlotP 0) 1 ss = Some 1 /\
    exists xd xs,
      entry VarRef 1 sd = Some xd /\
      entry VarRef 1 ss = Some xs /\
      xd + 1 / 10000 < xs.
Proof.
  split; [reflexivity |].
  destruct (update_step_dense_entries literal_search
              (built_engine default_engine) kernel [0; 1] 0
              [0; 0] [0; 0] [0; 0] 0.004 [] true)
    as (sd & Hd & Hent);
    [exact built_default_registered | intros H; discriminate H
    | reflexivity | reflexivity | reflexivity
    | exact built_default_in_range | repeat constructor; lra |].
  destruct (update_step_sparse_swapped literal_search
              (built_engine default_engine) kernel 0
              0 0 0 0 0 0 1 1 1 0 0.004 true)
    as (ss & Hs & _ & _ & Hp & Hx);
    [exact built_default_registered | reflexivity | reflexivity
    | reflexivity | reflexivity | exact built_default_in_range
    | lra | lra |].
  exists sd, ss. split; [exact Hd |]. split; [exact Hs |].
  destruct (Hent 0%nat 0 0 0 0 1 0) as (_ & _ & Ep0 & _);
    try reflexivity; try (intros H; discriminate H).
  destruct (Hent 1%nat 0 0 0 1 1 0) as (_ & _ & Ep1 & _ & Ex1);
    try reflexivity; try (intros H; discriminate H).
  split; [exact Ep0 |].
  split; [unfold entry; rewrite Hp; reflexivity |].
  split; [exact Ep1 |].
  split; [unfold entry; rewrite Hp; reflexivity |].
  cbv zeta in *.
  eexists _, _. split; [exact Ex1 |].
  split; [unfold entry; rewrite Hx; reflexivity |].
  change (amsgrad (built_engine default_engine)) with false. cbv iota.
  unfold alpha_at.
  change (learning_rate (built_engine default_engine)) with 0.001.
  change (beta_1 (built_engine default_engine)) with 0.9.
  change (beta_2 (built_engine default_engine)) with 0.999.
  change (epsilon (built_engine default_engine)) with 1e-16.
  change (iterations (built_engine default_engine)) with 0%nat.
  set (X := 1 - 1 * 0.004 * 0.001).
  replace (0 + (1 - 0) * (1 - 0.9)) with 0.1 by lra.
  replace (0 + - 0 * (1 - 0.9) + 1 * (1 - 0.9)) with 0.1 by lra.
  replace (0 + ((1 * 1 - 0) * (1 - 0.999) + 1e-16))
    with (0.001 + 1e-16) by lra.
  replace (0 + - 0 * (1 - 0.999) + (1 * 1 * (1 - 0.999) + 1e-16))
    with (0.001 + 1e-16) by lra.
  replace (1 - 0.999 ^ 1) with 0.001 by (simpl; lra).
  replace (1 - 0.9 ^ 1) with 0.1 by (simpl; lra).
  replace (friction (0 - 0)) with 2
    by (replace (0 - 0) with 0 by lra; symmetry; apply friction_zero).
  apply friction_gap.
  - apply sqrt_lt_R0. lra.
  - exact default_first_step_scale.
  - apply friction_minus_one.
  - apply friction_minus_one.
Qed.

(** * Further properties *)

(** ** What a step leaves alone *)

Lemma same_settings_refl o : same_settings o o.
Proof. repeat split. Qed.

Lemma same_settings_trans o1 o2 o3 :
  same_settings o1 o2 -> same_settings o2 o3 -> same_settings o1 o3.
Proof.
  unfold same_settings. intros H12 H23.
  repeat match goal with H : _ /\ _ |- _ => destruct H end.
  repeat split; congruence.
Qed.

Lemma only_slot_changed_refl index s : only_slot_changed index s s.
Proof. repeat split. Qed.

Lemma only_slot_changed_trans index s1 s2 s3 :
  only_slot_changed index s1 s2 -> only_slot_changed index s2 s3 ->
  only_slot_changed index s1 s3.
Proof.
  intros (A1 & K1 & N1 & F1) (A2 & K2 & N2 & F2).
  split; [eapply same_settings_trans; eassumption |].
  split; [congruence |]. split; [congruence |].
  intros j Hj. rewrite (F2 j Hj). apply F1, Hj.
Qed.

Lemma only_slot_changed_write index r t s :
  in_slot index r = true -> only_slot_changed index s (write r t s).
Proof.
  intros Hr. unfold only_slot_changed, slot_tensors.
  destruct r as [| i | i | i | i]; simpl in Hr;
    try (apply bool_decide_eq_true in Hr; subst i); simpl.
  - repeat split.
  - repeat split; intros j Hj.
    rewrite list_lookup_insert_ne by congruence. reflexivity.
  - repeat split; intros j Hj.
    rewrite list_lookup_insert_ne by congruence. reflexivity.
  - repeat split; intros j Hj.
    rewrite list_lookup_insert_ne by congruence. reflexivity.
  - destruct (_velocity_hats s.1) as [l |] eqn:E; simpl; rewrite ?E; simpl.
    + repeat split; intros j Hj.
      rewrite list_lookup_insert_ne by congruence. reflexivity.
    + repeat split.
Qed.

(** As [keeps_with], for writes whose side condition is decided by
    [bool_decide]. *)
Ltac keeps_in_slot Hrefl Htrans Hwrite :=
  repeat first
    [ apply (keeps_getitem_bind _ Hrefl)
    | apply (keeps_gets _ Hrefl)
    | apply (keeps_mret _ Hrefl)
    | apply (keeps_lift _ Hrefl)
    | apply (keeps_raise _ Hrefl)
    | apply (keeps_cast_float _ Hrefl)
    | apply (keeps_getitem_index_dict _ Hrefl)
    | apply (keeps_read _ Hrefl)
    | apply (keeps_assign _ _ Hrefl Htrans Hwrite);
      first [reflexivity | apply bool_decide_eq_true; reflexivity]
    | apply (keeps_assign_add _ _ Hrefl Htrans Hwrite);
      first [reflexivity | apply bool_decide_eq_true; reflexivity]
    | apply (keeps_assign_sub _ _ Hrefl Htrans Hwrite);
      first [reflexivity | apply bool_decide_eq_true; reflexivity]
    | apply (keeps_scatter_add _ _ Hrefl Htrans Hwrite);
      first [reflexivity | apply bool_decide_eq_true; reflexivity]
    | apply (keeps_scatter_update _ _ Hrefl Htrans Hwrite);
      first [reflexivity | apply bool_decide_eq_true; reflexivity]
    | apply (keeps_bind _ Htrans); [| intros ?]
    | match goal with
      | |- keeps _ (if ?b then _ else _) => destruct b
      | |- keeps _ (match ?g with
                    | Dense _ => _
                    | IndexedSlices _ _ => _
                    end) => destruct g
      end ].

Section StepFrame.

Variable re_search : string -> string -> bool.

(** A step on a variable of slot [index] changes nothing but that slot and
    the variable's contents. *)
Lemma update_step_only_slot g o x index :
  _index_dict o !! var_key x = Some index ->
  only_slot_changed index (o, x) (update_step re_search g (o, x)).2.
Proof.
  intros Hi. unfold update_step.
  do 2 step. cbn [fst snd]. step.
  lazymatch goal with
  | |- only_slot_changed _ ?s0 (snd (?c ?s0)) =>
      cut (keeps (only_slot_changed index) c);
      [intros Hk; exact (Hk s0) |]
  end.
  keeps_in_slot (only_slot_changed_refl index)
    (only_slot_changed_trans index) (only_slot_changed_write index).
Qed.

(** Without an entry in [_index_dict] the step raises at the lookup, before
    anything is written. *)
Lemma update_step_key_error g o x :
  _index_dict o !! var_key x = None ->
  update_step re_search g (o, x) = (Raise KeyError, (o, x)).
Proof.
  intros Hi. unfold update_step.
  do 2 step. cbn [fst snd].
  erewrite run_bind_raise; [reflexivity |].
  unfold getitem_index_dict. cbn [fst]. now rewrite Hi.
Qed.

End StepFrame.

(** ** Shapes *)

Section ShapeFrame.

Variable R : St -> St -> Prop.
Hypothesis R_refl : forall s, R s s.
Hypothesis R_trans : forall s1 s2 s3, R s1 s2 -> R s2 s3 -> R s1 s3.
Hypothesis R_write_same_shape :
  forall r t s u, deref r s = Some u -> length t = length u ->
                  R s (write r t s).

Lemma shape_assign r x : keeps R (assign r x).
Proof.
  intros s. unfold assign, mbind, M_mbind, M_bind, read.
  destruct (deref r s) as [t |] eqn:E; [| apply R_refl].
  destruct (decide (length x = length t)) as [L | L]; [| apply R_refl].
  apply (R_write_same_shape r x s t E L).
Qed.

Lemma shape_assign_add r x : keeps R (assign_add r x).
Proof.
  intros s. unfold assign_add, mbind, M_mbind, M_bind, read.
  destruct (deref r s) as [t |] eqn:E; [| apply R_refl].
  destruct (decide (length x = length t)) as [L | L]; [| apply R_refl].
  apply (R_write_same_shape r _ s t E). rewrite length_zip_with. lia.
Qed.

Lemma shape_assign_sub r x : keeps R (assign_sub r x).
Proof.
  intros s. unfold assign_sub, mbind, M_mbind, M_bind, read.
  destruct (deref r s) as [t |] eqn:E; [| apply R_refl].
  destruct (decide (length x = length t)) as [L | L]; [| apply R_refl].
  apply (R_write_same_shape r _ s t E). rewrite length_zip_with. lia.
Qed.

Lemma shape_scatter_add r values indices :
  keeps R (scatter_add r values indices).
Proof.
  intros s. unfold scatter_add, mbind, M_mbind, M_bind, read, lift.
  destruct (deref r s) as [t |] eqn:E; [| apply R_refl].
  destruct (scatter Rplus t values indices) as [t' | e] eqn:Es;
    [| apply R_refl].
  apply (R_write_same_shape r t' s t E). eapply scatter_length, Es.
Qed.

Lemma shape_scatter_update r values indices :
  keeps R (scatter_update r values indices).
Proof.
  intros s. unfold scatter_update, mbind, M_mbind, M_bind, read, lift.
  destruct (deref r s) as [t |] eqn:E; [| apply R_refl].
  destruct (scatter (fun _ x => x) t values indices) as [t' | e] eqn:Es;
    [| apply R_refl].
  apply (R_write_same_shape r t' s t E). eapply scatter_length, Es.
Qed.

End ShapeFrame.

Ltac keeps_shape Hrefl Htrans Hwrite :=
  repeat first
    [ apply (keeps_getitem_bind _ Hrefl)
    | apply (keeps_gets _ Hrefl)
    | apply (keeps_mret _ Hrefl)
    | apply (keeps_lift _ Hrefl)
    | apply (keeps_raise _ Hrefl)
    | apply (keeps_cast_float _ Hrefl)
    | apply (keeps_getitem_index_dict _ Hrefl)
    | apply (keeps_read _ Hrefl)
    | apply (shape_assign _ Hrefl Hwrite)
    | apply (shape_assign_add _ Hrefl Hwrite)
    | apply (shape_assign_sub _ Hrefl Hwrite)
    | apply (shape_scatter_add _ Hrefl Hwrite)
    | apply (shape_scatter_update _ Hrefl Hwrite)
    | apply (keeps_bind _ Htrans); [| intros ?]
    | match goal with
      | |- keeps _ (if ?b then _ else _) => destruct b
      | |- keeps _ (match ?g with
                    | Dense _ => _
                    | IndexedSlices _ _ => _
                    end) => destruct g
      end ].

Lemma shapes_kept_refl s : shapes_kept s s.
Proof. intros r. reflexivity. Qed.

Lemma shapes_kept_trans s1 s2 s3 :
  shapes_kept s1 s2 -> shapes_kept s2 s3 -> shapes_kept s1 s3.
Proof. intros H12 H23 r. rewrite (H23 r). apply H12. Qed.

Lemma shapes_kept_write r t s u :
  deref r s = Some u -> length t = length u -> shapes_kept s (write r t s).
Proof.
  intros E L r'. destruct (decide (r = r')) as [<- | N].
  - rewrite deref_write_eq by (eexists; exact E). rewrite E. simpl.
    now rewrite L.
  - rewrite deref_write_ne by exact N. reflexivity.
Qed.

Lemma update_step_shapes (re_search : string -> string -> bool) g :
  keeps shapes_kept (update_step re_search g).
Proof.
  unfold update_step.
  keeps_shape shapes_kept_refl shapes_kept_trans shapes_kept_write.
Qed.

(** X3. Whatever the gradient, and whether the step returns or raises, a
    step on a registered variable changes nothing but the state tensors of
    that variable's slot and the variable's contents: hyperparameters, step
    counter, built flag, index and exclusion sets, the variable's identity and
    name and the tensors of every other slot are as before, every tensor
    keeps its shape, and the variable is still registered afterwards. *)
Theorem update_step_touches_own_slot_only
    (re_search : string -> string -> bool) g o x index m v p :
  registered o x index m v p ->
  only_slot_changed index (o, x) (update_step re_search g (o, x)).2 /\
  shapes_kept (o, x) (update_step re_search g (o, x)).2 /\
  exists m' v' p',
    registered (update_step re_search g (o, x)).2.1
      (update_step re_search g (o, x)).2.2 index m' v' p' /\
    length (value (update_step re_search g (o, x)).2.2) = length (value x).
Proof.
  intros (Hi & Hm & Hv & Hp & Lm & Lv & Lp).
  pose proof (update_step_only_slot re_search g o x index Hi) as Hf.
  pose proof (update_step_shapes re_search g (o, x)) as Hs.
  set (s' := (update_step re_search g (o, x)).2) in *.
  split; [exact Hf |]. split; [exact Hs |].
  destruct Hf as (Hset & Hk & _ & _).
  pose proof (Hs (SlotM index)) as Sm. pose proof (Hs (SlotV index)) as Sv.
  pose proof (Hs (SlotP index)) as Sp. pose proof (Hs VarRef) as Sx.
  cbn [deref fst snd] in Sm, Sv, Sp, Sx. rewrite Hm in Sm. rewrite Hv in Sv.
  rewrite Hp in Sp.
  destruct (_momentums s'.1 !! index) as [m' |] eqn:Em; [| discriminate].
  destruct (_velocities s'.1 !! index) as [v' |] eqn:Ev; [| discriminate].
  destruct (_prev_gradients s'.1 !! index) as [p' |] eqn:Ep;
    [| discriminate].
  simpl in Sm, Sv, Sp, Sx.
  injection Sm as Sm. injection Sv as Sv. injection Sp as Sp.
  injection Sx as Sx.
  exists m', v', p'. split; [| exact Sx].
  destruct Hset as (_ & _ & _ & _ & _ & _ & _ & _ & Hd & _).
  repeat split; try assumption; try lia.
  rewrite Hd, Hk. exact Hi.
Qed.

Lemma update_step_touches_own_slot_only_witness :
  let s' :=
    (update_step literal_search (IndexedSlices [0.5; 0.5] [0%nat; 2%nat])
       (table_engine, table)).2 in
  only_slot_changed 0 (table_engine, table) s' /\
  shapes_kept (table_engine, table) s' /\
  exists m' v' p',
    registered s'.1 s'.2 0 m' v' p' /\
    length (value s'.2) = length (value table).
Proof.
  apply (update_step_touches_own_slot_only literal_search
           (IndexedSlices [0.5; 0.5] [0%nat; 2%nat]) table_engine table 0
           [0; 0; 0] [0; 0; 0] [0; 0; 0]).
  exact table_registered.
Defined.

(** ** What [build] establishes *)

Lemma build_index_dict_not_in vl i d k :
  k ∉ (var_key <$> vl) -> build_index_dict vl i d !! k = d !! k.
Proof.
  revert i d. induction vl as [| var vl IH]; intros i d Hk; simpl.
  - reflexivity.
  - rewrite fmap_cons in Hk. apply not_elem_of_cons in Hk as [Hne Hk].
    rewrite IH by exact Hk. apply lookup_insert_ne. congruence.
Qed.

Lemma build_index_dict_position vl i d pos x :
  NoDup (var_key <$> vl) -> vl !! pos = Some x ->
  build_index_dict vl i d !! var_key x = Some (i + pos)%nat.
Proof.
  revert i d pos. induction vl as [| var vl IH]; intros i d pos Hnd Hx.
  - discriminate.
  - rewrite fmap_cons in Hnd. apply NoDup_cons in Hnd as [Hnotin Hnd].
    destruct pos as [| pos]; simpl in *.
    + injection Hx as ->. rewrite build_index_dict_not_in by exact Hnotin.
      rewrite lookup_insert_eq. f_equal. lia.
    + rewrite (IH (S i) _ pos Hnd Hx). f_equal. lia.
Qed.

(** X1. The first [build] registers every variable of its list: with
    distinct identities, the variable at position [i] gets slot [i], whose
    momentum, velocity and prev_gradient are zero tensors of the variable's
    shape; there is one tensor per listed variable in each list; the
    velocity_hat list is created, with zero tensors, exactly when AMSGrad is
    on. *)
Theorem build_registers_zero_state (vl : list TfVariable) (o : DiffGrad)
    (i : nat) (x : TfVariable) :
  is_built o = false ->
  NoDup (var_key <$> vl) ->
  vl !! i = Some x ->
  let o' := (build vl o).2 in
  registered o' x i (zeros_like (value x)) (zeros_like (value x))
    (zeros_like (value x)) /\
  length (_momentums o') = length vl /\
  length (_velocities o') = length vl /\
  length (_prev_gradients o') = length vl /\
  same_settings (set_index_dict (_index_dict o') (set_built true o)) o' /\
  (if amsgrad o
   then registered_hat o' x i (zeros_like (value x)) /\
        length <$> _velocity_hats o' = Some (length vl)
   else _velocity_hats o' = _velocity_hats o).
Proof.
  intros Hb Hnd Hx. cbv zeta. rewrite (build_fresh vl o Hb). cbv zeta.
  assert (Hz : (add_variable_from_reference <$> vl) !! i
               = Some (zeros_like (value x))).
  { rewrite list_lookup_fmap, Hx. reflexivity. }
  assert (Hd : build_index_dict vl 0 ∅ !! var_key x = Some i).
  { rewrite (build_index_dict_position vl 0 ∅ i x Hnd Hx). reflexivity. }
  assert (Lz : length (zeros_like (value x)) = length (value x))
    by apply length_fmap.
  destruct (amsgrad o) eqn:Ea; cbn [snd];
    unfold registered, registered_hat; simpl; rewrite ?length_fmap;
    repeat split; try assumption.
Qed.

Lemma build_registers_zero_state_witness :
  let o' := (build [kernel; bias] default_engine).2 in
  registered o' bias 1 (zeros_like (value bias)) (zeros_like (value bias))
    (zeros_like (value bias)) /\
  length (_momentums o') = length [kernel; bias] /\
  length (_velocities o') = length [kernel; bias] /\
  length (_prev_gradients o') = length [kernel; bias] /\
  same_settings
    (set_index_dict (_index_dict o') (set_built true default_engine)) o' /\
  (if amsgrad default_engine
   then registered_hat o' bias 1 (zeros_like (value bias)) /\
        length <$> _velocity_hats o' = Some (length [kernel; bias])
   else _velocity_hats o' = _velocity_hats default_engine).
Proof.
  apply (build_registers_zero_state [kernel; bias] default_engine 1 bias).
  - reflexivity.
  - apply (bool_decide_unpack _). reflexivity.
  - reflexivity.
Defined.

(** X2. A variable that the first [build] did not list is never registered:
    a later [build] with a longer list is a no-op, and a step on such a
    variable raises [KeyError] at the lookup of its slot, leaving the engine
    and the variable as they were.  The same holds in every built engine
    whose index has no entry for the variable. *)
Theorem update_step_unregistered_raises
    (re_search : string -> string -> bool) (g : Gradient)
    (vl vl' : list TfVariable) (o : DiffGrad) (x : TfVariable) :
  is_built o = false ->
  var_key x ∉ (var_key <$> vl) ->
  let o2 := (build vl' (build vl o).2).2 in
  update_step re_search g (o2, x) = (Raise KeyError, (o2, x)) /\
  (forall o', is_built o' = true -> _index_dict o' !! var_key x = None ->
     update_step re_search g (o', x) = (Raise KeyError, (o', x))).
Proof.
  intros Hb Hx. cbv zeta. split.
  - destruct (build_returns_built vl o) as [_ Hb1].
    rewrite (build_when_built vl' _ Hb1). cbn [snd].
    apply update_step_key_error.
    rewrite (build_fresh vl o Hb). cbv zeta.
    assert (Hd : build_index_dict vl 0 ∅ !! var_key x = None).
    { rewrite build_index_dict_not_in by exact Hx. apply lookup_empty. }
    destruct (amsgrad o); exact Hd.
  - intros o' _ Hd. apply update_step_key_error, Hd.
Qed.

Lemma update_step_unregistered_raises_witness :
  let o2 :=
    (build [kernel; bias; table]
       (build [kernel; bias] default_engine).2).2 in
  update_step literal_search (Dense [0; 0; 0]) (o2, table)
    = (Raise KeyError, (o2, table)) /\
  (forall o', is_built o' = true -> _index_dict o' !! var_key table = None ->
     update_step literal_search (Dense [0; 0; 0]) (o', table)
       = (Raise KeyError, (o', table))).
Proof.
  apply (update_step_unregistered_raises literal_search (Dense [0; 0; 0])
           [kernel; bias] [kernel; bias; table] default_engine table).
  - reflexivity.
  - apply (bool_decide_unpack _). reflexivity.
Defined.

(** ** The size of a dense step *)

Lemma damped_step (num root dfc : R) :
  0 < root -> 1 < dfc -> dfc <= 2 ->
  num / (dfc * root) * dfc = num / root /\
  Rabs (num / (dfc * root)) <= Rabs (num / root) /\
  Rabs (num / root) <= 2 * Rabs (num / (dfc * root)) /\
  0 <= num / (dfc * root) * (num / root).
Proof.
  intros Hr Hd1 Hd2.
  assert (E : num / (dfc * root) * dfc = num / root) by (field; lra).
  split; [exact E |].
  assert (Ea : Rabs (num / root) = Rabs (num / (dfc * root)) * dfc).
  { rewrite <- E, Rabs_mult. f_equal. apply Rabs_pos_eq. lra. }
  pose proof (Rabs_pos (num / (dfc * root))) as Hp.
  set (a := Rabs (num / (dfc * root))) in *.
  assert (H1 : 0 <= a * (dfc - 1)) by (apply Rmult_le_pos; lra).
  assert (H2 : 0 <= a * (2 - dfc)) by (apply Rmult_le_pos; lra).
  split; [lra |]. split; [lra |].
  rewrite <- E. set (q := num / (dfc * root)).
  replace (q * (q * dfc)) with (q * q * dfc) by ring.
  apply Rmult_le_pos; [apply Rle_0_sqr | lra].
Qed.

(** X4. On a dense step that gets past the membership test, with [beta_1]
    in [[0, 1)], [beta_2] in [[0, 1]], [epsilon > 0] and a velocity without
    negative entries, the new velocity is at least [epsilon], so the divisor
    [dfc * sqrt velocity_used] is positive; and the step taken is the
    undamped step [new_momentum * alpha / sqrt velocity_used] divided by the
    friction coefficient: it has the sign of the undamped step and between
    half and the whole of its size. *)
Theorem dense_step_is_damped (re_search : string -> string -> bool)
    o x g index m v p w vh use :
  registered o x index m v p ->
  (amsgrad o = true -> registered_hat o x index vh) ->
  length g = length (value x) ->
  weight_decay o = PyFloat w ->
  _use_weight_decay re_search o x = Ok use ->
  hyperparameters_in_range o ->
  Forall (Rle 0) v ->
  exists s', update_step re_search (Dense g) (o, x) = (Ok tt, s') /\
    forall j mj vj pj gj xj vhj,
      m !! j = Some mj -> v !! j = Some vj -> p !! j = Some pj ->
      g !! j = Some gj -> value x !! j = Some xj ->
      (amsgrad o = true -> vh !! j = Some vhj) ->
      let m' := mj + (gj - mj) * (1 - beta_1 o) in
      let v' := vj + ((gj * gj - vj) * (1 - beta_2 o) + epsilon o) in
      let v_used := if amsgrad o then Rmax vhj v' else v' in
      let x_wd := if use then xj - xj * w * learning_rate o else xj in
      let undamped := m' * alpha_at o / sqrt v_used in
      entry (SlotV index) j s' = Some v' /\
      epsilon o <= v' /\
      0 < friction (pj - gj) * sqrt v_used /\
      exists step,
        entry VarRef j s' = Some (x_wd - step) /\
        step * friction (pj - gj) = undamped /\
        Rabs step <= Rabs undamped /\
        Rabs undamped <= 2 * Rabs step /\
        0 <= step * undamped.
Proof.
  intros Hreg Hhat Lg Hw Hu Hrange Hv.
  destruct (update_step_dense_entries re_search o x g index m v p w vh use
              Hreg Hhat Lg Hw Hu Hrange Hv) as (s' & Hrun & Hent).
  exists s'. split; [exact Hrun |].
  intros j mj vj pj gj xj vhj Hmj Hvj Hpj Hgj Hxj Hvhj.
  destruct (Hent j mj vj pj gj xj vhj Hmj Hvj Hpj Hgj Hxj Hvhj)
    as (_ & Ev & _ & _ & Ex).
  cbv zeta in *.
  destruct Hrange as (_ & Hb2 & Heps).
  pose proof (Forall_lookup_1 _ _ _ _ Hv Hvj) as Hv0. simpl in Hv0.
  pose proof (new_velocity_ge_epsilon vj gj (beta_2 o) (epsilon o) Hv0 Hb2)
    as Hge.
  set (v' := vj + ((gj * gj - vj) * (1 - beta_2 o) + epsilon o)) in *.
  set (v_used := if amsgrad o then Rmax vhj v' else v') in *.
  assert (Hu' : 0 < v_used).
  { unfold v_used. destruct (amsgrad o); [| lra].
    pose proof (Rmax_r vhj v'). lra. }
  assert (Hroot : 0 < sqrt v_used) by (apply sqrt_lt_R0; exact Hu').
  pose proof (friction_gt_1 (pj - gj)) as Hd1.
  pose proof (friction_le_2 (pj - gj)) as Hd2.
  split; [exact Ev |]. split; [exact Hge |].
  split; [apply Rmult_lt_0_compat; lra |].
  set (num := (mj + (gj - mj) * (1 - beta_1 o)) * alpha_at o) in *.
  destruct (damped_step num (sqrt v_used) (friction (pj - gj)) Hroot Hd1 Hd2)
    as (E1 & E2 & E3 & E4).
  exists (num / (friction (pj - gj) * sqrt v_used)).
  repeat split; assumption.
Qed.

Lemma dense_step_is_damped_witness :
  exists s',
    update_step literal_search (Dense [0.1; 0.2])
      (built_engine default_engine, kernel) = (Ok tt, s') /\
    forall j mj vj pj gj xj vhj,
      [0; 0] !! j = Some mj -> [0; 0] !! j = Some vj ->
      [0; 0] !! j = Some pj ->
      [0.1; 0.2] !! j = Some gj -> value kernel !! j = Some xj ->
      (amsgrad (built_engine default_engine) = true ->
       @nil R !! j = Some vhj) ->
      let o := built_engine default_engine in
      let m' := mj + (gj - mj) * (1 - beta_1 o) in
      let v' := vj + ((gj * gj - vj) * (1 - beta_2 o) + epsilon o) in
      let v_used := if amsgrad o then Rmax vhj v' else v' in
      let x_wd := if true then xj - xj * 0.004 * learning_rate o else xj in
      let undamped := m' * alpha_at o / sqrt v_used in
      entry (SlotV 0) j s' = Some v' /\
      epsilon o <= v' /\
      0 < friction (pj - gj) * sqrt v_used /\
      exists step,
        entry VarRef j s' = Some (x_wd - step) /\
        step * friction (pj - gj) = undamped /\
        Rabs step <= Rabs undamped /\
        Rabs undamped <= 2 * Rabs step /\
        0 <= step * undamped.
Proof.
  apply (dense_step_is_damped literal_search (built_engine default_engine)
           kernel [0.1; 0.2] 0 [0; 0] [0; 0] [0; 0] 0.004 [] true).
  - exact built_default_registered.
  - intros H. discriminate H.
  - reflexivity.
  - reflexivity.
  - reflexivity.
  - exact built_default_in_range.
  - repeat constructor; lra.
Defined.

(** X5. With [weight_decay = 0] the decay stage leaves the parameter as it
    is: on a dense step that gets past the membership test and whose
    arithmetic is defined, a variable changes by the gradient term alone,
    whether the test excludes it or not. *)
Theorem zero_weight_decay_disables_decay
    (re_search : string -> string -> bool) o x g index m v p vh use :
  registered o x index m v p ->
  (amsgrad o = true -> registered_hat o x index vh) ->
  length g = length (value x) ->
  weight_decay o = PyFloat 0 ->
  _use_weight_decay re_search o x = Ok use ->
  hyperparameters_in_range o ->
  Forall (Rle 0) v ->
  exists s', update_step re_search (Dense g) (o, x) = (Ok tt, s') /\
    forall j mj vj pj gj xj vhj,
      m !! j = Some mj -> v !! j = Some vj -> p !! j = Some pj ->
      g !! j = Some gj -> value x !! j = Some xj ->
      (amsgrad o = true -> vh !! j = Some vhj) ->
      let m' := mj + (gj - mj) * (1 - beta_1 o) in
      let v' := vj + ((gj * gj - vj) * (1 - beta_2 o) + epsilon o) in
      let v_used := if amsgrad o then Rmax vhj v' else v' in
      entry VarRef j s' =
        Some (xj - m' * alpha_at o / (friction (pj - gj) * sqrt v_used)).
Proof.
  intros Hreg Hhat Lg Hw Hu Hrange Hv.
  destruct (update_step_dense_entries re_search o x g index m v p 0 vh use
              Hreg Hhat Lg Hw Hu Hrange Hv) as (s' & Hrun & Hent).
  exists s'. split; [exact Hrun |].
  intros j mj vj pj gj xj vhj Hmj Hvj Hpj Hgj Hxj Hvhj.
  destruct (Hent j mj vj pj gj xj vhj Hmj Hvj Hpj Hgj Hxj Hvhj)
    as (_ & _ & _ & _ & Ex).
  cbv zeta in *. rewrite Ex.
  destruct use; [| reflexivity].
  replace (xj - xj * 0 * learning_rate o) with xj by ring. reflexivity.
Qed.

Lemma no_decay_registered :
  registered no_decay_engine kernel 0 [0; 0] [0; 0] [0; 0].
Proof. repeat split; reflexivity. Qed.

Lemma zero_weight_decay_disables_decay_witness :
  exists s',
    update_step literal_search (Dense [0.1; 0.2]) (no_decay_engine, kernel)
      = (Ok tt, s') /\
    forall j mj vj pj gj xj vhj,
      [0; 0] !! j = Some mj -> [0; 0] !! j = Some vj ->
      [0; 0] !! j = Some pj ->
      [0.1; 0.2] !! j = Some gj -> value kernel !! j = Some xj ->
      (amsgrad no_decay_engine = true -> @nil R !! j = Some vhj) ->
      let o := no_decay_engine in
      let m' := mj + (gj - mj) * (1 - beta_1 o) in
      let v' := vj + ((gj * gj - vj) * (1 - beta_2 o) + epsilon o) in
      let v_used := if amsgrad o then Rmax vhj v' else v' in
      entry VarRef j s' =
        Some (xj - m' * alpha_at o / (friction (pj - gj) * sqrt v_used)).
Proof.
  apply (zero_weight_decay_disables_decay literal_search no_decay_engine
           kernel [0.1; 0.2] 0 [0; 0] [0; 0] [0; 0] [] true).
  - exact no_decay_registered.
  - intros H. discriminate H.
  - reflexivity.
  - reflexivity.
  - reflexivity.
  - apply default_hyperparameters_in_range; reflexivity.
  - repeat constructor; lra.
Defined.

(** ** Exclusions and [build] *)

Lemma build_keeps_exclusions vl o :
  _exclude_from_weight_decay (build vl o).2 = _exclude_from_weight_decay o /\
  _exclude_from_weight_decay_names (build vl o).2
    = _exclude_from_weight_decay_names o.
Proof.
  destruct (is_built o) eqn:Hb.
  - rewrite (build_when_built vl o Hb). split; reflexivity.
  - rewrite (build_fresh vl o Hb). cbv zeta.
    destruct (amsgrad o); split; reflexivity.
Qed.

(** X6. The exclusions configured before [build] are in force after it.
    After [exclude_from_weight_decay(var_list, var_names)] on an engine that
    is not built, followed by [build], the membership test of the
    weight-decay stage gives what it gave before [build], value or exception.
    With both arguments left out every variable is decayed.  A variable of
    [var_list] is not decayed when the test passes over the elements before
    it.  When the test passes over the whole list, the variable is decayed
    exactly when [re.search] finds none of the patterns in its name.  And the
    test raises [ValueError] when it reaches another variable of the same
    shape with more than one entry. *)
Theorem exclusions_in_force_after_build
    (re_search : string -> string -> bool) (o : DiffGrad)
    (var_list : option (list TfVariable)) (var_names : option (list string))
    (vl : list TfVariable) (x : TfVariable) :
  is_built o = false ->
  let o1 := (exclude_from_weight_decay var_list var_names o).2 in
  let o2 := (build vl o1).2 in
  _use_weight_decay re_search o2 x = _use_weight_decay re_search o1 x /\
  (var_list = None -> var_names = None ->
   _use_weight_decay re_search o2 x = Ok true) /\
  (forall pre post,
     default [] var_list = pre ++ x :: post ->
     Forall (passed_over x) pre ->
     _use_weight_decay re_search o2 x = Ok false) /\
  (Forall (passed_over x) (default [] var_list) ->
   _use_weight_decay re_search o2 x
   = Ok (negb (existsb (fun pat => re_search pat (name x))
                 (default [] var_names)))) /\
  (forall pre e post,
     default [] var_list = pre ++ e :: post ->
     Forall (passed_over x) pre ->
     var_key e <> var_key x ->
     length (value e) = length (value x) ->
     (2 <= length (value x))%nat ->
     _use_weight_decay re_search o2 x = Raise ValueError).
Proof.
  intros Hb. cbv zeta.
  destruct (build_keeps_exclusions vl
              (exclude_from_weight_decay var_list var_names o).2) as [E1 E2].
  rewrite (use_weight_decay_ext re_search _ _ x E1 E2).
  rewrite (exclude_when_not_built var_list var_names o Hb). cbn [snd].
  set (o1 := set_exclude_from_weight_decay_names (or_empty var_names)
               (set_exclude_from_weight_decay (or_empty var_list) o)).
  assert (L1 : default [] (_exclude_from_weight_decay o1)
               = default [] var_list) by (destruct o; reflexivity).
  assert (L2 : default [] (_exclude_from_weight_decay_names o1)
               = default [] var_names) by (destruct o; reflexivity).
  split; [reflexivity |].
  split.
  { intros -> ->. destruct o; reflexivity. }
  split.
  { intros pre post E H.
    apply (use_weight_decay_listed re_search o1 x pre post);
      [rewrite L1; exact E | exact H]. }
  split.
  { intros H. rewrite <- L2.
    apply use_weight_decay_by_name. rewrite L1. exact H. }
  intros pre e post E H Hn L H2.
  apply (use_weight_decay_raises re_search o1 x pre e post);
    [rewrite L1; exact E | assumption..].
Qed.

Lemma exclusions_in_force_after_build_witness :
  let o1 :=
    (exclude_from_weight_decay (Some [kernel]) (Some ["bias"%string])
       default_engine).2 in
  let o2 := (build [kernel; bias; table] o1).2 in
  _use_weight_decay literal_search o2 bias
    = _use_weight_decay literal_search o1 bias /\
  (Some [kernel] = None -> Some ["bias"%string] = None ->
   _use_weight_decay literal_search o2 bias = Ok true) /\
  (forall pre post,
     default [] (Some [kernel]) = pre ++ bias :: post ->
     Forall (passed_over bias) pre ->
     _use_weight_decay literal_search o2 bias = Ok false) /\
  (Forall (passed_over bias) (default [] (Some [kernel])) ->
   _use_weight_decay literal_search o2 bias
   = Ok (negb (existsb (fun pat => literal_search pat (name bias))
                 (default [] (Some ["bias"%string]))))) /\
  (forall pre e post,
     default [] (Some [kernel]) = pre ++ e :: post ->
     Forall (passed_over bias) pre ->
     var_key e <> var_key bias ->
     length (value e) = length (value bias) ->
     (2 <= length (value bias))%nat ->
     _use_weight_decay literal_search o2 bias = Raise ValueError).
Proof.
  apply (exclusions_in_force_after_build literal_search default_engine
           (Some [kernel]) (Some ["bias"%string]) [kernel; bias; table]
           bias).
  reflexivity.
Defined.

(** ** Sparse steps *)

(** X7. On the sparse path, whether the step returns or raises, every row of
    every prev_gradient tensor that is not among the gradient's indices is
    left as it was. *)
Theorem sparse_step_keeps_untouched_rows
    (re_search : string -> string -> bool) (values : list R)
    (indices : list nat) (s : St) (i j : nat) :
  j ∉ indices ->
  entry (SlotP i) j
    (update_step re_search (IndexedSlices values indices) s).2
  = entry (SlotP i) j s.
Proof.
  intros Hj.
  exact (update_step_sparse_untouched re_search values indices s i j Hj).
Qed.

Lemma sparse_step_keeps_untouched_rows_witness :
  entry (SlotP 0) 1
    (update_step literal_search (IndexedSlices [1] [0%nat])
       (warm_engine, kernel)).2
  = entry (SlotP 0) 1 (warm_engine, kernel).
Proof.
  apply (sparse_step_keeps_untouched_rows literal_search [1] [0%nat]
           (warm_engine, kernel) 0 1).
  apply (bool_decide_unpack _). reflexivity.
Defined.

(** X8. A sparse gradient on a registered variable of more than one row,
    with in-range indices and a number of values that is neither one nor the
    number of rows, makes a step that gets past the membership test raise
    [InvalidArgumentError]: [p - gradient.values] cannot be broadcast.
    prev_gradient is left as it was. *)
Theorem sparse_step_shape_mismatch_raises
    (re_search : string -> string -> bool) o x values indices index m v p w
    use :
  registered o x index m v p ->
  weight_decay o = PyFloat w ->
  _use_weight_decay re_search o x = Ok use ->
  length values = length indices ->
  Forall (fun i => (i < length (value x))%nat) indices ->
  length values <> length (value x) ->
  length values <> 1%nat ->
  length (value x) <> 1%nat ->
  exists s',
    update_step re_search (IndexedSlices values indices) (o, x)
      = (Raise InvalidArgumentError, s') /\
    deref (SlotP index) s' = Some p.
Proof.
  intros Hreg Hw Hu Lv Hin N1 N2 N3.
  exact (update_step_sparse_mismatch re_search o x values indices index
           m v p w use Hreg Hw Hu Lv Hin N1 N2 N3).
Qed.

Lemma sparse_step_shape_mismatch_raises_witness :
  exists s',
    update_step literal_search (IndexedSlices [0.5; 0.5] [2%nat; 1%nat])
      (table_engine, table) = (Raise InvalidArgumentError, s') /\
    deref (SlotP 0) s' = Some [0; 0; 0].
Proof.
  apply (sparse_step_shape_mismatch_raises literal_search table_engine table
           [0.5; 0.5] [2%nat; 1%nat] 0 [0; 0; 0] [0; 0; 0] [0; 0; 0] 0.004
           true).
  - exact table_registered.
  - reflexivity.
  - reflexivity.
  - reflexivity.
  - repeat constructor; simpl; lia.
  - simpl; lia.
  - simpl; lia.
  - simpl; lia.
Defined.

(** X9. A sparse gradient that lists every row once in ascending order
    [0, 1, ..., N-1] is treated like the dense gradient with the same values:
    when the membership test returns and the arithmetic is defined ([beta_1]
    in [[0, 1)], [beta_2] in [[0, 1]], [epsilon > 0], no negative velocity),
    both steps return and agree, in exact arithmetic, on every entry of
    momentum, velocity, prev_gradient and parameter. *)
Theorem sparse_in_ascending_order_equals_dense
    (re_search : string -> string -> bool) o x g index m v p w vh use :
  registered o x index m v p ->
  (amsgrad o = true -> registered_hat o x index vh) ->
  length g = length (value x) ->
  weight_decay o = PyFloat w ->
  _use_weight_decay re_search o x = Ok use ->
  hyperparameters_in_range o ->
  Forall (Rle 0) v ->
  exists sd ss,
    update_step re_search (Dense g) (o, x) = (Ok tt, sd) /\
    update_step re_search (IndexedSlices g (seq 0 (length g))) (o, x)
      = (Ok tt, ss) /\
    forall j, (j < length g)%nat ->
      entry (SlotM index) j ss = entry (SlotM index) j sd /\
      entry (SlotV index) j ss = entry (SlotV index) j sd /\
      entry (SlotP index) j ss = entry (SlotP index) j sd /\
      entry VarRef j ss = entry VarRef j sd.
Proof.
  intros Hreg Hhat Lg Hw Hu Hrange Hv.
  exact (sparse_in_order_matches_dense re_search o x g index m v p w vh use
           Hreg Hhat Lg Hw Hu Hrange Hv).
Qed.

Lemma sparse_in_ascending_order_equals_dense_witness :
  exists sd ss,
    update_step literal_search (Dense [0.1; 0.2])
      (built_engine default_engine, kernel) = (Ok tt, sd) /\
    update_step literal_search
      (IndexedSlices [0.1; 0.2] (seq 0 (length [0.1%R; 0.2%R])))
      (built_engine default_engine, kernel) = (Ok tt, ss) /\
    forall j, (j < length [0.1%R; 0.2%R])%nat ->
      entry (SlotM 0) j ss = entry (SlotM 0) j sd /\
      entry (SlotV 0) j ss = entry (SlotV 0) j sd /\
      entry (SlotP 0) j ss = entry (SlotP 0) j sd /\
      entry VarRef j ss = entry VarRef j sd.
Proof.
  apply (sparse_in_ascending_order_equals_dense literal_search
           (built_engine default_engine) kernel [0.1; 0.2] 0
           [0; 0] [0; 0] [0; 0] 0.004 [] true).
  - exact built_default_registered.
  - intros H. discriminate H.
  - reflexivity.
  - reflexivity.
  - reflexivity.
  - exact built_default_in_range.
  - repeat constructor; lra.
Defined.

(** ** [get_config] *)

Lemma get_config_same_settings c o o' :
  same_settings o o' -> get_config c o' = get_config c o.
Proof.
  intros (E1 & E2 & E3 & E4 & E5 & E6 & _). unfold get_config.
  now rewrite E1, E2, E3, E4, E5, E6.
Qed.

Lemma build_same_hyperparameters vl o c :
  get_config c (build vl o).2 = get_config c o.
Proof.
  destruct (is_built o) eqn:Hb.
  - rewrite (build_when_built vl o Hb). reflexivity.
  - rewrite (build_fresh vl o Hb). cbv zeta.
    destruct (amsgrad o) eqn:Ea; unfold get_config; simpl; rewrite ?Ea;
      reflexivity.
Qed.

Lemma exclude_same_hyperparameters vl vn o c :
  get_config c (exclude_from_weight_decay vl vn o).2 = get_config c o.
Proof.
  destruct (is_built o) eqn:Hb.
  - rewrite (exclude_when_built vl vn o Hb). reflexivity.
  - rewrite (exclude_when_not_built vl vn o Hb). reflexivity.
Qed.

Lemma update_step_same_hyperparameters
    (re_search : string -> string -> bool) g o x c :
  get_config c (update_step re_search g (o, x)).2.1 = get_config c o.
Proof.
  destruct (_index_dict o !! var_key x) as [index |] eqn:Hi.
  - apply get_config_same_settings.
    exact (proj1 (update_step_only_slot re_search g o x index Hi)).
  - rewrite (update_step_key_error re_search g o x Hi). reflexivity.
Qed.

(** X12. The exported configuration holds the engine's six hyperparameters
    under their keys, overriding whatever the base class exported under the
    same keys, and passes every other entry of the base class through.  It is
    a function of the hyperparameters alone: [build],
    [exclude_from_weight_decay] (returning or raising) and [update_step]
    (any gradient, returning or raising) leave it unchanged, so neither the
    state tensors nor the exclusion sets are part of it. *)
Theorem get_config_is_hyperparameters_only
    (re_search : string -> string -> bool)
    (c : gmap string config_value) (o : DiffGrad) :
  get_config c o !! "learning_rate"%string
    = Some (ConfigValue (PyFloat (learning_rate o))) /\
  get_config c o !! "weight_decay"%string
    = Some (ConfigValue (weight_decay o)) /\
  get_config c o !! "beta_1"%string
    = Some (ConfigValue (PyFloat (beta_1 o))) /\
  get_config c o !! "beta_2"%string
    = Some (ConfigValue (PyFloat (beta_2 o))) /\
  get_config c o !! "epsilon"%string
    = Some (ConfigValue (PyFloat (epsilon o))) /\
  get_config c o !! "amsgrad"%string = Some (ConfigBool (amsgrad o)) /\
  (forall k, k ∉ own_keys -> get_config c o !! k = c !! k) /\
  (forall vl, get_config c (build vl o).2 = get_config c o) /\
  (forall vl vn,
     get_config c (exclude_from_weight_decay vl vn o).2 = get_config c o) /\
  (forall g x,
     get_config c (update_step re_search g (o, x)).2.1 = get_config c o).
Proof.
  unfold get_config.
  repeat split;
    try (intros; first [ apply build_same_hyperparameters
                       | apply exclude_same_hyperparameters
                       | apply update_step_same_hyperparameters ]).
  1-6: by simplify_map_eq.
  intros k Hk. unfold own_keys in Hk.
  rewrite !not_elem_of_cons in Hk.
  destruct Hk as (? & ? & ? & ? & ? & ? & _).
  rewrite !lookup_insert_ne by congruence. reflexivity.
Qed.

(** X13. Export and constructor round trip: when the six entries that
    [get_config] exports are passed to the constructor as keyword arguments,
    and the exported [weight_decay] is not null, the constructor returns an
    engine that exports the same configuration again; it is not built and
    carries no exclusions and no state. *)
Theorem get_config_round_trip (c : gmap string config_value) (o : DiffGrad)
    (lr b1 b2 eps : R) (wd : pyval) (ams : bool) :
  get_config c o !! "learning_rate"%string = Some (ConfigValue (PyFloat lr)) ->
  get_config c o !! "weight_decay"%string = Some (ConfigValue wd) ->
  get_config c o !! "beta_1"%string = Some (ConfigValue (PyFloat b1)) ->
  get_config c o !! "beta_2"%string = Some (ConfigValue (PyFloat b2)) ->
  get_config c o !! "epsilon"%string = Some (ConfigValue (PyFloat eps)) ->
  get_config c o !! "amsgrad"%string = Some (ConfigBool ams) ->
  wd <> PyNone ->
  exists o',
    __init__ {| kw_learning_rate := Some lr; kw_weight_decay := Some wd;
                kw_beta_1 := Some b1; kw_beta_2 := Some b2;
                kw_epsilon := Some eps; kw_amsgrad := Some ams |} = Ok o' /\
    get_config c o' = get_config c o /\
    is_built o' = false /\
    _exclude_from_weight_decay o' = None /\
    _exclude_from_weight_decay_names o' = None /\
    _momentums o' = [].
Proof.
  intros Hlr Hwd Hb1 Hb2 Heps Hams Hn.
  unfold get_config in Hlr, Hwd, Hb1, Hb2, Heps, Hams.
  simplify_map_eq.
  unfold __init__. cbn [kw_weight_decay default from_option Datatypes.id
                        weight_decay].
  destruct (weight_decay o) eqn:Ew; try congruence;
    eexists; (split; [reflexivity |]); unfold get_config; simpl;
    rewrite ?Ew; repeat split.
Qed.

Lemma get_config_round_trip_witness :
  exists o',
    __init__ {| kw_learning_rate := Some 0.001;
                kw_weight_decay := Some (PyFloat 0.004);
                kw_beta_1 := Some 0.9; kw_beta_2 := Some 0.999;
                kw_epsilon := Some 1e-16; kw_amsgrad := Some false |}
      = Ok o' /\
    get_config ∅ o' = get_config ∅ (built_engine default_engine) /\
    is_built o' = false /\
    _exclude_from_weight_decay o' = None /\
    _exclude_from_weight_decay_names o' = None /\
    _momentums o' = [].
Proof.
  apply (get_config_round_trip ∅ (built_engine default_engine)
           0.001 0.9 0.999 1e-16 (PyFloat 0.004) false).
  - reflexivity.
  - reflexivity.
  - reflexivity.
  - reflexivity.
  - reflexivity.
  - reflexivity.
  - discriminate.
Defined.

(** ** A sparse gradient for one row *)

Lemma broadcast_scalar_r f (a : list R) (y : R) :
  broadcast f a [y] = Ok ((fun x => f x y) <$> a).
Proof.
  unfold broadcast.
  destruct (decide (length a = length [y])) as [L | L].
  - destruct a as [| x [| x' a]]; try discriminate L. reflexivity.
  - destruct a as [| x [| x' a]]; reflexivity.
Qed.

Lemma sparse_dfc_scalar (p : list R) (g0 : R) :
  sparse_dfc p [g0] = Ok (friction <$> ((fun pj => pj - g0) <$> p)).
Proof. unfold sparse_dfc. rewrite broadcast_scalar_r. reflexivity. Qed.

Lemma scatter_single f (t : list R) (a : R) (i : nat) (y : R) :
  t !! i = Some y -> scatter f t [a] [i] = Ok (<[i := f y a]> t).
Proof. intros H. cbn [scatter]. rewrite H. reflexivity. Qed.

(** The velocity a one-row sparse step stores is positive when the old one
    is, provided [beta_2] is not zero: the rows that receive no value only
    decay. *)
Lemma single_row_velocity_positive (b2 eps g0 vi : R) (i : nat)
    (v : list R) :
  0 < b2 <= 1 -> 0 < eps -> Forall (Rlt 0) v -> v !! i = Some vi ->
  Forall (Rlt 0)
    (<[i := vi + - vi * (1 - b2) + (g0 * g0 * (1 - b2) + eps)]>
       (zip_with Rplus v ((fun vj => - vj * (1 - b2)) <$> v))).
Proof.
  intros Hb He Hv Hi. apply Forall_lookup. intros j y Hy.
  destruct (decide (j = i)) as [-> | Hne].
  - rewrite list_lookup_insert_eq in Hy.
    + injection Hy as <-.
      pose proof (Forall_lookup_1 _ _ _ _ Hv Hi) as H0. simpl in H0.
      assert (0 <= g0 * g0) by nra. nra.
    + rewrite length_zip_with, length_fmap, Nat.min_id.
      apply lookup_lt_is_Some. eexists; exact Hi.
  - rewrite list_lookup_insert_ne in Hy by congruence.
    rewrite lookup_zip_with, list_lookup_fmap in Hy.
    destruct (v !! j) as [vj |] eqn:Evj; [| discriminate].
    simpl in Hy. injection Hy as <-.
    pose proof (Forall_lookup_1 _ _ _ _ Hv Evj) as H0. simpl in H0. nra.
Qed.

Ltac single_row_step :=
  rewrite ?run_bind_assoc;
  first [ erewrite run_bind by (rewrite sparse_dfc_scalar; reflexivity)
        | erewrite run_bind by run_sparse_prim ];
  cbv beta.

Ltac look_row i :=
  repeat first
    [ rewrite lookup_zip_with
    | rewrite list_lookup_fmap
    | rewrite (list_lookup_insert_eq _ i) by len
    | rewrite list_lookup_insert_ne by congruence ];
  repeat match goal with
         | H : ?l !! ?j = Some _ |- context [?l !! ?j] => rewrite H
         end;
  cbn [mbind option_bind fmap option_fmap option_map].

Ltac row_entries i :=
  unfold entry, alpha_at; cbn [fst snd];
  destruct (decide (_ = i)) as [-> | Hne];
  (repeat split; intros; try discriminate; try congruence;
   push_deref;
   repeat match goal with
          | H : deref ?r ?s = Some _ |- context [deref ?r ?s] => rewrite H
          end;
   cbn [mbind option_bind]; look_row i; cbn [fst snd]; look_row i;
   first [reflexivity | congruence]).

Ltac finish_row_entries i :=
  eexists; split; [eapply assign_sub_ok; [solve_deref | len] |];
  intros j mj vj pj xj vhj Hmj Hvj Hpj Hxj Hvhj;
  try specialize (Hvhj eq_refl);
  row_entries i.

Section SparseSingleRow.

Variable re_search : string -> string -> bool.

(** One value for one row, every velocity positive: the step returns. *)
Lemma update_step_sparse_single_row o x g0 i index m v p w vh use :
  registered o x index m v p ->
  (amsgrad o = true -> registered_hat o x index vh) ->
  (i < length (value x))%nat ->
  weight_decay o = PyFloat w ->
  _use_weight_decay re_search o x = Ok use ->
  hyperparameters_in_range o ->
  Forall (Rlt 0) v -> 0 < beta_2 o ->
  exists s',
    update_step re_search (IndexedSlices [g0] [i]) (o, x) = (Ok tt, s') /\
    forall j mj vj pj xj vhj,
      m !! j = Some mj -> v !! j = Some vj -> p !! j = Some pj ->
      value x !! j = Some xj ->
      (amsgrad o = true -> vh !! j = Some vhj) ->
      let m' := if decide (j = i)
                then mj + - mj * (1 - beta_1 o) + g0 * (1 - beta_1 o)
                else mj + - mj * (1 - beta_1 o) in
      let v' := if decide (j = i)
                then vj + - vj * (1 - beta_2 o)
                     + (g0 * g0 * (1 - beta_2 o) + epsilon o)
                else vj + - vj * (1 - beta_2 o) in
      let v_used := if amsgrad o then Rmax vhj v' else v' in
      let x_wd := if use then xj - xj * w * learning_rate o else xj in
      entry (SlotM index) j s' = Some m' /\
      entry (SlotV index) j s' = Some v' /\
      entry (SlotP index) j s' = Some (if decide (j = i) then g0 else pj) /\
      (amsgrad o = true -> entry (SlotVhat index) j s' = Some v_used) /\
      entry VarRef j s' =
        Some (x_wd - m' * alpha_at o / (friction (pj - g0) * sqrt v_used)).
Proof.
  intros (Hi & Hm & Hv & Hp & Lm & Lv & Lp) Hh Li Hw Hu Hrange Hv0 Hb2pos.
  change (deref (SlotM index) (o, x) = Some m) in Hm.
  change (deref (SlotV index) (o, x) = Some v) in Hv.
  change (deref (SlotP index) (o, x) = Some p) in Hp.
  assert (Vm : valid (SlotM index) (o, x)) by (eexists; eauto).
  assert (Vv : valid (SlotV index) (o, x)) by (eexists; eauto).
  assert (Vp : valid (SlotP index) (o, x)) by (eexists; eauto).
  assert (Hx : deref VarRef (o, x) = Some (value x)) by reflexivity.
  assert (Vx : valid VarRef (o, x)) by (eexists; eauto).
  destruct (lookup_lt_is_Some_2 m i) as [mi Hmi]; [lia |].
  destruct (lookup_lt_is_Some_2 v i) as [vi Hvi]; [lia |].
  destruct (lookup_lt_is_Some_2 p i) as [pi Hpi]; [lia |].
  destruct (bias_corrections_defined o Hrange) as [Hb1 Hb2].
  destruct Hrange as (_ & Hr2 & Heps).
  pose proof (single_row_velocity_positive (beta_2 o) (epsilon o) g0 vi i v
                (conj Hb2pos (proj2 Hr2)) Heps Hv0 Hvi) as Hpos.
  pose proof (maximum_positive vh _ Hpos) as Hpos'.
  pose proof (scatter_single Rplus
                (zip_with Rplus m ((fun mi => - mi * (1 - beta_1 o)) <$> m))
                (g0 * (1 - beta_1 o)) i (mi + - mi * (1 - beta_1 o))) as Em.
  pose proof (scatter_single Rplus
                (zip_with Rplus v ((fun vi => - vi * (1 - beta_2 o)) <$> v))
                (g0 * g0 * (1 - beta_2 o) + epsilon o) i
                (vi + - vi * (1 - beta_2 o))) as Ev.
  pose proof (scatter_single (fun _ xi => xi) p g0 i pi Hpi) as Ep.
  rewrite lookup_zip_with, list_lookup_fmap, Hmi in Em.
  rewrite lookup_zip_with, list_lookup_fmap, Hvi in Ev.
  specialize (Em eq_refl). specialize (Ev eq_refl).
  change [g0 * (1 - beta_1 o)]
    with ((fun gi => gi * (1 - beta_1 o)) <$> [g0]) in Em.
  change [g0 * g0 * (1 - beta_2 o) + epsilon o]
    with ((fun gi => gi * gi * (1 - beta_2 o) + epsilon o) <$> [g0]) in Ev.
  unfold update_step.
  do 2 single_row_step. cbn [fst snd]. do 5 single_row_step.
  destruct (amsgrad o) eqn:Ea.
  - destruct (Hh eq_refl) as [Hvh Lvh].
    change (deref (SlotVhat index) (o, x) = Some vh) in Hvh.
    assert (Vvh : valid (SlotVhat index) (o, x)) by (eexists; eauto).
    destruct use.
    + rewrite Hw. repeat single_row_step. finish_row_entries i.
    + repeat single_row_step. finish_row_entries i.
  - destruct use.
    + rewrite Hw. repeat single_row_step. finish_row_entries i.
    + repeat single_row_step. finish_row_entries i.
Qed.

(** One value for one row, and another row whose velocity is zero, without
    AMSGrad: momentum, velocity and prev_gradient are updated, the decayed
    velocity of that row is zero again, and the final update divides by zero
    there. *)
Lemma update_step_sparse_single_row_zero o x g0 i j0 index m v p w use :
  registered o x index m v p ->
  amsgrad o = false ->
  (i < length (value x))%nat ->
  weight_decay o = PyFloat w ->
  _use_weight_decay re_search o x = Ok use ->
  j0 <> i -> v !! j0 = Some 0 ->
  exists s',
    update_step re_search (IndexedSlices [g0] [i]) (o, x)
      = (Raise NotANumber, s') /\
    forall j mj vj pj,
      m !! j = Some mj -> v !! j = Some vj -> p !! j = Some pj ->
      let m' := if decide (j = i)
                then mj + - mj * (1 - beta_1 o) + g0 * (1 - beta_1 o)
                else mj + - mj * (1 - beta_1 o) in
      let v' := if decide (j = i)
                then vj + - vj * (1 - beta_2 o)
                     + (g0 * g0 * (1 - beta_2 o) + epsilon o)
                else vj + - vj * (1 - beta_2 o) in
      entry (SlotM index) j s' = Some m' /\
      entry (SlotV index) j s' = Some v' /\
      entry (SlotP index) j s' = Some (if decide (j = i) then g0 else pj).
Proof.
  intros (Hi & Hm & Hv & Hp & Lm & Lv & Lp) Ea Li Hw Hu Hj0 Hz.
  change (deref (SlotM index) (o, x) = Some m) in Hm.
  change (deref (SlotV index) (o, x) = Some v) in Hv.
  change (deref (SlotP index) (o, x) = Some p) in Hp.
  assert (Vm : valid (SlotM index) (o, x)) by (eexists; eauto).
  assert (Vv : valid (SlotV index) (o, x)) by (eexists; eauto).
  assert (Vp : valid (SlotP index) (o, x)) by (eexists; eauto).
  assert (Hx : deref VarRef (o, x) = Some (value x)) by reflexivity.
  assert (Vx : valid VarRef (o, x)) by (eexists; eauto).
  destruct (lookup_lt_is_Some_2 m i) as [mi Hmi]; [lia |].
  destruct (lookup_lt_is_Some_2 v i) as [vi Hvi]; [lia |].
  destruct (lookup_lt_is_Some_2 p i) as [pi Hpi]; [lia |].
  pose proof (scatter_single Rplus
                (zip_with Rplus m ((fun mi => - mi * (1 - beta_1 o)) <$> m))
                (g0 * (1 - beta_1 o)) i (mi + - mi * (1 - beta_1 o))) as Em.
  pose proof (scatter_single Rplus
                (zip_with Rplus v ((fun vi => - vi * (1 - beta_2 o)) <$> v))
                (g0 * g0 * (1 - beta_2 o) + epsilon o) i
                (vi + - vi * (1 - beta_2 o))) as Ev.
  pose proof (scatter_single (fun _ xi => xi) p g0 i pi Hpi) as Ep.
  rewrite lookup_zip_with, list_lookup_fmap, Hmi in Em.
  rewrite lookup_zip_with, list_lookup_fmap, Hvi in Ev.
  specialize (Em eq_refl). specialize (Ev eq_refl).
  change [g0 * (1 - beta_1 o)]
    with ((fun gi => gi * (1 - beta_1 o)) <$> [g0]) in Em.
  change [g0 * g0 * (1 - beta_2 o) + epsilon o]
    with ((fun gi => gi * gi * (1 - beta_2 o) + epsilon o) <$> [g0]) in Ev.
  assert (Hzero :
    (<[i := vi + - vi * (1 - beta_2 o)
            + (g0 * g0 * (1 - beta_2 o) + epsilon o)]>
       (zip_with Rplus v ((fun vi => - vi * (1 - beta_2 o)) <$> v))) !! j0
    = Some (0 + - 0 * (1 - beta_2 o))).
  { rewrite list_lookup_insert_ne by congruence.
    rewrite lookup_zip_with, list_lookup_fmap, Hz. reflexivity. }
  assert (Hguard : forall b1p b2p,
    real_update b1p b2p
      (<[i := vi + - vi * (1 - beta_2 o)
              + (g0 * g0 * (1 - beta_2 o) + epsilon o)]>
         (zip_with Rplus v ((fun vi => - vi * (1 - beta_2 o)) <$> v)))
    = Raise NotANumber).
  { intros b1p b2p. apply (real_update_zero _ _ _ j0 _ Hzero). lra. }
  unfold update_step.
  do 2 single_row_step. cbn [fst snd]. do 5 single_row_step.
  rewrite Ea.
  destruct use.
  - rewrite Hw. repeat single_row_step.
    rewrite ?run_bind_assoc, Hguard, run_bind_lift_raise.
    eexists. split; [reflexivity |].
    intros j mj vj pj Hmj Hvj Hpj. row_entries i.
  - repeat single_row_step.
    rewrite ?run_bind_assoc, Hguard, run_bind_lift_raise.
    eexists. split; [reflexivity |].
    intros j mj vj pj Hmj Hvj Hpj. row_entries i.
Qed.

End SparseSingleRow.

Lemma warm_table_registered :
  registered warm_table_engine table 0
    [0.1; 0.1; 0.1]
    [0.001 + 1e-16; 0.001 + 1e-16; 0.001 + 1e-16] [1; 1; 1].
Proof. repeat split; reflexivity. Qed.

(** On the warm table a one-row step returns: the row that receives the
    value takes it as its prev_gradient, its neighbour keeps the old one and
    only decays in velocity. *)
Lemma single_row_on_warm_table :
  exists s',
    update_step literal_search (IndexedSlices [0.5] [1%nat])
      (warm_table_engine, table) = (Ok tt, s') /\
    entry (SlotP 0) 0 s' = Some 1 /\
    entry (SlotP 0) 1 s' = Some 0.5 /\
    entry (SlotV 0) 0 s'
    = Some (0.001 + 1e-16 + - (0.001 + 1e-16) * (1 - 0.999)).
Proof.
  destruct (update_step_sparse_single_row literal_search warm_table_engine
              table 0.5 1 0 [0.1; 0.1; 0.1]
              [0.001 + 1e-16; 0.001 + 1e-16; 0.001 + 1e-16] [1; 1; 1]
              0.004 [] true)
    as (s' & Hrun & Hent).
  - exact warm_table_registered.
  - intros H. discriminate H.
  - simpl. lia.
  - reflexivity.
  - reflexivity.
  - apply default_hyperparameters_in_range; reflexivity.
  - repeat constructor; lra.
  - change (beta_2 warm_table_engine) with 0.999. lra.
  - exists s'. split; [exact Hrun |].
    destruct (Hent 0%nat 0.1 (0.001 + 1e-16) 1 1 0)
      as (_ & Ev0 & Ep0 & _);
      try reflexivity; try (intros H; discriminate H).
    destruct (Hent 1%nat 0.1 (0.001 + 1e-16) 1 1 0)
      as (_ & _ & Ep1 & _);
      try reflexivity; try (intros H; discriminate H).
    cbv zeta in *.
    rewrite decide_False in Ev0, Ep0 by discriminate.
    rewrite decide_True in Ep1 by reflexivity.
    change (beta_2 warm_table_engine) with 0.999 in Ev0.
    repeat split; assumption.
Qed.

(** X10. A sparse gradient that carries one value [g0] for one row [i] of a
    registered variable, on a step that gets past the membership test.  Row
    [i] of momentum and velocity receives the value, every other row only
    decays, with no [epsilon] added to its velocity; prev_gradient changes at
    row [i] alone.  When every velocity is positive and [beta_2] is not
    zero, the step returns, the friction coefficient of every row [j],
    touched or not, is taken from [p_j] against the single value, and the
    parameter is updated at every row.  When, without AMSGrad, a row that is
    not touched has velocity zero, as every row has after [build], the
    divisor [dfc * sqrt(v)] of the final update is zero at that row: the step
    leaves the real numbers, with momentum, velocity and prev_gradient
    already updated. *)
Theorem sparse_single_row_step (re_search : string -> string -> bool)
    o x g0 i index m v p w vh use :
  registered o x index m v p ->
  (amsgrad o = true -> registered_hat o x index vh) ->
  (i < length (value x))%nat ->
  weight_decay o = PyFloat w ->
  _use_weight_decay re_search o x = Ok use ->
  hyperparameters_in_range o ->
  let new_momentum j mj :=
    if decide (j = i)
    then mj + - mj * (1 - beta_1 o) + g0 * (1 - beta_1 o)
    else mj + - mj * (1 - beta_1 o) in
  let new_velocity j vj :=
    if decide (j = i)
    then vj + - vj * (1 - beta_2 o) + (g0 * g0 * (1 - beta_2 o) + epsilon o)
    else vj + - vj * (1 - beta_2 o) in
  (Forall (Rlt 0) v -> 0 < beta_2 o ->
   exists s',
     update_step re_search (IndexedSlices [g0] [i]) (o, x) = (Ok tt, s') /\
     forall j mj vj pj xj vhj,
       m !! j = Some mj -> v !! j = Some vj -> p !! j = Some pj ->
       value x !! j = Some xj ->
       (amsgrad o = true -> vh !! j = Some vhj) ->
       let v_used := if amsgrad o then Rmax vhj (new_velocity j vj)
                     else new_velocity j vj in
       let x_wd := if use then xj - xj * w * learning_rate o else xj in
       entry (SlotM index) j s' = Some (new_momentum j mj) /\
       entry (SlotV index) j s' = Some (new_velocity j vj) /\
       entry (SlotP index) j s' = Some (if decide (j = i) then g0 else pj) /\
       0 < friction (pj - g0) * sqrt v_used /\
       entry VarRef j s' =
         Some (x_wd - new_momentum j mj * alpha_at o
                      / (friction (pj - g0) * sqrt v_used))) /\
  (amsgrad o = false ->
   forall j0 pj0, j0 <> i -> v !! j0 = Some 0 -> p !! j0 = Some pj0 ->
   friction (pj0 - g0) * sqrt (new_velocity j0 0) = 0 /\
   exists s',
     update_step re_search (IndexedSlices [g0] [i]) (o, x)
       = (Raise NotANumber, s') /\
     forall j mj vj pj,
       m !! j = Some mj -> v !! j = Some vj -> p !! j = Some pj ->
       entry (SlotM index) j s' = Some (new_momentum j mj) /\
       entry (SlotV index) j s' = Some (new_velocity j vj) /\
       entry (SlotP index) j s' = Some (if decide (j = i) then g0 else pj)).
Proof.
  intros Hreg Hhat Li Hw Hu Hrange. cbv zeta. split.
  - intros Hv0 Hb2pos.
    destruct (update_step_sparse_single_row re_search o x g0 i index m v p w
                vh use Hreg Hhat Li Hw Hu Hrange Hv0 Hb2pos)
      as (s' & Hrun & Hent).
    exists s'. split; [exact Hrun |].
    intros j mj vj pj xj vhj Hmj Hvj Hpj Hxj Hvhj.
    destruct (Hent j mj vj pj xj vhj Hmj Hvj Hpj Hxj Hvhj)
      as (Em & Ev & Ep & _ & Ex).
    cbv zeta in *.
    split; [exact Em |]. split; [exact Ev |]. split; [exact Ep |].
    split; [| exact Ex].
    destruct Hrange as (_ & Hr2 & Heps).
    pose proof (Forall_lookup_1 _ _ _ _ Hv0 Hvj) as H0. simpl in H0.
    apply Rmult_lt_0_compat; [pose proof (friction_gt_1 (pj - g0)); lra |].
    apply sqrt_lt_R0.
    assert (Hnew : 0 < (if decide (j = i)
                        then vj + - vj * (1 - beta_2 o)
                             + (g0 * g0 * (1 - beta_2 o) + epsilon o)
                        else vj + - vj * (1 - beta_2 o))).
    { assert (0 <= g0 * g0) by nra. destruct (decide (j = i)); nra. }
    destruct (amsgrad o); [| exact Hnew].
    pose proof (Rmax_r vhj
                  (if decide (j = i)
                   then vj + - vj * (1 - beta_2 o)
                        + (g0 * g0 * (1 - beta_2 o) + epsilon o)
                   else vj + - vj * (1 - beta_2 o))).
    lra.
  - intros Ea j0 pj0 Hj0 Hz Hpj0. split.
    + rewrite decide_False by exact Hj0.
      replace (0 + - 0 * (1 - beta_2 o)) with 0 by ring.
      rewrite sqrt_0. ring.
    + exact (update_step_sparse_single_row_zero re_search o x g0 i j0 index
               m v p w use Hreg Ea Li Hw Hu Hj0 Hz).
Qed.

Lemma sparse_single_row_step_witness :
  let o := table_engine in
  let new_momentum j mj :=
    if decide (j = 1%nat)
    then mj + - mj * (1 - beta_1 o) + 0.5 * (1 - beta_1 o)
    else mj + - mj * (1 - beta_1 o) in
  let new_velocity j vj :=
    if decide (j = 1%nat)
    then vj + - vj * (1 - beta_2 o) + (0.5 * 0.5 * (1 - beta_2 o) + epsilon o)
    else vj + - vj * (1 - beta_2 o) in
  (Forall (Rlt 0) [0; 0; 0] -> 0 < beta_2 o ->
   exists s',
     update_step literal_search (IndexedSlices [0.5] [1%nat]) (o, table)
       = (Ok tt, s') /\
     forall j mj vj pj xj vhj,
       [0; 0; 0] !! j = Some mj -> [0; 0; 0] !! j = Some vj ->
       [0; 0; 0] !! j = Some pj ->
       value table !! j = Some xj ->
       (amsgrad o = true -> @nil R !! j = Some vhj) ->
       let v_used := if amsgrad o then Rmax vhj (new_velocity j vj)
                     else new_velocity j vj in
       let x_wd := if true then xj - xj * 0.004 * learning_rate o else xj in
       entry (SlotM 0) j s' = Some (new_momentum j mj) /\
       entry (SlotV 0) j s' = Some (new_velocity j vj) /\
       entry (SlotP 0) j s' = Some (if decide (j = 1%nat) then 0.5 else pj) /\
       0 < friction (pj - 0.5) * sqrt v_used /\
       entry VarRef j s' =
         Some (x_wd - new_momentum j mj * alpha_at o
                      / (friction (pj - 0.5) * sqrt v_used))) /\
  (amsgrad o = false ->
   forall j0 pj0, j0 <> 1%nat -> [0; 0; 0] !! j0 = Some 0 ->
   [0; 0; 0] !! j0 = Some pj0 ->
   friction (pj0 - 0.5) * sqrt (new_velocity j0 0) = 0 /\
   exists s',
     update_step literal_search (IndexedSlices [0.5] [1%nat]) (o, table)
       = (Raise NotANumber, s') /\
     forall j mj vj pj,
       [0; 0; 0] !! j = Some mj -> [0; 0; 0] !! j = Some vj ->
       [0; 0; 0] !! j = Some pj ->
       entry (SlotM 0) j s' = Some (new_momentum j mj) /\
       entry (SlotV 0) j s' = Some (new_velocity j vj) /\
       entry (SlotP 0) j s' = Some (if decide (j = 1%nat) then 0.5 else pj)).
Proof.
  apply (sparse_single_row_step literal_search table_engine table 0.5 1 0
           [0; 0; 0] [0; 0; 0] [0; 0; 0] 0.004 [] true).
  - exact table_registered.
  - intros H. discriminate H.
  - simpl. lia.
  - reflexivity.
  - reflexivity.
  - apply default_hyperparameters_in_range; reflexivity.
Defined.

(** ** AMSGrad on both paths *)

Lemma sparse_dfc_total (p values : list R) :
  length values = length p \/ length values = 1%nat ->
  exists dfc, sparse_dfc p values = Ok dfc /\ length dfc = length p.
Proof.
  intros [L | L].
  - exists (friction <$> zip_with Rminus p values). split.
    + unfold sparse_dfc. rewrite broadcast_same by lia. reflexivity.
    + rewrite length_fmap, length_zip_with. lia.
  - destruct values as [| g0 [| g1 values]]; try discriminate L.
    exists (friction <$> ((fun pj => pj - g0) <$> p)). split.
    + apply sparse_dfc_scalar.
    + rewrite !length_fmap. reflexivity.
Qed.

Lemma maximum_positive_l (vh t : list R) :
  Forall (Rlt 0) vh -> Forall (Rlt 0) (zip_with Rmax vh t).
Proof.
  intros Hvh. apply Forall_lookup. intros j y Hy.
  rewrite lookup_zip_with in Hy.
  destruct (vh !! j) as [a |] eqn:Ea; [| discriminate].
  destruct (t !! j) as [b |]; [| discriminate].
  simpl in Hy. injection Hy as <-.
  pose proof (Forall_lookup_1 _ _ _ _ Hvh Ea) as H0. simpl in H0.
  pose proof (Rmax_l a b). lra.
Qed.

Section SparseAmsgrad.

Variable re_search : string -> string -> bool.

(** Any sparse gradient whose values can be broadcast against the variable,
    under AMSGrad with a positive velocity_hat: the step returns, stores the
    maximum of velocity_hat and the new velocity, and divides by its square
    root. *)
Lemma update_step_sparse_amsgrad o x values indices index m v p w vh use :
  registered o x index m v p ->
  registered_hat o x index vh ->
  amsgrad o = true ->
  weight_decay o = PyFloat w ->
  _use_weight_decay re_search o x = Ok use ->
  hyperparameters_in_range o ->
  length values = length indices ->
  Forall (fun i => (i < length (value x))%nat) indices ->
  length values = length (value x) \/ length values = 1%nat ->
  Forall (Rlt 0) vh ->
  exists s' m' v' dfc,
    update_step re_search (IndexedSlices values indices) (o, x)
      = (Ok tt, s') /\
    sparse_dfc p values = Ok dfc /\
    length m' = length (value x) /\ length v' = length (value x) /\
    length dfc = length (value x) /\
    deref (SlotM index) s' = Some m' /\
    deref (SlotV index) s' = Some v' /\
    deref (SlotVhat index) s' = Some (zip_with Rmax vh v') /\
    deref VarRef s' =
      Some (zip_with Rminus
              (if use
               then zip_with Rminus (value x)
                      ((fun xi => xi * w * learning_rate o) <$> value x)
               else value x)
              (zip_with Rdiv ((fun mi => mi * alpha_at o) <$> m')
                 (zip_with Rmult dfc (sqrt <$> zip_with Rmax vh v')))).
Proof.
  intros (Hi & Hm & Hv & Hp & Lm & Lv & Lp) [Hvh Lvh] Ha Hw Hu Hrange
    Lvi Hin Hshape Hpos.
  change (deref (SlotM index) (o, x) = Some m) in Hm.
  change (deref (SlotV index) (o, x) = Some v) in Hv.
  change (deref (SlotP index) (o, x) = Some p) in Hp.
  change (deref (SlotVhat index) (o, x) = Some vh) in Hvh.
  assert (Vm : valid (SlotM index) (o, x)) by (eexists; eauto).
  assert (Vv : valid (SlotV index) (o, x)) by (eexists; eauto).
  assert (Vp : valid (SlotP index) (o, x)) by (eexists; eauto).
  assert (Vvh : valid (SlotVhat index) (o, x)) by (eexists; eauto).
  assert (Hx : deref VarRef (o, x) = Some (value x)) by reflexivity.
  assert (Vx : valid VarRef (o, x)) by (eexists; eauto).
  destruct (bias_corrections_defined o Hrange) as [Hb1 Hb2].
  destruct (scatter_total Rplus
              (zip_with Rplus m ((fun mi => - mi * (1 - beta_1 o)) <$> m))
              ((fun gi => gi * (1 - beta_1 o)) <$> values) indices)
    as (m' & Em & Lm').
  { rewrite length_fmap. exact Lvi. }
  { rewrite length_zip_with, length_fmap, Nat.min_id, Lm. exact Hin. }
  destruct (scatter_total Rplus
              (zip_with Rplus v ((fun vi => - vi * (1 - beta_2 o)) <$> v))
              ((fun gi => gi * gi * (1 - beta_2 o) + epsilon o) <$> values)
              indices)
    as (v' & Ev & Lv').
  { rewrite length_fmap. exact Lvi. }
  { rewrite length_zip_with, length_fmap, Nat.min_id, Lv. exact Hin. }
  destruct (scatter_total (fun _ xi => xi) p values indices)
    as (p' & Ep & Lp').
  { exact Lvi. }
  { rewrite Lp. exact Hin. }
  rewrite length_zip_with, length_fmap, Nat.min_id in Lm', Lv'.
  destruct (sparse_dfc_total p values) as (dfc & Ed & Ld).
  { rewrite Lp. exact Hshape. }
  pose proof (maximum_positive_l vh v' Hpos) as Hpos'.
  destruct use.
  - eexists _, m', v', dfc. split.
    { unfold update_step.
      do 2 sparse_step. cbn [fst snd]. do 5 sparse_step. rewrite Ha, Hw.
      repeat (rewrite ?run_bind_assoc;
              first [ erewrite run_bind by (rewrite Ed; reflexivity)
                    | erewrite run_bind by run_sparse_prim ];
              cbv beta).
      eapply assign_sub_ok; [solve_deref | len]. }
    split; [exact Ed |].
    split; [lia |]. split; [lia |]. split; [lia |].
    unfold alpha_at. repeat split; push_deref; reflexivity.
  - eexists _, m', v', dfc. split.
    { unfold update_step.
      do 2 sparse_step. cbn [fst snd]. do 5 sparse_step. rewrite Ha.
      repeat (rewrite ?run_bind_assoc;
              first [ erewrite run_bind by (rewrite Ed; reflexivity)
                    | erewrite run_bind by run_sparse_prim ];
              cbv beta).
      eapply assign_sub_ok; [solve_deref | len]. }
    split; [exact Ed |].
    split; [lia |]. split; [lia |]. split; [lia |].
    unfold alpha_at. repeat split; push_deref; rewrite ?Hx; reflexivity.
Qed.

End SparseAmsgrad.

Lemma warm_amsgrad_registered :
  registered warm_amsgrad_engine kernel 0
    [0; 0.1] [1e-16; 0.001 + 1e-16] [0; 1].
Proof. repeat split; reflexivity. Qed.

Lemma warm_amsgrad_registered_hat :
  registered_hat warm_amsgrad_engine kernel 0 [1e-16; 0.001 + 1e-16].
Proof. repeat split; reflexivity. Qed.

(** C6. With AMSGrad enabled, every entry of every [velocity_hat] tensor
    after an [update_step] is at least its value before the step, for any
    gradient (dense or sparse) and any state, whether the step returns or
    raises, and so it is along every sequence of batches the host runs.  On
    a step that gets past the membership test and whose arithmetic is
    defined, [velocity_hat] becomes [max (velocity_hat, new velocity)] and
    stands in the place of the velocity in the final parameter update: on
    the dense path, with the new velocity in closed form, and on the sparse
    path, for every sparse gradient whose values can be broadcast against
    the variable, with the momentum and velocity that the step stores. *)
Theorem amsgrad_velocity_hat (re_search : string -> string -> bool)
    o x g index m v p w vh use :
  registered o x index m v p ->
  registered_hat o x index vh ->
  amsgrad o = true ->
  length g = length (value x) ->
  weight_decay o = PyFloat w ->
  _use_weight_decay re_search o x = Ok use ->
  hyperparameters_in_range o ->
  Forall (Rle 0) v ->
  (forall gr s, vhat_le s.1 (update_step re_search gr s).2.1) /\
  (forall batches o0, vhat_le o0 (train re_search batches o0).2) /\
  (exists s', update_step re_search (Dense g) (o, x) = (Ok tt, s') /\
    vhat_le o s'.1 /\
    forall j mj vj pj gj xj vhj,
      m !! j = Some mj -> v !! j = Some vj -> p !! j = Some pj ->
      g !! j = Some gj -> value x !! j = Some xj -> vh !! j = Some vhj ->
      let m' := mj + (gj - mj) * (1 - beta_1 o) in
      let v' := vj + ((gj * gj - vj) * (1 - beta_2 o) + epsilon o) in
      let x_wd := if use then xj - xj * w * learning_rate o else xj in
      entry (SlotVhat index) j s' = Some (Rmax vhj v') /\
      vhj <= Rmax vhj v' /\
      entry VarRef j s' =
        Some (x_wd
              - m' * alpha_at o / (friction (pj - gj) * sqrt (Rmax vhj v')))) /\
  (forall values indices,
     length values = length indices ->
     Forall (fun i => (i < length (value x))%nat) indices ->
     length values = length (value x) \/ length values = 1%nat ->
     Forall (Rlt 0) vh ->
     exists s' m' v' dfc,
       update_step re_search (IndexedSlices values indices) (o, x)
         = (Ok tt, s') /\
       vhat_le o s'.1 /\
       sparse_dfc p values = Ok dfc /\
       deref (SlotM index) s' = Some m' /\
       deref (SlotV index) s' = Some v' /\
       forall j mj' vj' dj xj vhj,
         m' !! j = Some mj' -> v' !! j = Some vj' -> dfc !! j = Some dj ->
         value x !! j = Some xj -> vh !! j = Some vhj ->
         let x_wd := if use then xj - xj * w * learning_rate o else xj in
         entry (SlotVhat index) j s' = Some (Rmax vhj vj') /\
         vhj <= Rmax vhj vj' /\
         entry VarRef j s' =
           Some (x_wd - mj' * alpha_at o / (dj * sqrt (Rmax vhj vj')))).
Proof.
  intros Hreg Hhat Ha Lg Hw Hu Hrange Hv0.
  split; [intros gr s; apply (update_step_hats_grow re_search gr s) |].
  split; [intros batches o0; apply train_hats_grow |].
  split.
  - destruct (update_step_dense_entries re_search o x g index m v p w vh use
                Hreg (fun _ => Hhat) Lg Hw Hu Hrange Hv0)
      as (s' & Hrun & Hent).
    exists s'. split; [exact Hrun |]. split.
    + pose proof (update_step_hats_grow re_search (Dense g) (o, x)) as H.
      rewrite Hrun in H. exact H.
    + intros j mj vj pj gj xj vhj Hmj Hvj Hpj Hgj Hxj Hvhj.
      destruct (Hent j mj vj pj gj xj vhj Hmj Hvj Hpj Hgj Hxj
                  (fun _ => Hvhj))
        as (_ & _ & _ & Eh & Ex).
      cbv zeta in *. rewrite Ha in *.
      repeat split; [exact (Eh eq_refl) | apply Rmax_l | exact Ex].
  - intros values indices Lvi Hin Hshape Hpos.
    destruct (update_step_sparse_amsgrad re_search o x values indices index
                m v p w vh use Hreg Hhat Ha Hw Hu Hrange Lvi Hin Hshape Hpos)
      as (s' & m' & v' & dfc & Hrun & Ed & Lm' & Lv' & Ld & Em & Ev & Eh
          & Ex).
    exists s', m', v', dfc. split; [exact Hrun |]. split.
    { pose proof (update_step_hats_grow re_search
                    (IndexedSlices values indices) (o, x)) as H.
      rewrite Hrun in H. exact H. }
    split; [exact Ed |]. split; [exact Em |]. split; [exact Ev |].
    intros j mj' vj' dj xj vhj Hmj Hvj Hdj Hxj Hvhj. cbv zeta.
    unfold entry. rewrite Eh, Ex. cbn [mbind option_bind].
    split; [| split; [apply Rmax_l |]].
    + rewrite lookup_zip_with, Hvhj, Hvj. reflexivity.
    + destruct use;
        repeat first [ rewrite lookup_zip_with | rewrite list_lookup_fmap ];
        rewrite ?Hxj, ?Hmj, ?Hdj, ?Hvhj, ?Hvj; reflexivity.
Qed.

Lemma amsgrad_velocity_hat_witness :
  let o := warm_amsgrad_engine in
  (forall gr s, vhat_le s.1 (update_step literal_search gr s).2.1) /\
  (forall batches o0, vhat_le o0 (train literal_search batches o0).2) /\
  (exists s',
    update_step literal_search (Dense [0.1; 0.2]) (o, kernel) = (Ok tt, s') /\
    vhat_le o s'.1 /\
    forall j mj vj pj gj xj vhj,
      [0; 0.1] !! j = Some mj -> [1e-16; 0.001 + 1e-16] !! j = Some vj ->
      [0; 1] !! j = Some pj ->
      [0.1; 0.2] !! j = Some gj -> value kernel !! j = Some xj ->
      [1e-16; 0.001 + 1e-16] !! j = Some vhj ->
      let m' := mj + (gj - mj) * (1 - beta_1 o) in
      let v' := vj + ((gj * gj - vj) * (1 - beta_2 o) + epsilon o) in
      let x_wd := if true then xj - xj * 0.004 * learning_rate o else xj in
      entry (SlotVhat 0) j s' = Some (Rmax vhj v') /\
      vhj <= Rmax vhj v' /\
      entry VarRef j s' =
        Some (x_wd
              - m' * alpha_at o / (friction (pj - gj) * sqrt (Rmax vhj v')))) /\
  (forall values indices,
     length values = length indices ->
     Forall (fun i => (i < length (value kernel))%nat) indices ->
     length values = length (value kernel) \/ length values = 1%nat ->
     Forall (Rlt 0) [1e-16; 0.001 + 1e-16] ->
     exists s' m' v' dfc,
       update_step literal_search (IndexedSlices values indices) (o, kernel)
         = (Ok tt, s') /\
       vhat_le o s'.1 /\
       sparse_dfc [0; 1] values = Ok dfc /\
       deref (SlotM 0) s' = Some m' /\
       deref (SlotV 0) s' = Some v' /\
       forall j mj' vj' dj xj vhj,
         m' !! j = Some mj' -> v' !! j = Some vj' -> dfc !! j = Some dj ->
         value kernel !! j = Some xj ->
         [1e-16; 0.001 + 1e-16] !! j = Some vhj ->
         let x_wd := if true then xj - xj * 0.004 * learning_rate o else xj in
         entry (SlotVhat 0) j s' = Some (Rmax vhj vj') /\
         vhj <= Rmax vhj vj' /\
         entry VarRef j s' =
           Some (x_wd - mj' * alpha_at o / (dj * sqrt (Rmax vhj vj')))).
Proof.
  apply (amsgrad_velocity_hat literal_search warm_amsgrad_engine
           kernel [0.1; 0.2] 0 [0; 0.1] [1e-16; 0.001 + 1e-16] [0; 1] 0.004
           [1e-16; 0.001 + 1e-16] true).
  - exact warm_amsgrad_registered.
  - exact warm_amsgrad_registered_hat.
  - reflexivity.
  - reflexivity.
  - reflexivity.
  - reflexivity.
  - apply default_hyperparameters_in_range; reflexivity.
  - repeat constructor; lra.
Defined.

(** ** Repeated dense steps *)

Lemma registered_same_shape o x x' index m v p :
  var_key x' = var_key x -> length (value x') = length (value x) ->
  registered o x index m v p -> registered o x' index m v p.
Proof.
  intros Hk Hl (Hi & Hm & Hv & Hp & Lm & Lv & Lp).
  unfold registered. rewrite Hk, Hl. repeat split; assumption.
Qed.

Lemma registered_hat_same_shape o x x' index vh :
  length (value x') = length (value x) ->
  registered_hat o x index vh -> registered_hat o x' index vh.
Proof. intros Hl [Hh Lh]. split; [exact Hh | lia]. Qed.

(** [refresh] changes the exclusion list alone. *)
Lemma refresh_registered y o x index m v p :
  registered o x index m v p -> registered (refresh y o) x index m v p.
Proof.
  unfold refresh. destruct (_exclude_from_weight_decay o); intros H; exact H.
Qed.

Lemma refresh_registered_hat y o x index vh :
  registered_hat o x index vh -> registered_hat (refresh y o) x index vh.
Proof.
  unfold refresh. destruct (_exclude_from_weight_decay o); intros H; exact H.
Qed.

Lemma refresh_hyperparameters y o :
  iterations (refresh y o) = iterations o /\
  beta_1 (refresh y o) = beta_1 o /\
  beta_2 (refresh y o) = beta_2 o /\
  epsilon (refresh y o) = epsilon o /\
  amsgrad (refresh y o) = amsgrad o /\
  weight_decay (refresh y o) = weight_decay o /\
  _exclude_from_weight_decay_names (refresh y o)
    = _exclude_from_weight_decay_names o.
Proof.
  unfold refresh. destruct (_exclude_from_weight_decay o); repeat split.
Qed.

Lemma refresh_no_variables y o :
  default [] (_exclude_from_weight_decay o) = [] ->
  default [] (_exclude_from_weight_decay (refresh y o)) = [].
Proof.
  unfold refresh. destruct (_exclude_from_weight_decay o) as [l |] eqn:E.
  - simpl. intros ->. reflexivity.
  - rewrite E. reflexivity.
Qed.

Lemma in_range_transfer o o' :
  beta_1 o' = beta_1 o -> beta_2 o' = beta_2 o -> epsilon o' = epsilon o ->
  hyperparameters_in_range o -> hyperparameters_in_range o'.
Proof.
  unfold hyperparameters_in_range. intros -> -> -> H. exact H.
Qed.

Lemma dense_velocity_nonnegative (b2 eps : R) (v g : list R) :
  0 <= b2 <= 1 -> 0 < eps -> Forall (Rle 0) v ->
  Forall (Rle 0)
    (zip_with (fun vi gi => vi + ((gi * gi - vi) * (1 - b2) + eps)) v g).
Proof.
  intros Hb He Hv. apply Forall_lookup. intros j y Hy.
  rewrite lookup_zip_with in Hy.
  destruct (v !! j) as [vj |] eqn:Evj; [| discriminate].
  destruct (g !! j) as [gj |]; [| discriminate].
  simpl in Hy. injection Hy as <-.
  pose proof (Forall_lookup_1 _ _ _ _ Hv Evj) as H0. simpl in H0.
  pose proof (new_velocity_ge_epsilon vj gj b2 eps H0 Hb). lra.
Qed.

Section DenseSequence.

Variable re_search : string -> string -> bool.

(** A dense step on a registered variable: the tensors of the slot after the
    step, as whole tensors, and what else is kept. *)
Lemma update_step_dense_registered o x g index m v p w use :
  registered o x index m v p ->
  (amsgrad o = true -> exists vh, registered_hat o x index vh) ->
  length g = length (value x) ->
  weight_decay o = PyFloat w ->
  _use_weight_decay re_search o x = Ok use ->
  hyperparameters_in_range o ->
  Forall (Rle 0) v ->
  exists s',
    update_step re_search (Dense g) (o, x) = (Ok tt, s') /\
    same_settings o s'.1 /\
    registered s'.1 x index
      (zip_with (fun mi gi => mi + (gi - mi) * (1 - beta_1 o)) m g)
      (zip_with
         (fun vi gi => vi + ((gi * gi - vi) * (1 - beta_2 o) + epsilon o))
         v g)
      g /\
    (amsgrad o = true -> exists vh', registered_hat s'.1 x index vh').
Proof.
  intros Hreg Hhat Lg Hw Hu Hrange Hv0.
  assert (Hvh : exists vh, amsgrad o = true -> registered_hat o x index vh).
  { destruct (amsgrad o); [destruct (Hhat eq_refl) as [vh H]; eauto |].
    exists []. intros H; discriminate H. }
  destruct Hvh as [vh Hvh].
  destruct (update_step_dense_entries re_search o x g index m v p w vh use
              Hreg Hvh Lg Hw Hu Hrange Hv0) as (s' & Hrun & Hent).
  exists s'. split; [exact Hrun |].
  pose proof (update_step_only_slot re_search (Dense g) o x index
                (proj1 Hreg)) as Hf.
  pose proof (update_step_shapes re_search (Dense g) (o, x)) as Hs.
  rewrite Hrun in Hf, Hs. cbn [snd] in Hf, Hs.
  destruct Hf as (Hset & Hk & _ & _).
  split; [exact Hset |].
  destruct Hreg as (Hi & Hm & Hv & Hp & Lm & Lv & Lp).
  pose proof (Hs (SlotM index)) as Sm. pose proof (Hs (SlotV index)) as Sv.
  pose proof (Hs (SlotP index)) as Sp. pose proof (Hs (SlotVhat index)) as Sh.
  cbn [deref fst snd] in Sm, Sv, Sp, Sh.
  rewrite Hm in Sm. rewrite Hv in Sv. rewrite Hp in Sp.
  destruct (_momentums s'.1 !! index) as [m' |] eqn:Em; [| discriminate].
  destruct (_velocities s'.1 !! index) as [v' |] eqn:Ev; [| discriminate].
  destruct (_prev_gradients s'.1 !! index) as [p' |] eqn:Ep;
    [| discriminate].
  simpl in Sm, Sv, Sp. injection Sm as Sm. injection Sv as Sv.
  injection Sp as Sp.
  assert (Hrows : forall j, (j < length g)%nat ->
            exists mj vj pj gj xj vhj,
              m !! j = Some mj /\ v !! j = Some vj /\ p !! j = Some pj /\
              g !! j = Some gj /\ value x !! j = Some xj /\
              (amsgrad o = true -> vh !! j = Some vhj)).
  { intros j Hj.
    destruct (lookup_lt_is_Some_2 m j) as [mj Hmj]; [lia |].
    destruct (lookup_lt_is_Some_2 v j) as [vj Hvj]; [lia |].
    destruct (lookup_lt_is_Some_2 p j) as [pj Hpj]; [lia |].
    destruct (lookup_lt_is_Some_2 g j) as [gj Hgj]; [lia |].
    destruct (lookup_lt_is_Some_2 (value x) j) as [xj Hxj]; [lia |].
    destruct (amsgrad o) eqn:Ea.
    - destruct (Hvh eq_refl) as [_ Lvh].
      destruct (lookup_lt_is_Some_2 vh j) as [vhj Hvhj]; [lia |].
      exists mj, vj, pj, gj, xj, vhj.
      repeat (split; [assumption |]). intros _. exact Hvhj.
    - exists mj, vj, pj, gj, xj, 0.
      repeat (split; [assumption |]). intros H; discriminate H. }
  assert (Em' : m' = zip_with (fun mi gi => mi + (gi - mi) * (1 - beta_1 o))
                       m g).
  { apply list_eq. intros j.
    destruct (decide (j < length g)%nat) as [Hj | Hj].
    - destruct (Hrows j Hj)
        as (mj & vj & pj & gj & xj & vhj & Hmj & Hvj & Hpj & Hgj & Hxj & Hh).
      destruct (Hent j mj vj pj gj xj vhj Hmj Hvj Hpj Hgj Hxj Hh)
        as (E & _).
      unfold entry in E. cbn [deref fst] in E. rewrite Em in E. simpl in E.
      rewrite E, lookup_zip_with, Hmj, Hgj. reflexivity.
    - rewrite !lookup_ge_None_2; [reflexivity | |];
        rewrite ?length_zip_with; lia. }
  assert (Ev' : v' = zip_with
                       (fun vi gi =>
                          vi + ((gi * gi - vi) * (1 - beta_2 o) + epsilon o))
                       v g).
  { apply list_eq. intros j.
    destruct (decide (j < length g)%nat) as [Hj | Hj].
    - destruct (Hrows j Hj)
        as (mj & vj & pj & gj & xj & vhj & Hmj & Hvj & Hpj & Hgj & Hxj & Hh).
      destruct (Hent j mj vj pj gj xj vhj Hmj Hvj Hpj Hgj Hxj Hh)
        as (_ & E & _).
      unfold entry in E. cbn [deref fst] in E. rewrite Ev in E. simpl in E.
      rewrite E, lookup_zip_with, Hvj, Hgj. reflexivity.
    - rewrite !lookup_ge_None_2; [reflexivity | |];
        rewrite ?length_zip_with; lia. }
  assert (Ep' : p' = g).
  { apply list_eq. intros j.
    destruct (decide (j < length g)%nat) as [Hj | Hj].
    - destruct (Hrows j Hj)
        as (mj & vj & pj & gj & xj & vhj & Hmj & Hvj & Hpj & Hgj & Hxj & Hh).
      destruct (Hent j mj vj pj gj xj vhj Hmj Hvj Hpj Hgj Hxj Hh)
        as (_ & _ & E & _).
      unfold entry in E. cbn [deref fst] in E. rewrite Ep in E. simpl in E.
      rewrite E, Hgj. reflexivity.
    - rewrite !lookup_ge_None_2; [reflexivity | |]; lia. }
  destruct Hset as (S1 & S2 & S3 & S4 & S5 & S6 & S7 & S8 & S9 & S10 & S11).
  split.
  - subst m' v' p'. unfold registered. rewrite S9.
    repeat split; try assumption; rewrite ?length_zip_with; lia.
  - intros Ha. destruct (Hvh Ha) as [Hh Lh]. rewrite Hh in Sh.
    destruct (_velocity_hats s'.1 ≫= fun l => l !! index) as [vh' |] eqn:Eh;
      [| discriminate].
    simpl in Sh. injection Sh as Sh. exists vh'. split; [exact Eh | lia].
Qed.

(** One batch of the host with a single dense gradient, on an engine whose
    list of excluded variables is empty. *)
Lemma apply_gradients_dense o x g index m v p w :
  registered o x index m v p ->
  (amsgrad o = true -> exists vh, registered_hat o x index vh) ->
  length g = length (value x) ->
  weight_decay o = PyFloat w ->
  default [] (_exclude_from_weight_decay o) = [] ->
  hyperparameters_in_range o ->
  Forall (Rle 0) v ->
  exists o',
    apply_gradients re_search [(Dense g, x)] o = (Ok tt, o') /\
    iterations o' = S (iterations o) /\
    beta_1 o' = beta_1 o /\ beta_2 o' = beta_2 o /\
    epsilon o' = epsilon o /\ amsgrad o' = amsgrad o /\
    weight_decay o' = weight_decay o /\
    default [] (_exclude_from_weight_decay o') = [] /\
    registered o' x index
      (zip_with (fun mi gi => mi + (gi - mi) * (1 - beta_1 o)) m g)
      (zip_with
         (fun vi gi => vi + ((gi * gi - vi) * (1 - beta_2 o) + epsilon o))
         v g)
      g /\
    (amsgrad o = true -> exists vh', registered_hat o' x index vh').
Proof.
  intros Hreg Hhat Lg Hw Hno Hrange Hv0.
  assert (Hu : _use_weight_decay re_search o x
               = Ok (negb (existsb (fun pat => re_search pat (name x))
                             (default []
                                (_exclude_from_weight_decay_names o))))).
  { apply use_weight_decay_by_name. rewrite Hno. constructor. }
  destruct (update_step_dense_registered o x g index m v p w _
              Hreg Hhat Lg Hw Hu Hrange Hv0)
    as (s' & Hrun & Hset & Hreg' & Hhat').
  destruct Hset as (S1 & S2 & S3 & S4 & S5 & S6 & S7 & S8 & S9 & S10 & S11).
  destruct (refresh_hyperparameters s'.2 s'.1)
    as (R1 & R2 & R3 & R4 & R5 & R6 & R7).
  exists (set_iterations (S (iterations (refresh s'.2 s'.1)))
            (refresh s'.2 s'.1)).
  split.
  - unfold apply_gradients. cbn [for_].
    unfold mbind, M_mbind, M_bind, step_on. cbn [fst snd].
    rewrite Hrun. reflexivity.
  - split; [cbn [iterations set_iterations]; congruence |].
    split; [cbn [beta_1 set_iterations]; congruence |].
    split; [cbn [beta_2 set_iterations]; congruence |].
    split; [cbn [epsilon set_iterations]; congruence |].
    split; [cbn [amsgrad set_iterations]; congruence |].
    split; [cbn [weight_decay set_iterations]; congruence |].
    split.
    { cbn [_exclude_from_weight_decay set_iterations].
      apply refresh_no_variables. rewrite S10. exact Hno. }
    split.
    + apply (refresh_registered s'.2) in Hreg'. exact Hreg'.
    + intros Ha. destruct (Hhat' Ha) as [vh' Hvh']. exists vh'.
      apply (refresh_registered_hat s'.2) in Hvh'. exact Hvh'.
Qed.

End DenseSequence.

Lemma ema_closed_step (mj gj b bn : R) :
  gj + (mj + (gj - mj) * (1 - b) - gj) * bn = gj + (mj - gj) * (b * bn).
Proof. ring. Qed.

Lemma velocity_closed_step (vj gj b bn eps vn : R) :
  (1 - b) * vn
  = (1 - b) * bn * (vj + ((gj * gj - vj) * (1 - b) + eps))
    + ((1 - b) * (gj * gj) + eps) * (1 - bn) ->
  (1 - b) * vn
  = (1 - b) * (b * bn) * vj + ((1 - b) * (gj * gj) + eps) * (1 - b * bn).
Proof. intros ->. ring. Qed.

Section ConstantGradient.

Variable re_search : string -> string -> bool.
Variable x : TfVariable.
Variable g : list R.
Variable index : nat.
Variable w : R.
Hypothesis g_shape : length g = length (value x).

(** The batches of a host that feeds the same dense gradient, one batch per
    element of [xs]; each element is the model variable as the host holds it
    at that time. *)
Lemma train_constant_gradient_from (xs : list TfVariable) :
  forall o m v p,
    registered o x index m v p ->
    (amsgrad o = true -> exists vh, registered_hat o x index vh) ->
    weight_decay o = PyFloat w ->
    default [] (_exclude_from_weight_decay o) = [] ->
    hyperparameters_in_range o ->
    Forall (Rle 0) v ->
    Forall (fun xk => var_key xk = var_key x /\
                      length (value xk) = length (value x)) xs ->
    exists o' mn vn,
      train re_search ((fun xk => [(Dense g, xk)]) <$> xs) o = (Ok tt, o') /\
      iterations o' = (iterations o + length xs)%nat /\
      registered o' x index mn vn (match xs with [] => p | _ => g end) /\
      forall j mj vj gj,
        m !! j = Some mj -> v !! j = Some vj -> g !! j = Some gj ->
        mn !! j = Some (gj + (mj - gj) * beta_1 o ^ length xs) /\
        exists vnj,
          vn !! j = Some vnj /\
          (1 - beta_2 o) * vnj
          = (1 - beta_2 o) * beta_2 o ^ length xs * vj
            + ((1 - beta_2 o) * (gj * gj) + epsilon o)
              * (1 - beta_2 o ^ length xs).
Proof.
  induction xs as [| xk xs IH]; intros o m v p Hreg Hhat Hw Hno Hrange Hv0 Hxs.
  - exists o, m, v. split; [reflexivity |].
    split; [simpl; lia |]. split; [exact Hreg |].
    intros j mj vj gj Hmj Hvj Hgj. split.
    + rewrite Hmj. f_equal. simpl. ring.
    + exists vj. split; [exact Hvj |]. simpl. ring.
  - inversion Hxs as [| ? ? [Hk Hl] Hrest]; subst.
    destruct (apply_gradients_dense re_search o xk g index m v p w)
      as (o1 & Hrun & Hit & Hb1 & Hb2 & Heps & Hams & Hwd & Hno1 & Hreg1
          & Hhat1).
    { apply (registered_same_shape o x xk); [exact Hk | exact Hl | exact Hreg]. }
    { intros Ha. destruct (Hhat Ha) as [vh Hvh]. exists vh.
      apply (registered_hat_same_shape o x xk); [exact Hl | exact Hvh]. }
    { lia. }
    { exact Hw. }
    { exact Hno. }
    { exact Hrange. }
    { exact Hv0. }
    apply (registered_same_shape o1 xk x) in Hreg1; [| congruence | lia].
    destruct (IH o1 _ _ g Hreg1) as (o' & mn & vn & Ht & Hi' & Hreg' & Hcl).
    { rewrite Hams. intros Ha. destruct (Hhat1 Ha) as [vh Hvh]. exists vh.
      apply (registered_hat_same_shape o1 xk x); [lia | exact Hvh]. }
    { congruence. }
    { exact Hno1. }
    { exact (in_range_transfer o o1 Hb1 Hb2 Heps Hrange). }
    { destruct Hrange as (_ & Hr2 & He).
      exact (dense_velocity_nonnegative (beta_2 o) (epsilon o) v g
               Hr2 He Hv0). }
    { exact Hrest. }
    exists o', mn, vn. split.
    { rewrite fmap_cons. unfold train. cbn [for_].
      rewrite (run_bind _ _ _ _ _ Hrun). exact Ht. }
    split; [rewrite Hi', Hit; simpl; lia |].
    split.
    { destruct xs; exact Hreg'. }
    intros j mj vj gj Hmj Hvj Hgj.
    destruct (Hcl j (mj + (gj - mj) * (1 - beta_1 o))
                (vj + ((gj * gj - vj) * (1 - beta_2 o) + epsilon o)) gj)
      as (Em & vnj & Evn & Ecl).
    { rewrite lookup_zip_with, Hmj, Hgj. reflexivity. }
    { rewrite lookup_zip_with, Hvj, Hgj. reflexivity. }
    { exact Hgj. }
    rewrite Hb1 in Em. rewrite Hb2, Heps in Ecl.
    split.
    + rewrite Em. f_equal. cbn [length pow]. apply ema_closed_step.
    + exists vnj. split; [exact Evn |]. cbn [length pow].
      apply velocity_closed_step. exact Ecl.
Qed.

End ConstantGradient.

(** X11. A host that feeds the same dense gradient [g] for [n] consecutive
    batches to a registered variable, on an engine whose list of excluded
    variables is empty and whose arithmetic is defined ([beta_1] in
    [[0, 1)], [beta_2] in [[0, 1]], [epsilon > 0], no negative velocity):
    every batch returns, the step counter advances by [n], the variable
    stays registered, prev_gradient holds [g] after the first batch, and
    momentum and velocity follow the closed form of their recurrences, entry
    by entry:
    [m_n = g + (m_0 - g) * beta_1^n] and
    [(1 - beta_2) * v_n = (1 - beta_2) * beta_2^n * v_0
                          + ((1 - beta_2) * g^2 + epsilon) * (1 - beta_2^n)].
    From zero state the momentum is [g * (1 - beta_1^n)], the factor that the
    step scale divides out. *)
Theorem constant_gradient_closed_form
    (re_search : string -> string -> bool) (x : TfVariable) (g : list R)
    (index : nat) (w : R) (xs : list TfVariable) (o : DiffGrad)
    (m v p : list R) :
  length g = length (value x) ->
  registered o x index m v p ->
  (amsgrad o = true -> exists vh, registered_hat o x index vh) ->
  weight_decay o = PyFloat w ->
  default [] (_exclude_from_weight_decay o) = [] ->
  hyperparameters_in_range o ->
  Forall (Rle 0) v ->
  Forall (fun xk => var_key xk = var_key x /\
                    length (value xk) = length (value x)) xs ->
  exists o' mn vn,
    train re_search ((fun xk => [(Dense g, xk)]) <$> xs) o = (Ok tt, o') /\
    iterations o' = (iterations o + length xs)%nat /\
    registered o' x index mn vn (match xs with [] => p | _ => g end) /\
    forall j mj vj gj,
      m !! j = Some mj -> v !! j = Some vj -> g !! j = Some gj ->
      mn !! j = Some (gj + (mj - gj) * beta_1 o ^ length xs) /\
      (mj = 0 -> mn !! j = Some (gj * (1 - beta_1 o ^ length xs))) /\
      exists vnj,
        vn !! j = Some vnj /\
        (1 - beta_2 o) * vnj
        = (1 - beta_2 o) * beta_2 o ^ length xs * vj
          + ((1 - beta_2 o) * (gj * gj) + epsilon o)
            * (1 - beta_2 o ^ length xs).
Proof.
  intros Lg Hreg Hhat Hw Hno Hrange Hv0 Hxs.
  destruct (train_constant_gradient_from re_search x g index w Lg xs
              o m v p Hreg Hhat Hw Hno Hrange Hv0 Hxs)
    as (o' & mn & vn & Ht & Hi & Hreg' & Hcl).
  exists o', mn, vn. repeat (split; [assumption |]).
  intros j mj vj gj Hmj Hvj Hgj.
  destruct (Hcl j mj vj gj Hmj Hvj Hgj) as (Em & Ev).
  split; [exact Em |]. split; [| exact Ev].
  intros ->. rewrite Em. f_equal. ring.
Qed.

Lemma constant_gradient_closed_form_witness :
  exists o' mn vn,
    train literal_search
      ((fun xk => [(Dense [0.1; 0.2], xk)]) <$> [kernel; kernel; kernel])
      (built_engine default_engine) = (Ok tt, o') /\
    iterations o'
    = (iterations (built_engine default_engine)
       + length [kernel; kernel; kernel])%nat /\
    registered o' kernel 0 mn vn
      (match [kernel; kernel; kernel] with
       | [] => [0; 0]
       | _ => [0.1; 0.2]
       end) /\
    forall j mj vj gj,
      [0; 0] !! j = Some mj -> [0; 0] !! j = Some vj ->
      [0.1; 0.2] !! j = Some gj ->
      let o := built_engine default_engine in
      let n := length [kernel; kernel; kernel] in
      mn !! j = Some (gj + (mj - gj) * beta_1 o ^ n) /\
      (mj = 0 -> mn !! j = Some (gj * (1 - beta_1 o ^ n))) /\
      exists vnj,
        vn !! j = Some vnj /\
        (1 - beta_2 o) * vnj
        = (1 - beta_2 o) * beta_2 o ^ n * vj
          + ((1 - beta_2 o) * (gj * gj) + epsilon o) * (1 - beta_2 o ^ n).
Proof.
  apply (constant_gradient_closed_form literal_search kernel [0.1; 0.2] 0
           0.004 [kernel; kernel; kernel] (built_engine default_engine)
           [0; 0] [0; 0] [0; 0]).
  - reflexivity.
  - exact built_default_registered.
  - intros H. discriminate H.
  - reflexivity.
  - reflexivity.
  - exact built_default_in_range.
  - repeat constructor; lra.
  - repeat constructor.
Defined.
